(** * A shallow embedding of the lk16/parser parsing engine

Two generations of the engine live in the repository:

- [src/parser/parser.py]: parser objects ([OrParser], [RepeatParser],
  [OptionalParser], [ConcatenationParser], [TerminalParser],
  [NonTerminalParser], [LiteralParser]), [tokenize] and [parse_generic].
  It is embedded in [Module Combinators].
- [src/parser/parser/parser.py]: the [Parser] class interpreting
  [Expression] values, with its pruning functions.  It is embedded in
  [Module Engine].

Python exceptions are explicit results; [while True] loops and the
recursion through the rule table are bounded by a fuel argument, and
[OutOfFuel] for every fuel is how divergence shows. *)

From Stdlib Require Import List ZArith Lia Bool Arith String Ascii.
Import ListNotations.

Set Implicit Arguments.
Set Warnings "-register-all".

(** Python's [len] on lists. *)
Abbreviation len := (@List.length _).

(** ** Results of Python calls *)

Inductive Outcome (E A : Type) : Type :=
| Return (a : A)
| Raise (e : E)
| OutOfFuel.

Arguments Return {E A} a.
Arguments Raise {E A} e.
Arguments OutOfFuel {E A}.

Definition bind {E A B} (c : Outcome E A) (k : A -> Outcome E B) : Outcome E B :=
  match c with
  | Return a => k a
  | Raise e => Raise e
  | OutOfFuel => OutOfFuel
  end.

Notation "x <- c ;; k" := (bind c (fun x => k))
  (at level 61, c at next level, right associativity).
Notation "' p <- c ;; k" := (bind c (fun x => let 'p := x in k))
  (at level 61, p pattern, c at next level, right associativity).

Definition terminates {E A} (r : Outcome E A) : Prop := r <> OutOfFuel.

(** ** enum.IntEnum

An enumeration class is its [__members__] table in definition order.  A
member knows its class ([type(member)]), its name and its integer value.
Members are ints: [==], hashing, dict lookup and set membership go by the
integer value, and a member of value 0 is falsy.  A name whose value an
earlier name of the table has is an alias: it is in [__members__], it is
not a member of its own, and it stands for the earlier one. *)

Record EnumType : Type := { members : list (string * Z) }.

Record IntEnum : Type := { enum_type : EnumType; name : string; value : Z }.

Definition enum_eqb (a b : IntEnum) : bool := Z.eqb (value a) (value b).

(** [bool(member)] *)
Definition truthy (a : IntEnum) : bool := negb (Z.eqb (value a) 0).

(** The entries of a [__members__] table that are no aliases: the first
    name of every value, [seen] being the values of the entries before. *)
Fixpoint canonical_members (seen : list Z) (table : list (string * Z))
  : list (string * Z) :=
  match table with
  | [] => []
  | nv :: rest =>
      if existsb (Z.eqb (snd nv)) seen then canonical_members seen rest
      else nv :: canonical_members (snd nv :: seen) rest
  end.

(** [list(enum_class)]: the members in definition order, without aliases. *)
Definition enum_iter (E : EnumType) : list IntEnum :=
  map (fun nv => {| enum_type := E; name := fst nv; value := snd nv |})
    (canonical_members [] (members E)).

(** [name in enum_class.__members__] *)
Definition has_member (E : EnumType) (n : string) : bool :=
  existsb (fun nv => String.eqb (fst nv) n) (members E).

(** [enum_class[name]]; [None] stands for the [KeyError].  The name is
    looked up in [__members__]; the result is the member of that value,
    which carries the first name of the value (for an alias, not the name
    asked for). *)
Definition enum_getitem (E : EnumType) (n : string) : option IntEnum :=
  match find (fun nv => String.eqb (fst nv) n) (members E) with
  | Some nv =>
      match find (fun m => Z.eqb (snd m) (snd nv)) (members E) with
      | Some m => Some {| enum_type := E; name := fst m; value := snd m |}
      | None => None
      end
  | None => None
  end.

(** [key in keys], for a list or set of members. *)
Definition enum_in (k : IntEnum) (ks : list IntEnum) : bool :=
  existsb (enum_eqb k) ks.

(** [token_type in token_types] where the left side may be [None]. *)
Definition type_in (tt : option IntEnum) (token_types : list IntEnum) : bool :=
  match tt with
  | Some k => enum_in k token_types
  | None => false
  end.

(** ** Dict[IntEnum, _]

A dict keeps insertion order ([list(d.keys())[0]] is the first key
inserted), so it is an association list; lookup goes by integer value. *)

Definition Dict (A : Type) : Type := list (IntEnum * A).

Definition keys {A} (d : Dict A) : list IntEnum := map fst d.

(** [d[key]]; [None] stands for the [KeyError]. *)
Definition dict_get {A} (d : Dict A) (key : IntEnum) : option A :=
  match find (fun kv => enum_eqb (fst kv) key) d with
  | Some kv => Some (snd kv)
  | None => None
  end.

(** [set(a) - set(b)], kept in the order of [a]. *)
Definition set_difference (a b : list IntEnum) : list IntEnum :=
  filter (fun k => negb (enum_in k b)) a.

(** ** Tokens and trees *)

(** Modelled from the spec: the [Token] class is declared outside src/
    ([parser.tree], [parser.tokenizer.tokenizer]).  Spec 3: symbol type,
    source offset and length, the last two in the unit of the source text. *)
Record Token : Type := mkToken { type : IntEnum; offset : nat; length : nat }.

(** Modelled from the spec: the [Tree] dataclass is declared outside src/
    ([parser.tree], [parser.parser.models]).  Spec 3: token offset, token
    count, optional symbol type and the ordered children.  An instance is
    truthy, so [if not tree] asks for [None].  Offsets and counts are
    naturals: a parse starts at token 0 and moves forward by token counts. *)
Inductive Tree : Type :=
  mkTree {
    token_offset : nat;
    token_count : nat;
    token_type : option IntEnum;
    children : list Tree
  }.

(** [tree.token_type = t] *)
Definition set_token_type (tree : Tree) (t : option IntEnum) : Tree :=
  mkTree (token_offset tree) (token_count tree) t (children tree).

(** [dataclasses.replace(tree, children=cs)] *)
Definition replace_children (tree : Tree) (cs : list Tree) : Tree :=
  mkTree (token_offset tree) (token_count tree) (token_type tree) cs.

Section TreeInduction.
Variable P : Tree -> Prop.
Hypothesis step : forall o c t cs, Forall P cs -> P (mkTree o c t cs).

Fixpoint Tree_forall_ind (tree : Tree) : P tree :=
  match tree with
  | mkTree o c t cs =>
      step o c t
        ((fix go (l : list Tree) : Forall P l :=
            match l with
            | [] => Forall_nil P
            | x :: r => Forall_cons x (Tree_forall_ind x) (go r)
            end) cs)
  end.
End TreeInduction.

(** * src/parser/parser/parser.py *)

Module Engine.

(** Modelled from the spec: the expression classes are declared in
    [parser.parser.models], outside src/.  Spec 3 lists the kinds; the
    engine reads [children], [child] and [token_type] of them and no
    [min_repeats]. *)
Inductive Expression : Type :=
| ConcatenationExpression (children : list Expression)
| ConjunctionExpression (children : list Expression)
| NonTerminalExpression (token_type : IntEnum)
| OptionalExpression (child : Expression)
| RepeatExpression (child : Expression)
| TerminalExpression (token_type : IntEnum).

(** The exceptions of [parser.parser.exceptions] the engine raises
    ([ParseError] has the fields of [BaseParseError] in
    [src/parser/exceptions.py]) and the built-in ones its statements can
    raise. *)
Inductive Exception : Type :=
| ParseError (filename code : string) (offset : nat)
| MissingRootNonTerminalType
| MissingNonTerminalTypes (missing_keys : list IntEnum)
| UnexpectedNonTerminalTypes (unexpected_keys : list IntEnum)
| AssertionError
| IndexError
| KeyError
| StopIteration.

Definition Result := Outcome Exception.

(** The fields of a [Parser] object ([verbose] only drives debug printing
    to stderr and is left out together with [_print_parse_debug_info]). *)
Record Parser : Type := {
  filename : string;
  code : string;
  tokens : list Token;
  non_terminal_rules : Dict Expression;
  pruned_non_terminals : list IntEnum;
  root_token : string
}.

Section Methods.
Variable self : Parser.

(** The methods call [self._parse] back; here the callee is the
    argument [parse] (the engine at the fuel that is left). *)
Section Dispatch.
Variable parse : Expression -> nat -> Result Tree.

(** The [for child in expr.children] loop: stop at the first success,
    go on after a [ParseError]. *)
Fixpoint conjunction_loop (children : list Expression) (offset : nat)
  : Result (option Tree) :=
  match children with
  | [] => Return None
  | child :: rest =>
      match parse child offset with
      | Return parsed => Return (Some parsed)
      | Raise (ParseError _ _ _) => conjunction_loop rest offset
      | Raise e => Raise e
      | OutOfFuel => OutOfFuel
      end
  end.

Definition _parse_conjunction (children : list Expression) (offset : nat)
  : Result Tree :=
  parsed <- conjunction_loop children offset ;;
  match parsed with
  | None => Raise (ParseError (filename self) (code self) offset)
  | Some parsed =>
      Return (mkTree (token_offset parsed) (token_count parsed) None [parsed])
  end.

(** The [while True] loop; every iteration takes one unit of fuel. *)
Fixpoint repeat_loop (fuel : nat) (child : Expression)
    (children : list Tree) (child_offset : nat)
  : Result (list Tree * nat) :=
  match fuel with
  | O => OutOfFuel
  | S fuel =>
      match parse child child_offset with
      | Return parsed =>
          repeat_loop fuel child (children ++ [parsed])
            (child_offset + token_count parsed)
      | Raise (ParseError _ _ _) => Return (children, child_offset)
      | Raise e => Raise e
      | OutOfFuel => OutOfFuel
      end
  end.

Definition _parse_repeat (fuel : nat) (child : Expression) (offset : nat)
  : Result Tree :=
  '(children, child_offset) <- repeat_loop fuel child [] offset ;;
  Return (mkTree offset (child_offset - offset) None children).

Definition _parse_optional (child : Expression) (offset : nat) : Result Tree :=
  match parse child offset with
  | Return parsed => Return (mkTree offset (token_count parsed) None [parsed])
  | Raise (ParseError _ _ _) => Return (mkTree offset 0 None [])
  | Raise e => Raise e
  | OutOfFuel => OutOfFuel
  end.

Fixpoint concatenation_loop (children : list Expression)
    (sub_trees : list Tree) (child_offset : nat)
  : Result (list Tree * nat) :=
  match children with
  | [] => Return (sub_trees, child_offset)
  | child :: rest =>
      parsed <- parse child child_offset ;;
      concatenation_loop rest (sub_trees ++ [parsed])
        (child_offset + token_count parsed)
  end.

Definition _parse_concatenation (children : list Expression) (offset : nat)
  : Result Tree :=
  '(sub_trees, child_offset) <- concatenation_loop children [] offset ;;
  Return (mkTree offset (child_offset - offset) None sub_trees).

Definition _parse_terminal (token_type : IntEnum) (offset : nat) : Result Tree :=
  match nth_error (tokens self) offset with
  | None => Raise IndexError
  | Some token =>
      if negb (enum_eqb (type token) token_type)
      then Raise (ParseError (filename self) (code self) offset)
      else Return (mkTree offset 1 (Some token_type) [])
  end.

Definition _parse_non_terminal (token_type : IntEnum) (offset : nat)
  : Result Tree :=
  match dict_get (non_terminal_rules self) token_type with
  | None => Raise KeyError
  | Some non_terminal_expansion =>
      child <- parse non_terminal_expansion offset ;;
      Return (mkTree (token_offset child) (token_count child)
                (Some token_type) [child])
  end.
End Dispatch.

Fixpoint _parse (fuel : nat) (expr : Expression) (offset : nat) : Result Tree :=
  match fuel with
  | O => OutOfFuel
  | S fuel =>
      if len (tokens self) <=? offset then
        match expr with
        | RepeatExpression _ | OptionalExpression _ =>
            Return (mkTree offset 0 None [])
        | _ => Raise (ParseError (filename self) (code self) offset)
        end
      else
        match expr with
        | ConcatenationExpression children =>
            _parse_concatenation (_parse fuel) children offset
        | ConjunctionExpression children =>
            _parse_conjunction (_parse fuel) children offset
        | NonTerminalExpression token_type =>
            _parse_non_terminal (_parse fuel) token_type offset
        | OptionalExpression child =>
            _parse_optional (_parse fuel) child offset
        | RepeatExpression child =>
            _parse_repeat (_parse fuel) fuel child offset
        | TerminalExpression token_type =>
            _parse_terminal token_type offset
        end
  end.

Definition _check_non_terminal_rules : Result unit :=
  match keys (non_terminal_rules self) with
  | [] => Raise IndexError
  | first_key :: _ =>
      let tokens_enum := enum_type first_key in
      let unexpected_keys :=
        set_difference (keys (non_terminal_rules self)) (enum_iter tokens_enum) in
      let missing_keys :=
        set_difference (enum_iter tokens_enum) (keys (non_terminal_rules self)) in
      if negb (has_member tokens_enum "ROOT") then
        Raise MissingRootNonTerminalType
      else if negb (len missing_keys =? 0) then
        Raise (MissingNonTerminalTypes missing_keys)
      else if negb (len unexpected_keys =? 0) then
        Raise (UnexpectedNonTerminalTypes unexpected_keys)
      else Return tt
  end.
End Methods.

(** ** Pruning *)

Fixpoint _get_descendants_without_token_types (tree : Tree)
    (token_types : list IntEnum) : list Tree :=
  flat_map
    (fun child =>
       if type_in (token_type child) token_types
       then _get_descendants_without_token_types child token_types
       else [replace_children child
               (_get_descendants_without_token_types child token_types)])
    (children tree).

Definition _prune_by_token_types (tree : Tree) (token_types : list IntEnum)
  : option Tree :=
  let descendants_with_token_type :=
    _get_descendants_without_token_types tree token_types in
  let children :=
    map (fun child =>
           mkTree (token_offset child) (token_count child) (token_type child)
             (_get_descendants_without_token_types child token_types))
      descendants_with_token_type in
  Some (mkTree (token_offset tree) (token_count tree) (token_type tree) children).

Fixpoint _get_descendants_with_token_type (tree : Tree) : list Tree :=
  flat_map
    (fun child =>
       match token_type child with
       | None => _get_descendants_with_token_type child
       | Some _ =>
           [replace_children child (_get_descendants_with_token_type child)]
       end)
    (children tree).

(** [assert tree.token_type is not None] guards the body. *)
Definition _prune_no_token_type (tree : Tree) : Result (option Tree) :=
  match token_type tree with
  | None => Raise AssertionError
  | Some _ =>
      Return (Some (mkTree (token_offset tree) (token_count tree) (token_type tree)
                      (_get_descendants_with_token_type tree)))
  end.

(** [x or empty_tree]: a [Tree] instance is truthy, only [None] is replaced. *)
Definition or_else (x : option Tree) (empty_tree : Tree) : Tree :=
  match x with
  | Some t => t
  | None => empty_tree
  end.

(** The last lines of [Parser.parse]: the two pruning stages, each followed
    by [or empty_tree]. *)
Definition prune (self : Parser) (root_non_terminal : IntEnum) (tree : Tree)
  : Result Tree :=
  let empty_tree := mkTree 0 0 (Some root_non_terminal) [] in
  pruned <- _prune_no_token_type tree ;;
  let pruned_tree := or_else pruned empty_tree in
  let pruned_tree :=
    or_else (_prune_by_token_types pruned_tree (pruned_non_terminals self))
      empty_tree in
  Return pruned_tree.

Definition parse (self : Parser) (fuel : nat) : Result Tree :=
  _ <- _check_non_terminal_rules self ;;
  match keys (non_terminal_rules self) with
  | [] => Raise StopIteration
  | first_key :: _ =>
      let non_terminal_enum_type := enum_type first_key in
      match enum_getitem non_terminal_enum_type (root_token self) with
      | None => Raise KeyError
      | Some root_non_terminal =>
          match dict_get (non_terminal_rules self) root_non_terminal with
          | None => Raise KeyError
          | Some root_expr =>
              tree <- _parse self fuel root_expr 0 ;;
              let tree := set_token_type tree (Some root_non_terminal) in
              if negb (token_count tree =? len (tokens self)) then
                if negb (token_count tree <? len (tokens self)) then
                  Raise AssertionError
                else
                  match nth_error (tokens self) (token_count tree) with
                  | None => Raise IndexError
                  | Some first_unexpected_token =>
                      Raise (ParseError (filename self) (code self)
                               (offset first_unexpected_token))
                  end
              else prune self root_non_terminal tree
          end
      end
  end.

End Engine.

(** * src/parser/parser.py *)

(** ** Python [str] helpers used by [tokenize] and [humanize_parse_error] *)

Definition newline : ascii := "010"%char.

(** [s[n:]] *)
Definition str_from (n : nat) (s : string) : string :=
  string_of_list_ascii (skipn n (list_ascii_of_string s)).

(** [s[:n]] *)
Definition str_upto (n : nat) (s : string) : string :=
  string_of_list_ascii (firstn n (list_ascii_of_string s)).

(** [s[a:b]] for [0 <= a] *)
Definition str_slice (a b : nat) (s : string) : string :=
  string_of_list_ascii (skipn a (firstn b (list_ascii_of_string s))).

(** [s.count("\n")] *)
Definition count_newlines (s : string) : nat :=
  len (filter (Ascii.eqb newline) (list_ascii_of_string s)).

(** Index of the first newline of [l], counted from [i]; [-1] when none. *)
Fixpoint find_newline_list (l : list ascii) (i : Z) : Z :=
  match l with
  | [] => (-1)%Z
  | c :: r => if Ascii.eqb c newline then i else find_newline_list r (i + 1)%Z
  end.

(** [s.find("\n", start)] *)
Definition find_newline (s : string) (start : nat) : Z :=
  find_newline_list (skipn start (list_ascii_of_string s)) (Z.of_nat start).

(** Index of the last newline of [l], counted from [i]; [last] when none. *)
Fixpoint rfind_newline_list (l : list ascii) (i last : Z) : Z :=
  match l with
  | [] => last
  | c :: r =>
      rfind_newline_list r (i + 1)%Z (if Ascii.eqb c newline then i else last)
  end.

(** [s.rfind("\n")] *)
Definition rfind_newline (s : string) : Z :=
  rfind_newline_list (list_ascii_of_string s) 0%Z (-1)%Z.

(** [s.rfind("\n", 0, stop)] *)
Definition rfind_newline_before (s : string) (stop : nat) : Z :=
  rfind_newline_list (firstn stop (list_ascii_of_string s)) 0%Z (-1)%Z.

(** * src/parser/exceptions.py *)

Module BaseParseError.

(** The fields [__init__] sets; [offset] is a position in the text and not
    negative. *)
Record BaseParseError : Type := {
  filename : string;
  code : string;
  offset : nat
}.

Definition get_line_column_numbers (self : BaseParseError) : Z * Z :=
  let before_offset := str_upto (offset self) (code self) in
  let line_num := (1 + Z.of_nat (count_newlines before_offset))%Z in
  let prev_newline_offset := rfind_newline before_offset in
  let col_num := (Z.of_nat (offset self) - prev_newline_offset)%Z in
  (line_num, col_num).

Definition get_line (self : BaseParseError) : string :=
  let prev_newline := rfind_newline_before (code self) (offset self) in
  let next_newline := find_newline (code self) (offset self) in
  let next_newline :=
    if (next_newline =? -1)%Z then Z.of_nat (String.length (code self))
    else next_newline in
  str_slice (Z.to_nat (prev_newline + 1)) (Z.to_nat next_newline) (code self).

End BaseParseError.

(** * src/parser/grammar.py *)

(** [l[i:].startswith(p)] for the rest [l] of a text *)
Fixpoint starts_with (p l : list ascii) : bool :=
  match p, l with
  | [], _ => true
  | _ :: _, [] => false
  | a :: p', b :: l' => Ascii.eqb a b && starts_with p' l'
  end.

(** The scan of [s.replace(old, new)] for a non-empty [old]: from the left,
    an occurrence of [old] gives [new] and the scan goes on after the
    occurrence ([skip] counts the characters of it still to pass); any
    other character is kept. *)
Fixpoint replace_from (old new : list ascii) (skip : nat) (l : list ascii)
  : list ascii :=
  match l with
  | [] => []
  | c :: r =>
      match skip with
      | S k => replace_from old new k r
      | O =>
          if starts_with old l
          then new ++ replace_from old new (len old - 1) r
          else c :: replace_from old new 0 r
      end
  end.

(** [s.replace(old, new)] *)
Definition str_replace (s old new : string) : string :=
  string_of_list_ascii
    (replace_from (list_ascii_of_string old) (list_ascii_of_string new) 0
       (list_ascii_of_string s)).

Module Grammar.

Inductive Exception : Type :=
| ValueError.

Definition backslash : ascii := "092"%char.
Definition quote : ascii := "039"%char.
Definition double_quote : ascii := "034"%char.

(** A one-character string and a backslash followed by a character. *)
Definition one (c : ascii) : string := String c EmptyString.
Definition escaped (c : ascii) : string := String backslash (one c).

Definition ESCAPE_SEQUENCES : list (string * string) :=
  [(one backslash, escaped backslash);
   (one quote, escaped quote);
   (one double_quote, escaped double_quote);
   (one "007"%char, escaped "a"%char);
   (one "008"%char, escaped "b"%char);
   (one "012"%char, escaped "f"%char);
   (one "010"%char, escaped "n"%char);
   (one "013"%char, escaped "r"%char);
   (one "009"%char, escaped "t"%char);
   (one "011"%char, escaped "v"%char)].

Definition escape_string (s : string) : string :=
  let result :=
    fold_left (fun result '(before, after) => str_replace result before after)
      ESCAPE_SEQUENCES s in
  (one double_quote ++ result ++ one double_quote)%string.

(** [s[0]] and [s[-1]] are read only when [len(s) >= 2]. *)
Definition unescape_string (s : string) : Outcome Exception string :=
  let chars := list_ascii_of_string s in
  if (String.length s <? 2)
     || negb (Ascii.eqb (nth 0 chars zero) double_quote)
     || negb (Ascii.eqb (last chars zero) double_quote)
  then Raise ValueError
  else
    let result := str_slice 1 (String.length s - 1) s in
    Return
      (fold_left (fun result '(after, before) => str_replace result before after)
         ESCAPE_SEQUENCES result).

End Grammar.

(** ** parser.tree

    [src/parser/parser.py] imports [prune_no_symbol], [prune_zero_length]
    and [prune_by_symbol_types] from [parser.tree], which is not among the
    sources; [parse_generic] applies them in a fixed order. *)

Fixpoint tagged_descendants (tree : Tree) : list Tree :=
  flat_map
    (fun child =>
       match token_type child with
       | None => tagged_descendants child
       | Some _ => [replace_children child (tagged_descendants child)]
       end)
    (children tree).

(** Modelled from the spec: [parser.tree.prune_no_symbol] is missing from
    src/.  Spec 4.4, stage 1: remove every node with no symbol type,
    splicing its children into its parent's child list at the same
    position, preserving order; the result is empty when the whole tree
    collapses (an untagged root has no parent to splice into). *)
Definition prune_no_symbol (tree : Tree) : option Tree :=
  match token_type tree with
  | None => None
  | Some _ => Some (replace_children tree (tagged_descendants tree))
  end.

Fixpoint nonzero_descendants (tree : Tree) : list Tree :=
  flat_map
    (fun child =>
       if token_count child =? 0 then []
       else [replace_children child (nonzero_descendants child)])
    (children tree).

(** Modelled from the spec: [parser.tree.prune_zero_length] is missing from
    src/.  Spec 4.4, stage 2: remove every remaining node whose consumed
    length is zero, since it represents "absent", not data; the result is
    empty when the root itself has length zero. *)
Definition prune_zero_length (tree : Tree) : option Tree :=
  if token_count tree =? 0 then None
  else Some (replace_children tree (nonzero_descendants tree)).

Fixpoint hard_pruned_descendants (symbol_types : list IntEnum) (tree : Tree)
  : list Tree :=
  flat_map
    (fun child =>
       if type_in (token_type child) symbol_types
       then hard_pruned_descendants symbol_types child
       else [replace_children child (hard_pruned_descendants symbol_types child)])
    (children tree).

Fixpoint soft_pruned_descendants (symbol_types : list IntEnum) (tree : Tree)
  : list Tree :=
  flat_map
    (fun child =>
       if type_in (token_type child) symbol_types then []
       else [replace_children child (soft_pruned_descendants symbol_types child)])
    (children tree).

(** Modelled from the spec: [parser.tree.prune_by_symbol_types] is missing
    from src/.  Spec 4.4, stage 3: a "hard" pruned node is removed but its
    children are spliced into its parent; a "soft" pruned node is removed
    with its entire subtree; the result is empty when the root itself is
    pruned. *)
Definition prune_by_symbol_types (tree : Tree) (symbol_types : list IntEnum)
    (prune_hard : bool) : option Tree :=
  if type_in (token_type tree) symbol_types then None
  else
    Some (replace_children tree
            (if prune_hard then hard_pruned_descendants symbol_types tree
             else soft_pruned_descendants symbol_types tree)).

Module Combinators.

(** The parser classes.  Every instance has the dataclass field
    [token_type] of the base class [Parser] ([None] unless a constructor or
    [parse_generic] sets it). *)
Inductive Parser : Type :=
| OrParser (token_type : option IntEnum) (children : list Parser)
| RepeatParser (token_type : option IntEnum) (child : Parser) (min_repeats : Z)
| OptionalParser (token_type : option IntEnum) (child : Parser)
| ConcatenationParser (token_type : option IntEnum) (children : list Parser)
| TerminalParser (token_type : option IntEnum)
| NonTerminalParser (token_type : option IntEnum)
| LiteralParser (token_type : option IntEnum) (literal : string).

(** [parser.token_type] *)
Definition token_type_of (p : Parser) : option IntEnum :=
  match p with
  | OrParser t _ | RepeatParser t _ _ | OptionalParser t _
  | ConcatenationParser t _ | TerminalParser t | NonTerminalParser t
  | LiteralParser t _ => t
  end.

(** [parser.token_type = t] *)
Definition with_token_type (p : Parser) (t : option IntEnum) : Parser :=
  match p with
  | OrParser _ cs => OrParser t cs
  | RepeatParser _ c m => RepeatParser t c m
  | OptionalParser _ c => OptionalParser t c
  | ConcatenationParser _ cs => ConcatenationParser t cs
  | TerminalParser _ => TerminalParser t
  | NonTerminalParser _ => NonTerminalParser t
  | LiteralParser _ l => LiteralParser t l
  end.

(** The exception classes the module imports from [parser.exceptions], with
    the arguments it constructs them with:
    [InternalParseError(token_offset, token_type)],
    [ParseError(line_number, column_number, line, expected)],
    [UnhandledSymbolType(symbol)], [UnexpectedSymbolType(symbols)]; and the
    built-in ones its statements can raise. *)
Inductive Exception : Type :=
| InternalParseError (token_offset : nat) (token_type : option IntEnum)
| ParseError (line_number column_number : Z) (line : string)
    (expected : list IntEnum)
| UnhandledSymbolType (symbol : IntEnum)
| UnexpectedSymbolType (unexpected_keys : list IntEnum)
| ValueError
| AssertionError
| IndexError
| KeyError.

Definition Result := Outcome Exception.

(** [assert x] for an [Optional[IntEnum]]: [None] and a member of value 0
    are falsy. *)
Definition assert_truthy (t : option IntEnum) : Result IntEnum :=
  match t with
  | Some k => if truthy k then Return k else Raise AssertionError
  | None => Raise AssertionError
  end.

(** [token.type != token_type] *)
Definition type_differs (a : IntEnum) (t : option IntEnum) : bool :=
  match t with
  | Some k => negb (enum_eqb a k)
  | None => true
  end.

Section Parse.
Variable tokens : list Token.
Variable non_terminal_rules : Dict Parser.

(** [child.parse(tokens, offset, non_terminal_rules)] of the callee, at the
    fuel that is left. *)
Variable parse : Parser -> nat -> Result Tree.

(** [OrParser.parse]: the loop over all children. *)
Fixpoint or_loop (children : list Parser) (offset : nat)
    (longest_parsed : option Tree) : Result (option Tree) :=
  match children with
  | [] => Return longest_parsed
  | child :: rest =>
      match parse child offset with
      | Return parsed =>
          match longest_parsed with
          | None => or_loop rest offset (Some parsed)
          | Some longest =>
              if token_count longest <? token_count parsed
              then or_loop rest offset (Some parsed)
              else or_loop rest offset (Some longest)
          end
      | Raise (InternalParseError _ _) => or_loop rest offset longest_parsed
      | Raise e => Raise e
      | OutOfFuel => OutOfFuel
      end
  end.

Definition OrParser_parse (token_type : option IntEnum) (children : list Parser)
    (offset : nat) : Result Tree :=
  longest_parsed <- or_loop children offset None ;;
  match longest_parsed with
  | None => Raise (InternalParseError offset token_type)
  | Some longest_parsed =>
      Return (mkTree (token_offset longest_parsed) (token_count longest_parsed)
                token_type [longest_parsed])
  end.

(** [RepeatParser.parse]: the [while True] loop, one unit of fuel a turn. *)
Fixpoint repeat_loop (fuel : nat) (child : Parser) (sub_trees : list Tree)
    (child_offset : nat) : Result (list Tree * nat) :=
  match fuel with
  | O => OutOfFuel
  | S fuel =>
      match parse child child_offset with
      | Return parsed =>
          repeat_loop fuel child (sub_trees ++ [parsed])
            (child_offset + token_count parsed)
      | Raise (InternalParseError _ _) => Return (sub_trees, child_offset)
      | Raise e => Raise e
      | OutOfFuel => OutOfFuel
      end
  end.

Definition RepeatParser_parse (fuel : nat) (token_type : option IntEnum)
    (child : Parser) (min_repeats : Z) (offset : nat) : Result Tree :=
  '(sub_trees, child_offset) <- repeat_loop fuel child [] offset ;;
  if (Z.of_nat (len sub_trees) <? min_repeats)%Z then
    Raise (InternalParseError offset (token_type_of child))
  else Return (mkTree offset (child_offset - offset) token_type sub_trees).

Definition OptionalParser_parse (token_type : option IntEnum) (child : Parser)
    (offset : nat) : Result Tree :=
  match parse child offset with
  | Return parsed => Return (mkTree offset (token_count parsed) token_type [parsed])
  | Raise (InternalParseError _ _) => Return (mkTree offset 0 token_type [])
  | Raise e => Raise e
  | OutOfFuel => OutOfFuel
  end.

Fixpoint concatenation_loop (children : list Parser) (sub_trees : list Tree)
    (child_offset : nat) : Result (list Tree * nat) :=
  match children with
  | [] => Return (sub_trees, child_offset)
  | child :: rest =>
      parsed <- parse child child_offset ;;
      concatenation_loop rest (sub_trees ++ [parsed])
        (child_offset + token_count parsed)
  end.

Definition ConcatenationParser_parse (token_type : option IntEnum)
    (children : list Parser) (offset : nat) : Result Tree :=
  '(sub_trees, child_offset) <- concatenation_loop children [] offset ;;
  Return (mkTree offset (child_offset - offset) token_type sub_trees).

Definition TerminalParser_parse (token_type : option IntEnum) (offset : nat)
  : Result Tree :=
  match nth_error tokens offset with
  | None => Raise IndexError
  | Some token =>
      if type_differs (type token) token_type then
        Raise (InternalParseError offset token_type)
      else
        _ <- assert_truthy token_type ;;
        Return (mkTree offset 1 token_type [])
  end.

Definition NonTerminalParser_parse (token_type : option IntEnum) (offset : nat)
  : Result Tree :=
  k <- assert_truthy token_type ;;
  match dict_get non_terminal_rules k with
  | None => Raise KeyError
  | Some rule => parse rule offset
  end.

(** [LiteralParser.parse]: the literal the instance holds is not read. *)
Definition LiteralParser_parse (literal : string) (offset : nat) : Result Tree :=
  match keys non_terminal_rules with
  | [] => Raise IndexError
  | first_key :: _ =>
      let non_terminal_enum := enum_type first_key in
      match enum_getitem non_terminal_enum "internal_NON_TERMINAL_LITERAL" with
      | None => Raise KeyError
      | Some non_terminal_literal_enum_entry =>
          match dict_get non_terminal_rules non_terminal_literal_enum_entry with
          | None => Raise KeyError
          | Some rule => parse rule offset
          end
      end
  end.
End Parse.

(** [parser.parse(tokens, offset, non_terminal_rules)], by the class of
    [parser]. *)
Fixpoint parse (fuel : nat) (tokens : list Token)
    (non_terminal_rules : Dict Parser) (parser : Parser) (offset : nat)
  : Result Tree :=
  match fuel with
  | O => OutOfFuel
  | S fuel =>
      let callee := parse fuel tokens non_terminal_rules in
      match parser with
      | OrParser token_type children =>
          OrParser_parse callee token_type children offset
      | RepeatParser token_type child min_repeats =>
          RepeatParser_parse callee fuel token_type child min_repeats offset
      | OptionalParser token_type child =>
          OptionalParser_parse callee token_type child offset
      | ConcatenationParser token_type children =>
          ConcatenationParser_parse callee token_type children offset
      | TerminalParser token_type =>
          TerminalParser_parse tokens token_type offset
      | NonTerminalParser token_type =>
          NonTerminalParser_parse non_terminal_rules callee token_type offset
      | LiteralParser _ literal =>
          LiteralParser_parse non_terminal_rules callee literal offset
      end
  end.

(** ** RegexTokenizer

    The compiled pattern [re.compile("^" + regex)] is the function
    [regex_match]: the text of [match.group(0)] for a subject the pattern
    matches at its start, [None] otherwise. *)
Record RegexTokenizer : Type := { regex_match : string -> option string }.

Definition RegexTokenizer_tokenize (self : RegexTokenizer) (code : string)
    (offset : nat) : option nat :=
  match regex_match self (str_from offset code) with
  | None => None
  | Some group0 =>
      let match_length := String.length group0 in
      if match_length =? 0 then None else Some match_length
  end.

Section Tokenize.
Variable code : string.
Variable terminal_rules : list (IntEnum * RegexTokenizer).
Variable pruned_terminals : list IntEnum.

(** The [for token_type, tokenizer in terminal_rules] loop of one turn:
    the first rule that matches moves the offset; no match leaves the
    state as it was. *)
Fixpoint rules_loop (rules : list (IntEnum * RegexTokenizer))
    (tokens : list Token) (offset : nat) : list Token * nat :=
  match rules with
  | [] => (tokens, offset)
  | (token_type, tokenizer) :: rest =>
      match RegexTokenizer_tokenize tokenizer code offset with
      | Some token_length =>
          (if negb (enum_in token_type pruned_terminals)
           then tokens ++ [mkToken token_type offset token_length]
           else tokens,
           offset + token_length)
      | None => rules_loop rest tokens offset
      end
  end.

(** The [while offset < len(code)] loop. *)
Fixpoint tokenize_loop (fuel : nat) (tokens : list Token) (offset : nat)
  : Result (list Token) :=
  match fuel with
  | O => OutOfFuel
  | S fuel =>
      if offset <? String.length code then
        let '(tokens, offset) := rules_loop terminal_rules tokens offset in
        tokenize_loop fuel tokens offset
      else Return tokens
  end.

Definition tokenize (fuel : nat) : Result (list Token) :=
  tokenize_loop fuel [] 0.
End Tokenize.

(** [humanize_parse_error(code, tokens, e)] for
    [e = InternalParseError(token_offset, _)]. *)
Definition humanize_parse_error (code : string) (tokens : list Token)
    (token_offset : nat) : Result Exception :=
  match nth_error tokens token_offset with
  | None => Raise IndexError
  | Some token =>
      let offset := offset token in
      let before_offset := str_upto offset code in
      let line_number := (1 + Z.of_nat (count_newlines before_offset))%Z in
      let prev_newline := rfind_newline before_offset in
      let next_newline := find_newline code offset in
      let next_newline :=
        if (next_newline =? -1)%Z then Z.of_nat (String.length code)
        else next_newline in
      let column_number := (Z.of_nat offset - prev_newline)%Z in
      let line :=
        str_slice (Z.to_nat (prev_newline + 1)) (Z.to_nat next_newline) code in
      Return (ParseError line_number column_number line [])
  end.

Definition _check_non_terminal_rules (non_terminal_rules : Dict Parser)
  : Result EnumType :=
  match keys non_terminal_rules with
  | [] => Raise IndexError
  | first_key :: _ =>
      let symbols_enum := enum_type first_key in
      match find (fun enum_value =>
                    match dict_get non_terminal_rules enum_value with
                    | None => true
                    | Some _ => false
                    end) (enum_iter symbols_enum) with
      | Some enum_value => Raise (UnhandledSymbolType enum_value)
      | None =>
          let unexpected_keys :=
            set_difference (keys non_terminal_rules) (enum_iter symbols_enum) in
          if negb (len unexpected_keys =? 0)
             || negb (len (set_difference (enum_iter symbols_enum)
                             (keys non_terminal_rules)) =? 0)
          then Raise (UnexpectedSymbolType unexpected_keys)
          else if has_member symbols_enum "ROOT" then Return symbols_enum
          else Raise ValueError
      end
  end.

(** [tree.token_type = root_symbol] changes the parser object the rule
    table holds: the entry is replaced, and later lookups of the root see
    the change. *)
Definition dict_set {A} (d : Dict A) (key : IntEnum) (v : A) : Dict A :=
  map (fun kv => if enum_eqb (fst kv) key then (fst kv, v) else kv) d.

Definition is_NonTerminalParser (p : Parser) : bool :=
  match p with
  | NonTerminalParser _ => true
  | _ => false
  end.

(** [x = f(...); assert x] for an [Optional[Tree]] *)
Definition assert_tree (x : option Tree) : Result Tree :=
  match x with
  | Some t => Return t
  | None => Raise AssertionError
  end.

(** The pruning lines that end [parse_generic]. *)
Definition prune_pipeline (prune_hard_symbols prune_soft_symbols : option (list IntEnum))
    (parsed : Tree) : Result Tree :=
  parsed <- assert_tree (prune_no_symbol parsed) ;;
  parsed <- assert_tree (prune_zero_length parsed) ;;
  parsed <- match prune_hard_symbols with
            | Some symbols => assert_tree (prune_by_symbol_types parsed symbols true)
            | None => Return parsed
            end ;;
  parsed <- match prune_soft_symbols with
            | Some symbols => assert_tree (prune_by_symbol_types parsed symbols false)
            | None => Return parsed
            end ;;
  Return parsed.

(** [parse_generic].  The [try] block holds the root parse and the
    completion check; [assert parsed] on a [Tree] never fails. *)
Definition parse_generic (fuel : nat) (non_terminal_rules : Dict Parser)
    (tokens : list Token) (code : string)
    (prune_hard_symbols prune_soft_symbols : option (list IntEnum))
    (root_token : string) : Result Tree :=
  non_terminals_enum <- _check_non_terminal_rules non_terminal_rules ;;
  match enum_getitem non_terminals_enum root_token with
  | None => Raise KeyError
  | Some root_symbol =>
      match dict_get non_terminal_rules root_symbol with
      | None => Raise KeyError
      | Some tree =>
          let tree :=
            if negb (is_NonTerminalParser tree)
            then with_token_type tree (Some root_symbol) else tree in
          let non_terminal_rules := dict_set non_terminal_rules root_symbol tree in
          match
            (parsed <- parse fuel tokens non_terminal_rules tree 0 ;;
             let parsed := set_token_type parsed (Some root_symbol) in
             if negb (token_count parsed =? String.length code) then
               Raise (InternalParseError (token_count parsed) None)
             else Return parsed)
          with
          | Raise (InternalParseError token_offset _) =>
              e <- humanize_parse_error code tokens token_offset ;;
              Raise e
          | Raise e => Raise e
          | OutOfFuel => OutOfFuel
          | Return parsed =>
              prune_pipeline prune_hard_symbols prune_soft_symbols parsed
          end
      end
  end.

End Combinators.

(** * Sample grammars

    The enumeration [{ROOT, NUMBER, PLUS}] with the rule
    [ROOT = NUMBER (PLUS NUMBER)*], and a second enumeration whose first
    member has value 0. *)

Module Sample.

Definition Symbols : EnumType :=
  {| members := [("ROOT"%string, 1%Z); ("NUMBER"%string, 2%Z); ("PLUS"%string, 3%Z)] |}.

Definition ROOT : IntEnum := {| enum_type := Symbols; name := "ROOT"; value := 1 |}.
Definition NUMBER : IntEnum := {| enum_type := Symbols; name := "NUMBER"; value := 2 |}.
Definition PLUS : IntEnum := {| enum_type := Symbols; name := "PLUS"; value := 3 |}.

Definition ZeroBased : EnumType :=
  {| members := [("ZERO"%string, 0%Z); ("ROOT"%string, 1%Z)] |}.

Definition ZERO : IntEnum := {| enum_type := ZeroBased; name := "ZERO"; value := 0 |}.

(** A member of another enumeration, of a value [Symbols] does not use. *)
Definition Other : EnumType := {| members := [("EXTRA"%string, 7%Z)] |}.
Definition EXTRA : IntEnum := {| enum_type := Other; name := "EXTRA"; value := 7 |}.

(** The tokens of ["3+4"]. *)
Definition tokens_3_plus_4 : list Token :=
  [mkToken NUMBER 0 1; mkToken PLUS 1 1; mkToken NUMBER 2 1].

Definition engine_rules : Dict Engine.Expression :=
  [(ROOT,
    Engine.ConcatenationExpression
      [Engine.TerminalExpression NUMBER;
       Engine.RepeatExpression
         (Engine.ConcatenationExpression
            [Engine.TerminalExpression PLUS; Engine.TerminalExpression NUMBER])]);
   (NUMBER, Engine.TerminalExpression NUMBER);
   (PLUS, Engine.TerminalExpression PLUS)].

Definition engine_parser (tokens : list Token) (rules : Dict Engine.Expression)
  : Engine.Parser :=
  {| Engine.filename := "sample";
     Engine.code := "3+4";
     Engine.tokens := tokens;
     Engine.non_terminal_rules := rules;
     Engine.pruned_non_terminals := [];
     Engine.root_token := "ROOT" |}.

Definition combinator_rules : Dict Combinators.Parser :=
  [(ROOT,
    Combinators.ConcatenationParser None
      [Combinators.TerminalParser (Some NUMBER);
       Combinators.TerminalParser (Some PLUS);
       Combinators.TerminalParser (Some NUMBER)]);
   (NUMBER, Combinators.TerminalParser (Some NUMBER));
   (PLUS, Combinators.TerminalParser (Some PLUS))].

End Sample.

(** * Specification predicates *)

(** Every member of the enumeration has a rule-table entry. *)
Definition every_member_has_entry (E : EnumType) (ks : list IntEnum) : Prop :=
  forall m, In m (enum_iter E) -> enum_in m ks = true.

(** No rule-table entry lies outside the enumeration. *)
Definition no_extra_entries (E : EnumType) (ks : list IntEnum) : Prop :=
  forall k, In k ks -> enum_in k (enum_iter E) = true.

(** [g] agrees with [f] wherever [f] gives a result: [g] is [f] with more
    fuel. *)
Definition extends {X E A} (f g : X -> nat -> Outcome E A) : Prop :=
  forall x off, f x off <> OutOfFuel -> g x off = f x off.

(** A rule table whose enumeration has the member
    [internal_NON_TERMINAL_LITERAL]. *)
Module SampleLiteral.

Definition Symbols : EnumType :=
  {| members := [("ROOT"%string, 1%Z);
                 ("internal_NON_TERMINAL_LITERAL"%string, 2%Z);
                 ("QUOTED"%string, 3%Z)] |}.

Definition ROOT : IntEnum := {| enum_type := Symbols; name := "ROOT"; value := 1 |}.
Definition LITERAL : IntEnum :=
  {| enum_type := Symbols; name := "internal_NON_TERMINAL_LITERAL"; value := 2 |}.
Definition QUOTED : IntEnum := {| enum_type := Symbols; name := "QUOTED"; value := 3 |}.

Definition rules : Dict Combinators.Parser :=
  [(ROOT, Combinators.LiteralParser None "(");
   (LITERAL, Combinators.TerminalParser (Some QUOTED));
   (QUOTED, Combinators.TerminalParser (Some QUOTED))].

Definition tokens : list Token := [mkToken QUOTED 0 1].

End SampleLiteral.

(** The callee never fails with an [IndexError]. *)
Definition no_index_error (f : Engine.Expression -> nat -> Engine.Result Tree)
  : Prop :=
  forall expr off, f expr off <> Raise Engine.IndexError.

(** A call of a combinator parser that came back with a tree or with an
    [InternalParseError]. *)
Definition parsed_or_failed (r : Combinators.Result Tree) : Prop :=
  match r with
  | Return _ => True
  | Raise (Combinators.InternalParseError _ _) => True
  | _ => False
  end.

(** A call of the engine that raised a [ParseError]. *)
Definition parse_error (r : Engine.Result Tree) : Prop :=
  match r with
  | Raise (Engine.ParseError _ _ _) => True
  | _ => False
  end.

(** The alternatives used to compare the two alternation policies on the
    tokens of ["3+4"]: a one-token match declared before a three-token
    match. *)
Definition short_alternative : Engine.Expression :=
  Engine.TerminalExpression Sample.NUMBER.

Definition long_alternative : Engine.Expression :=
  Engine.ConcatenationExpression
    [Engine.TerminalExpression Sample.NUMBER;
     Engine.TerminalExpression Sample.PLUS;
     Engine.TerminalExpression Sample.NUMBER].

(** The engine on the tokens of ["3+4"] with the sample rule table. *)
Definition sample_engine : Engine.Parser :=
  Sample.engine_parser Sample.tokens_3_plus_4 Sample.engine_rules.

(** ** Tree invariants *)

(** The spans of [ts] follow one another from token offset [start]. *)
Fixpoint contiguous (start : nat) (ts : list Tree) : Prop :=
  match ts with
  | [] => True
  | t :: rest => token_offset t = start /\ contiguous (start + token_count t) rest
  end.

Definition sum_token_counts (ts : list Tree) : nat :=
  list_sum (map token_count ts).

(** A node with children spans exactly its children. *)
Definition node_invariant (t : Tree) : Prop :=
  children t <> [] ->
  contiguous (token_offset t) (children t) /\
  token_count t = sum_token_counts (children t).

(** The node itself and all its descendants, in tree order. *)
Fixpoint subtrees (t : Tree) : list Tree :=
  t :: flat_map subtrees (children t).

(** The span of [inner] lies within the span of [outer]. *)
Definition span_within (inner outer : Tree) : Prop :=
  token_offset outer <= token_offset inner /\
  token_offset inner + token_count inner <= token_offset outer + token_count outer.

Inductive well_formed : Tree -> Prop :=
| well_formed_node (t : Tree) :
    node_invariant t -> Forall well_formed (children t) -> well_formed t.

(** What a parse at [off] over [n] tokens returns: a well-formed tree that
    starts at [off] and, unless empty, ends within the tokens. *)
Definition parsed_at (n off : nat) (t : Tree) : Prop :=
  token_offset t = off /\ well_formed t /\
  (token_count t = 0 \/ off + token_count t <= n).

Definition callee_parsed_at {X E} (n : nat) (f : X -> nat -> Outcome E Tree)
  : Prop :=
  forall x off t, f x off = Return t -> parsed_at n off t.

(** The state of a loop that collects [sub_trees] from [start] and stands
    at [child_offset]. *)
Definition collected (n start : nat) (sub_trees : list Tree) (child_offset : nat)
  : Prop :=
  contiguous start sub_trees /\
  child_offset = start + sum_token_counts sub_trees /\
  Forall well_formed sub_trees /\
  (child_offset = start \/ child_offset <= n).

(** The tree of the three-token alternative on the tokens of ["3+4"]. *)
Definition tree_3_plus_4 : Tree :=
  mkTree 0 3 None
    [mkTree 0 1 (Some Sample.NUMBER) [];
     mkTree 1 1 (Some Sample.PLUS) [];
     mkTree 2 1 (Some Sample.NUMBER) []].

(** Repetitions whose child can match no token. *)
Definition repeat_of_optional : Engine.Expression :=
  Engine.RepeatExpression
    (Engine.OptionalExpression (Engine.TerminalExpression Sample.PLUS)).

Definition repeat_of_repeat : Engine.Expression :=
  Engine.RepeatExpression
    (Engine.RepeatExpression (Engine.TerminalExpression Sample.NUMBER)).

Definition RepeatParser_of_optional (min_repeats : Z) : Combinators.Parser :=
  Combinators.RepeatParser None
    (Combinators.OptionalParser None
       (Combinators.TerminalParser (Some Sample.PLUS)))
    min_repeats.

(** The engine on the single token of ["3"]. *)
Definition engine_on_3 : Engine.Parser :=
  Sample.engine_parser [mkToken Sample.NUMBER 0 1] Sample.engine_rules.

(** ** The tokenizer's scan *)

(** The compiled pattern of a literal text: it matches a subject that
    starts with the text, and the match is the text. *)
Definition literal_regex (text : string) : Combinators.RegexTokenizer :=
  {| Combinators.regex_match :=
       fun subject => if String.prefix text subject then Some text else None |}.

(** The states [(tokens, offset)] the [while] loop of [tokenize] goes
    through. *)
Inductive scan_reaches (code : string)
    (terminal_rules : list (IntEnum * Combinators.RegexTokenizer))
    (pruned_terminals : list IntEnum) : list Token -> nat -> Prop :=
| scan_start : scan_reaches code terminal_rules pruned_terminals [] 0
| scan_turn (tokens : list Token) (offset : nat) (tokens' : list Token)
    (offset' : nat) :
    scan_reaches code terminal_rules pruned_terminals tokens offset ->
    offset < String.length code ->
    Combinators.rules_loop code pruned_terminals terminal_rules tokens offset
      = (tokens', offset') ->
    scan_reaches code terminal_rules pruned_terminals tokens' offset'.

(** No rule's pattern matches a non-empty prefix of [code[offset:]]. *)
Definition no_rule_matches (code : string)
    (terminal_rules : list (IntEnum * Combinators.RegexTokenizer))
    (offset : nat) : Prop :=
  forall token_type tokenizer,
    In (token_type, tokenizer) terminal_rules ->
    Combinators.RegexTokenizer_tokenize tokenizer code offset = None.

(** ** Pruning *)

(** What pruning keeps of a node: its span and its symbol type. *)
Definition header (t : Tree) : nat * nat * option IntEnum :=
  (token_offset t, token_count t, token_type t).

(** The headers of a tree's nodes, in tree order. *)
Definition labels (t : Tree) : list (nat * nat * option IntEnum) :=
  map header (subtrees t).

(** All nodes below the root, in tree order. *)
Definition descendants (t : Tree) : list Tree :=
  flat_map subtrees (children t).

(** [l1] is [l2] with some elements left out, the others in their order. *)
Inductive subsequence {A : Type} : list A -> list A -> Prop :=
| subsequence_nil : subsequence [] []
| subsequence_skip (x : A) (l1 l2 : list A) :
    subsequence l1 l2 -> subsequence l1 (x :: l2)
| subsequence_keep (x : A) (l1 l2 : list A) :
    subsequence l1 l2 -> subsequence (x :: l1) (x :: l2).

(** The two ways a stage takes nodes out: [splice] puts the children of a
    dropped node in its place, [remove] drops the node with its subtree.
    The stage functions of both pipelines are instances
    ([splice_untagged_engine] and the lemmas after it). *)
Fixpoint splice (drop : Tree -> bool) (tree : Tree) : list Tree :=
  flat_map
    (fun child =>
       if drop child then splice drop child
       else [replace_children child (splice drop child)])
    (children tree).

Fixpoint remove (drop : Tree -> bool) (tree : Tree) : list Tree :=
  flat_map
    (fun child =>
       if drop child then []
       else [replace_children child (remove drop child)])
    (children tree).

Definition untagged (t : Tree) : bool :=
  match token_type t with
  | None => true
  | Some _ => false
  end.

Definition zero_length (t : Tree) : bool := token_count t =? 0.

Definition has_type_in (token_types : list IntEnum) (t : Tree) : bool :=
  type_in (token_type t) token_types.

(** [p] reads the header of a node only. *)
Definition header_only (p : Tree -> bool) : Prop :=
  forall t cs, p (replace_children t cs) = p t.

(** No node below the root satisfies [p]. *)
Definition clean (p : Tree -> bool) (t : Tree) : Prop :=
  Forall (fun d => p d = false) (descendants t).

(** The targeted sets of [parse_generic], when given. *)
Definition clean_of (symbols : option (list IntEnum)) (t : Tree) : Prop :=
  match symbols with
  | Some token_types => clean (has_type_in token_types) t
  | None => True
  end.

(** A tree to prune: an untagged wrapper, an empty optional and a [PLUS]
    below the [ROOT] node of ["3+4"]. *)
Definition raw_tree_3_plus_4 : Tree :=
  mkTree 0 3 (Some Sample.ROOT)
    [mkTree 0 3 None
       [mkTree 0 1 (Some Sample.NUMBER) [];
        mkTree 1 0 (Some Sample.NUMBER) [];
        mkTree 1 1 (Some Sample.PLUS) [];
        mkTree 2 1 (Some Sample.NUMBER) []]].

(** A stage as a function on trees: the root stays, the nodes below it are
    spliced or removed. *)
Definition splice_stage (drop : Tree -> bool) (t : Tree) : Tree :=
  replace_children t (splice drop t).

Definition remove_stage (drop : Tree -> bool) (t : Tree) : Tree :=
  replace_children t (remove drop t).

(** The root of [t] is not of a targeted symbol type. *)
Definition root_kept (symbols : option (list IntEnum)) (t : Tree) : Prop :=
  match symbols with
  | Some token_types => has_type_in token_types t = false
  | None => True
  end.

(** A tree the pipeline of [parse_generic] has nothing to do on. *)
Definition fully_pruned (hard soft : option (list IntEnum)) (t : Tree) : Prop :=
  untagged t = false /\ zero_length t = false /\
  root_kept hard t /\ root_kept soft t /\
  clean untagged t /\ clean zero_length t /\
  clean_of hard t /\ clean_of soft t.

(** ** Tokens of a scan *)

(** The token [t] ends before [t'] starts. *)
Definition token_before (t t' : Token) : Prop :=
  offset t + length t <= offset t'.

(** The rule that gave [t]: the first rule of the list whose pattern
    matches a non-empty prefix at the offset of [t], with the length of
    [t]. *)
Definition first_matching_rule (code : string)
    (terminal_rules : list (IntEnum * Combinators.RegexTokenizer)) (t : Token)
  : Prop :=
  exists before tokenizer after,
    terminal_rules = before ++ (type t, tokenizer) :: after /\
    (forall token_type tokenizer',
        In (token_type, tokenizer') before ->
        Combinators.RegexTokenizer_tokenize tokenizer' code (offset t) = None) /\
    Combinators.RegexTokenizer_tokenize tokenizer code (offset t)
      = Some (length t).

Definition sum_lengths (tokens : list Token) : nat :=
  list_sum (map length tokens).

(** Rules for the text ["3+4"], one literal each. *)
Definition literal_rules : list (IntEnum * Combinators.RegexTokenizer) :=
  [(Sample.NUMBER, literal_regex "3");
   (Sample.PLUS, literal_regex "+");
   (Sample.NUMBER, literal_regex "4")].

(** ** What the engine raises *)

(** An exception [_parse] may raise from [offset] over [n] tokens: a
    [KeyError] of the rule table, or the parser's [ParseError] at a token
    index between [offset] and the end of the tokens. *)
Definition engine_failure (self : Engine.Parser) (offset : nat)
    (e : Engine.Exception) : Prop :=
  e = Engine.KeyError \/
  exists o,
    e = Engine.ParseError (Engine.filename self) (Engine.code self) o /\
    offset <= o /\ o <= Nat.max offset (len (Engine.tokens self)).

(** Every non-terminal the expression refers to has a rule. *)
Fixpoint defined_in (rules : Dict Engine.Expression) (expr : Engine.Expression)
  : bool :=
  match expr with
  | Engine.ConcatenationExpression children
  | Engine.ConjunctionExpression children => forallb (defined_in rules) children
  | Engine.NonTerminalExpression token_type => enum_in token_type (keys rules)
  | Engine.OptionalExpression child
  | Engine.RepeatExpression child => defined_in rules child
  | Engine.TerminalExpression _ => true
  end.

(** Every rule of the table refers to rules of the table only. *)
Definition closed_grammar (rules : Dict Engine.Expression) : bool :=
  forallb (fun kv => defined_in rules (snd kv)) rules.

(** The sequences of token types an expression stands for, read as a
    grammar over the rule table: a terminal is one token of its type, a
    non-terminal is its rule, a concatenation is its children one after
    the other, a conjunction is any one of its children, an optional is
    its child or nothing, a repetition is its child any number of times. *)
Inductive derives (rules : Dict Engine.Expression)
  : Engine.Expression -> list IntEnum -> Prop :=
| derives_terminal token_type k :
    enum_eqb k token_type = true ->
    derives rules (Engine.TerminalExpression token_type) [k]
| derives_non_terminal token_type expansion w :
    dict_get rules token_type = Some expansion ->
    derives rules expansion w ->
    derives rules (Engine.NonTerminalExpression token_type) w
| derives_concatenation_nil :
    derives rules (Engine.ConcatenationExpression []) []
| derives_concatenation_cons child rest w1 w2 :
    derives rules child w1 ->
    derives rules (Engine.ConcatenationExpression rest) w2 ->
    derives rules (Engine.ConcatenationExpression (child :: rest)) (w1 ++ w2)
| derives_conjunction child children w :
    In child children ->
    derives rules child w ->
    derives rules (Engine.ConjunctionExpression children) w
| derives_optional_none child :
    derives rules (Engine.OptionalExpression child) []
| derives_optional_some child w :
    derives rules child w ->
    derives rules (Engine.OptionalExpression child) w
| derives_repeat_nil child :
    derives rules (Engine.RepeatExpression child) []
| derives_repeat_cons child w1 w2 :
    derives rules child w1 ->
    derives rules (Engine.RepeatExpression child) w2 ->
    derives rules (Engine.RepeatExpression child) (w1 ++ w2).

(** The types of the [count] tokens from [start]. *)
Definition token_types_at (tokens : list Token) (start count : nat)
  : list IntEnum :=
  map type (firstn count (skipn start tokens)).

(** The tokens from [start] up to [stop] are a sequence the grammar of
    the parser derives from [expr]. *)
Definition accepted (self : Engine.Parser) (expr : Engine.Expression)
    (start stop : nat) : Prop :=
  start <= stop /\
  derives (Engine.non_terminal_rules self) expr
    (token_types_at (Engine.tokens self) start (stop - start)).

(** The headers the engine's pruning keeps below the root: those with a
    symbol type that is not in [pruned_non_terminals]. *)
Definition kept_by_prune (pruned_non_terminals : list IntEnum)
    (h : nat * nat * option IntEnum) : bool :=
  match snd h with
  | Some k => negb (enum_in k pruned_non_terminals)
  | None => false
  end.

(** A parser with [PLUS] among its [pruned_non_terminals]. *)
Definition sample_pruning_engine : Engine.Parser :=
  {| Engine.filename := "sample";
     Engine.code := "3+4";
     Engine.tokens := Sample.tokens_3_plus_4;
     Engine.non_terminal_rules := Sample.engine_rules;
     Engine.pruned_non_terminals := [Sample.PLUS];
     Engine.root_token := "ROOT" |}.

(** The first thing [parser.parse] does, whatever the tokens, is to have a
    [TerminalParser] read [tokens[offset]]: the parser is a terminal, or
    the first child of a concatenation or an alternation, or the child of
    a repetition or an optional, is such a parser. *)
Fixpoint starts_with_terminal (parser : Combinators.Parser) : bool :=
  match parser with
  | Combinators.OrParser _ (child :: _) => starts_with_terminal child
  | Combinators.ConcatenationParser _ (child :: _) => starts_with_terminal child
  | Combinators.RepeatParser _ child _ => starts_with_terminal child
  | Combinators.OptionalParser _ child => starts_with_terminal child
  | Combinators.TerminalParser _ => true
  | _ => false
  end.

(** The number of parsers from [parser] down to that terminal. *)
Fixpoint leftmost_depth (parser : Combinators.Parser) : nat :=
  match parser with
  | Combinators.OrParser _ (child :: _) => S (leftmost_depth child)
  | Combinators.ConcatenationParser _ (child :: _) => S (leftmost_depth child)
  | Combinators.RepeatParser _ child _ => S (leftmost_depth child)
  | Combinators.OptionalParser _ child => S (leftmost_depth child)
  | _ => 0
  end.

(** The sequences of token types a parser of [src/parser/parser.py] stands
    for, read as a grammar over the rule table; a repetition is its child
    at least [min_repeats] times, a literal is the rule of
    [internal_NON_TERMINAL_LITERAL]. *)
Inductive parser_derives (rules : Dict Combinators.Parser)
  : Combinators.Parser -> list IntEnum -> Prop :=
| parser_derives_terminal token_type k :
    enum_eqb k token_type = true ->
    parser_derives rules (Combinators.TerminalParser (Some token_type)) [k]
| parser_derives_non_terminal token_type rule w :
    dict_get rules token_type = Some rule ->
    parser_derives rules rule w ->
    parser_derives rules (Combinators.NonTerminalParser (Some token_type)) w
| parser_derives_literal token_type literal first_key other_keys entry rule w :
    keys rules = first_key :: other_keys ->
    enum_getitem (enum_type first_key) "internal_NON_TERMINAL_LITERAL"
      = Some entry ->
    dict_get rules entry = Some rule ->
    parser_derives rules rule w ->
    parser_derives rules (Combinators.LiteralParser token_type literal) w
| parser_derives_concatenation_nil token_type :
    parser_derives rules (Combinators.ConcatenationParser token_type []) []
| parser_derives_concatenation_cons token_type child rest w1 w2 :
    parser_derives rules child w1 ->
    parser_derives rules (Combinators.ConcatenationParser token_type rest) w2 ->
    parser_derives rules
      (Combinators.ConcatenationParser token_type (child :: rest)) (w1 ++ w2)
| parser_derives_or token_type child children w :
    In child children ->
    parser_derives rules child w ->
    parser_derives rules (Combinators.OrParser token_type children) w
| parser_derives_optional_none token_type child :
    parser_derives rules (Combinators.OptionalParser token_type child) []
| parser_derives_optional_some token_type child w :
    parser_derives rules child w ->
    parser_derives rules (Combinators.OptionalParser token_type child) w
| parser_derives_repeat token_type child min_repeats ws :
    Forall (parser_derives rules child) ws ->
    (min_repeats <= Z.of_nat (len ws))%Z ->
    parser_derives rules
      (Combinators.RepeatParser token_type child min_repeats) (List.concat ws).

(** The tokens from [start] up to [stop] are a sequence the rule table
    derives from [parser]. *)
Definition parser_accepted (tokens : list Token)
    (rules : Dict Combinators.Parser) (parser : Combinators.Parser)
    (start stop : nat) : Prop :=
  start <= stop /\
  parser_derives rules parser (token_types_at tokens start (stop - start)).

(** ** Lines of a text *)

Definition no_newline (l : list ascii) : Prop :=
  Forall (fun c => Ascii.eqb c newline = false) l.

(** [l] is empty or ends with a newline: what follows [l] starts a line. *)
Definition at_line_start (l : list ascii) : Prop :=
  l = [] \/ exists p, l = p ++ [newline].

(** [l] is empty or starts with a newline: what precedes [l] ends a line. *)
Definition at_line_end (l : list ascii) : Prop :=
  l = [] \/ exists p, l = newline :: p.

(** The number of complete lines in [l]. *)
Definition newlines_in (l : list ascii) : nat :=
  len (filter (Ascii.eqb newline) l).

(** An error at the [+] of the second line of a text. *)
Definition sample_error : BaseParseError.BaseParseError :=
  {| BaseParseError.filename := "sample";
     BaseParseError.code := String "1" (String newline
                              (String "3" (String "+" (String newline
                                 (String "4" EmptyString)))));
     BaseParseError.offset := 3 |}.

(** ** Escaped texts *)

Definition no_backslash (s : string) : Prop :=
  Forall (fun c => Ascii.eqb c Grammar.backslash = false)
    (list_ascii_of_string s).

Definition forall_bool (p : bool -> bool) : bool := p true && p false.

(** [p] holds of all 256 characters. *)
Definition forall_ascii (p : ascii -> bool) : bool :=
  forall_bool (fun b0 => forall_bool (fun b1 => forall_bool (fun b2 =>
  forall_bool (fun b3 => forall_bool (fun b4 => forall_bool (fun b5 =>
  forall_bool (fun b6 => forall_bool (fun b7 =>
    p (Ascii b0 b1 b2 b3 b4 b5 b6 b7))))))))).

Fixpoint chars_eqb (a b : list ascii) : bool :=
  match a, b with
  | [], [] => true
  | x :: a', y :: b' => Ascii.eqb x y && chars_eqb a' b'
  | _, _ => false
  end.

(** What one character of a text has become in the escaped text: itself,
    or a backslash and a character that is not a backslash. *)
Definition valid_unit (u : list ascii) : bool :=
  match u with
  | [x] => negb (Ascii.eqb x Grammar.backslash)
  | [x; y] => Ascii.eqb x Grammar.backslash && negb (Ascii.eqb y Grammar.backslash)
  | _ => false
  end.

(** [before] is a backslash and one more character. *)
Definition escape_pair (before : string) : bool :=
  match list_ascii_of_string before with
  | [x; _] => Ascii.eqb x Grammar.backslash
  | _ => false
  end.

(** One replacement of [unescape_string] on a unit. *)
Definition unescape_unit (u : list ascii) (step : string * string)
  : list ascii :=
  if chars_eqb u (list_ascii_of_string (snd step))
  then list_ascii_of_string (fst step) else u.

(** Before each of the replacements [steps], the units are valid. *)
Fixpoint units_ok (steps : list (string * string)) (h : ascii -> list ascii)
  : bool :=
  match steps with
  | [] => true
  | step :: rest =>
      escape_pair (snd step)
      && forall_ascii (fun x => Ascii.eqb x Grammar.backslash || valid_unit (h x))
      && units_ok rest (fun x => unescape_unit (h x) step)
  end.

Definition single_character (before : string) : bool :=
  match list_ascii_of_string before with
  | [_] => true
  | _ => false
  end.

(** The replacements of [escape_string] and of [unescape_string] on the
    characters of a text. *)
Definition escape_chars (l : list ascii) : list ascii :=
  fold_left
    (fun result (step : string * string) =>
       replace_from (list_ascii_of_string (fst step))
         (list_ascii_of_string (snd step)) 0 result)
    Grammar.ESCAPE_SEQUENCES l.

Definition unescape_chars (l : list ascii) : list ascii :=
  fold_left
    (fun result (step : string * string) =>
       replace_from (list_ascii_of_string (snd step))
         (list_ascii_of_string (fst step)) 0 result)
    Grammar.ESCAPE_SEQUENCES l.

(** An enumeration with an alias: [ROOT] is a second name of the value of
    [A]. *)
Definition alias_enum : EnumType :=
  {| members := [("A"%string, 1%Z); ("ROOT"%string, 1%Z); ("B"%string, 2%Z)] |}.

(** ** Left recursion *)

(** The first thing [_parse] does on [expr], before it reads a token, is
    to parse the non-terminal [k]: [expr] is that non-terminal, or the
    first child of a concatenation or a conjunction, or the child of an
    optional or a repetition, is such an expression. *)
Fixpoint starts_with_non_terminal (k : IntEnum) (expr : Engine.Expression)
  : bool :=
  match expr with
  | Engine.NonTerminalExpression token_type => enum_eqb token_type k
  | Engine.ConcatenationExpression (child :: _) =>
      starts_with_non_terminal k child
  | Engine.ConjunctionExpression (child :: _) =>
      starts_with_non_terminal k child
  | Engine.OptionalExpression child => starts_with_non_terminal k child
  | Engine.RepeatExpression child => starts_with_non_terminal k child
  | _ => false
  end.

(** A closed and complete rule table whose root rule is left-recursive. *)
Definition left_recursive_rules : Dict Engine.Expression :=
  [(Sample.ROOT,
    Engine.ConcatenationExpression
      [Engine.NonTerminalExpression Sample.ROOT;
       Engine.TerminalExpression Sample.PLUS]);
   (Sample.NUMBER, Engine.TerminalExpression Sample.NUMBER);
   (Sample.PLUS, Engine.TerminalExpression Sample.PLUS)].

(** * Properties *)

(** ** Sets as lists *)

Lemma enum_in_spec (k : IntEnum) (ks : list IntEnum) :
  enum_in k ks = true <-> exists k', In k' ks /\ value k = value k'.
Proof.
  unfold enum_in. rewrite existsb_exists. unfold enum_eqb.
  split; intros [k' [Hin Hv]]; exists k'; split; auto.
  - now apply Z.eqb_eq.
  - now apply Z.eqb_eq.
Qed.

Lemma set_difference_spec (a b : list IntEnum) (k : IntEnum) :
  In k (set_difference a b) <-> In k a /\ enum_in k b = false.
Proof.
  unfold set_difference. rewrite filter_In.
  now rewrite negb_true_iff.
Qed.

Lemma set_difference_nil (a b : list IntEnum) :
  set_difference a b = [] <-> forall k, In k a -> enum_in k b = true.
Proof.
  unfold set_difference. induction a as [|x a IH]; simpl.
  - split; [intros _ k [] | reflexivity].
  - destruct (enum_in x b) eqn:Hx; simpl.
    + rewrite IH. split.
      * intros H k [<- | Hk]; auto.
      * intros H k Hk. apply H. now right.
    + split; [discriminate|].
      intros H. specialize (H x (or_introl eq_refl)). congruence.
Qed.

Lemma len_eqb_0 {A} (l : list A) : (len l =? 0) = true <-> l = [].
Proof.
  destruct l; simpl; split; intros H; auto; discriminate.
Qed.

(** ** Rule-table validation *)

Lemma has_member_getitem (E : EnumType) (n : string) :
  has_member E n = true <-> exists k, enum_getitem E n = Some k.
Proof.
  unfold has_member, enum_getitem.
  destruct (find _ (members E)) as [nv|] eqn:Hf.
  - apply find_some in Hf. split.
    + intros _.
      destruct (find (fun m => Z.eqb (snd m) (snd nv)) (members E))
        as [m|] eqn:Hm; [eauto|].
      pose proof (find_none _ _ Hm nv (proj1 Hf)) as Hnone.
      cbv beta in Hnone. rewrite Z.eqb_refl in Hnone. discriminate.
    + intros _. apply existsb_exists. exists nv. exact Hf.
  - split; [|intros [k Hk]; discriminate].
    intros H. apply existsb_exists in H. destruct H as [nv [Hin Hn]].
    apply (find_none _ _ Hf) in Hin. congruence.
Qed.



Lemma dict_get_None {A} (d : Dict A) (k : IntEnum) :
  dict_get d k = None <-> enum_in k (keys d) = false.
Proof.
  unfold dict_get, enum_in, keys.
  induction d as [|[k' v] d IH]; simpl.
  - tauto.
  - unfold enum_eqb at 1 3. simpl. rewrite (Z.eqb_sym (value k)).
    destruct (value k' =? value k)%Z; simpl.
    + split; discriminate.
    + exact IH.
Qed.

(** X1.  The older check of [src/parser/parser.py] accepts the same tables.  It
    raises [UnhandledSymbolType] for the first member without an entry,
    then [UnexpectedSymbolType] for the entries outside the enumeration,
    then [ValueError] when no member is called [ROOT]. *)
Lemma combinators_rule_table_validation :
  forall (rules : Dict Combinators.Parser) first_key p rest,
    rules = (first_key, p) :: rest ->
    let E := enum_type first_key in
    let ks := keys rules in
    (Combinators._check_non_terminal_rules rules = Return E <->
       has_member E "ROOT" = true /\
       every_member_has_entry E ks /\ no_extra_entries E ks)
    /\ (forall m,
          Combinators._check_non_terminal_rules rules
            = Raise (Combinators.UnhandledSymbolType m) ->
          In m (enum_iter E) /\ enum_in m ks = false)
    /\ (forall s,
          Combinators._check_non_terminal_rules rules
            = Raise (Combinators.UnexpectedSymbolType s) ->
          every_member_has_entry E ks /\
          s = set_difference ks (enum_iter E) /\ s <> [])
    /\ (Combinators._check_non_terminal_rules rules = Raise Combinators.ValueError ->
        every_member_has_entry E ks /\ no_extra_entries E ks /\
        has_member E "ROOT" = false).
Proof.
  intros rules first_key p rest Hrules E ks.
  unfold Combinators._check_non_terminal_rules.
  replace (keys rules) with (first_key :: keys rest) by (subst rules; reflexivity).
  fold E. replace (first_key :: keys rest) with ks by (subst ks rules; reflexivity).
  pose proof (set_difference_nil (enum_iter E) ks) as Hmiss.
  pose proof (set_difference_nil ks (enum_iter E)) as Hunex.
  fold (every_member_has_entry E ks) in Hmiss.
  fold (no_extra_entries E ks) in Hunex.
  destruct (find _ (enum_iter E)) as [m0|] eqn:Hfind.
  - apply find_some in Hfind. destruct Hfind as [Hin Hnone].
    assert (Hm0 : enum_in m0 ks = false).
    { apply dict_get_None. destruct (dict_get rules m0); [discriminate|reflexivity]. }
    repeat split; try discriminate.
    + intros [_ [Hall _]]. apply Hall in Hin. congruence.
    + inversion H; subst; assumption.
    + inversion H; subst; assumption.
  - assert (Hall : every_member_has_entry E ks).
    { intros m Hin. pose proof (find_none _ _ Hfind m Hin) as Hm. simpl in Hm.
      destruct (dict_get rules m) eqn:Hg; [|discriminate].
      destruct (enum_in m ks) eqn:He; [reflexivity|].
      apply dict_get_None in He. unfold ks in He. congruence. }
    pose proof (proj2 Hmiss Hall) as Hm. rewrite Hm. simpl.
    rewrite orb_false_r.
    destruct (len (set_difference ks (enum_iter E)) =? 0) eqn:Hu; simpl.
    + apply len_eqb_0 in Hu. pose proof (proj1 Hunex Hu) as Hno.
      destruct (has_member E "ROOT") eqn:Hroot.
      * repeat split; auto; discriminate.
      * repeat split; auto; try discriminate. intros [? _]. discriminate.
    + repeat split; try discriminate; auto.
      * intros [_ [_ Hno]]. apply Hunex in Hno. rewrite Hno in Hu. discriminate.
      * congruence.
      * intros Hs. inversion H; subst. rewrite H1 in Hu. discriminate.
Qed.

(** ** Fuel

    A result obtained with some fuel is the result with any larger fuel, so
    [OutOfFuel] with every fuel is the only way not to return. *)

Lemma bind_terminates {E A B} (c : Outcome E A) (k : A -> Outcome E B) :
  bind c k <> OutOfFuel -> c <> OutOfFuel.
Proof. destruct c; simpl; congruence. Qed.

Ltac case_callee f x off Hext :=
  let Hc := fresh "Hcall" in
  destruct (f x off) as [?parsed|[]|] eqn:Hc;
  try (simpl; congruence);
  rewrite (Hext x off) by (rewrite Hc; discriminate);
  rewrite Hc; simpl.

Module EngineFuel.
Import Engine.

Section Extends.
Variable self : Parser.
Variables f g : Expression -> nat -> Result Tree.
Hypothesis Hext : extends f g.

Lemma conjunction_loop_extends children offset :
  conjunction_loop f children offset <> OutOfFuel ->
  conjunction_loop g children offset = conjunction_loop f children offset.
Proof.
  induction children as [|child rest IH]; simpl; [reflexivity|].
  case_callee f child offset Hext; auto.
Qed.

Lemma _parse_conjunction_extends children offset :
  _parse_conjunction self f children offset <> OutOfFuel ->
  _parse_conjunction self g children offset = _parse_conjunction self f children offset.
Proof.
  unfold _parse_conjunction. intros H.
  rewrite conjunction_loop_extends; [reflexivity|].
  eapply bind_terminates; exact H.
Qed.

Lemma repeat_loop_extends fuel : forall fuel' child children child_offset,
  fuel <= fuel' ->
  repeat_loop f fuel child children child_offset <> OutOfFuel ->
  repeat_loop g fuel' child children child_offset
  = repeat_loop f fuel child children child_offset.
Proof.
  induction fuel as [|fuel IH]; intros fuel' child children child_offset Hle;
    simpl; [congruence|].
  destruct fuel' as [|fuel']; [lia|]. simpl.
  case_callee f child child_offset Hext; auto.
  apply IH. lia.
Qed.

Lemma _parse_repeat_extends fuel fuel' child offset :
  fuel <= fuel' ->
  _parse_repeat f fuel child offset <> OutOfFuel ->
  _parse_repeat g fuel' child offset = _parse_repeat f fuel child offset.
Proof.
  unfold _parse_repeat. intros Hle H.
  rewrite (@repeat_loop_extends fuel fuel'); auto.
  eapply bind_terminates; exact H.
Qed.

Lemma _parse_optional_extends child offset :
  _parse_optional f child offset <> OutOfFuel ->
  _parse_optional g child offset = _parse_optional f child offset.
Proof.
  unfold _parse_optional.
  case_callee f child offset Hext; auto.
Qed.

Lemma concatenation_loop_extends children : forall sub_trees child_offset,
  concatenation_loop f children sub_trees child_offset <> OutOfFuel ->
  concatenation_loop g children sub_trees child_offset
  = concatenation_loop f children sub_trees child_offset.
Proof.
  induction children as [|child rest IH]; intros sub_trees child_offset;
    simpl; [reflexivity|].
  case_callee f child child_offset Hext; auto.
Qed.

Lemma _parse_concatenation_extends children offset :
  _parse_concatenation f children offset <> OutOfFuel ->
  _parse_concatenation g children offset = _parse_concatenation f children offset.
Proof.
  unfold _parse_concatenation. intros H.
  rewrite concatenation_loop_extends; [reflexivity|].
  eapply bind_terminates; exact H.
Qed.

Lemma _parse_non_terminal_extends token_type offset :
  _parse_non_terminal self f token_type offset <> OutOfFuel ->
  _parse_non_terminal self g token_type offset
  = _parse_non_terminal self f token_type offset.
Proof.
  unfold _parse_non_terminal.
  destruct (dict_get _ _) as [expansion|]; [|reflexivity].
  case_callee f expansion offset Hext; auto.
Qed.
End Extends.

Lemma _parse_fuel_extends (self : Parser) (fuel : nat) :
  forall fuel', fuel <= fuel' -> extends (_parse self fuel) (_parse self fuel').
Proof.
  induction fuel as [|fuel IH]; intros fuel' Hle expr offset; simpl;
    [congruence|].
  destruct fuel' as [|fuel']; [lia|]. simpl.
  assert (Hext : extends (_parse self fuel) (_parse self fuel'))
    by (apply IH; lia).
  destruct (len (tokens self) <=? offset); [reflexivity|].
  destruct expr; intros H.
  - now apply _parse_concatenation_extends.
  - now apply _parse_conjunction_extends.
  - now apply _parse_non_terminal_extends.
  - now apply _parse_optional_extends.
  - apply _parse_repeat_extends; auto. lia.
  - reflexivity.
Qed.

(** More fuel does not change a result of [Parser._parse]. *)
Lemma _parse_more_fuel (self : Parser) fuel fuel' expr offset r :
  _parse self fuel expr offset = r -> r <> OutOfFuel -> fuel <= fuel' ->
  _parse self fuel' expr offset = r.
Proof.
  intros H Hr Hle. subst r. now apply _parse_fuel_extends.
Qed.

End EngineFuel.

Module CombinatorsFuel.
Import Combinators.

Section Extends.
Variable tokens : list Token.
Variable non_terminal_rules : Dict Parser.
Variables f g : Parser -> nat -> Result Tree.
Hypothesis Hext : extends f g.

Lemma or_loop_extends children : forall offset longest_parsed,
  or_loop f children offset longest_parsed <> OutOfFuel ->
  or_loop g children offset longest_parsed
  = or_loop f children offset longest_parsed.
Proof.
  induction children as [|child rest IH]; intros offset longest_parsed;
    simpl; [reflexivity|].
  case_callee f child offset Hext; auto.
  destruct longest_parsed as [longest|]; auto.
  destruct (token_count longest <? token_count parsed); auto.
Qed.

Lemma OrParser_parse_extends token_type children offset :
  OrParser_parse f token_type children offset <> OutOfFuel ->
  OrParser_parse g token_type children offset
  = OrParser_parse f token_type children offset.
Proof.
  unfold OrParser_parse. intros H.
  rewrite or_loop_extends; [reflexivity|].
  eapply bind_terminates; exact H.
Qed.

Lemma parser_repeat_loop_extends fuel : forall fuel' child sub_trees child_offset,
  fuel <= fuel' ->
  repeat_loop f fuel child sub_trees child_offset <> OutOfFuel ->
  repeat_loop g fuel' child sub_trees child_offset
  = repeat_loop f fuel child sub_trees child_offset.
Proof.
  induction fuel as [|fuel IH]; intros fuel' child sub_trees child_offset Hle;
    simpl; [congruence|].
  destruct fuel' as [|fuel']; [lia|]. simpl.
  case_callee f child child_offset Hext; auto.
  apply IH. lia.
Qed.

Lemma RepeatParser_parse_extends fuel fuel' token_type child min_repeats offset :
  fuel <= fuel' ->
  RepeatParser_parse f fuel token_type child min_repeats offset <> OutOfFuel ->
  RepeatParser_parse g fuel' token_type child min_repeats offset
  = RepeatParser_parse f fuel token_type child min_repeats offset.
Proof.
  unfold RepeatParser_parse. intros Hle H.
  rewrite (@parser_repeat_loop_extends fuel fuel'); auto.
  eapply bind_terminates; exact H.
Qed.

Lemma OptionalParser_parse_extends token_type child offset :
  OptionalParser_parse f token_type child offset <> OutOfFuel ->
  OptionalParser_parse g token_type child offset
  = OptionalParser_parse f token_type child offset.
Proof.
  unfold OptionalParser_parse.
  case_callee f child offset Hext; auto.
Qed.

Lemma parser_concatenation_loop_extends children : forall sub_trees child_offset,
  concatenation_loop f children sub_trees child_offset <> OutOfFuel ->
  concatenation_loop g children sub_trees child_offset
  = concatenation_loop f children sub_trees child_offset.
Proof.
  induction children as [|child rest IH]; intros sub_trees child_offset;
    simpl; [reflexivity|].
  case_callee f child child_offset Hext; auto.
Qed.

Lemma ConcatenationParser_parse_extends token_type children offset :
  ConcatenationParser_parse f token_type children offset <> OutOfFuel ->
  ConcatenationParser_parse g token_type children offset
  = ConcatenationParser_parse f token_type children offset.
Proof.
  unfold ConcatenationParser_parse. intros H.
  rewrite parser_concatenation_loop_extends; [reflexivity|].
  eapply bind_terminates; exact H.
Qed.

Lemma NonTerminalParser_parse_extends token_type offset :
  NonTerminalParser_parse non_terminal_rules f token_type offset <> OutOfFuel ->
  NonTerminalParser_parse non_terminal_rules g token_type offset
  = NonTerminalParser_parse non_terminal_rules f token_type offset.
Proof.
  unfold NonTerminalParser_parse.
  destruct (assert_truthy token_type) as [k| |]; simpl; try reflexivity.
  destruct (dict_get _ _) as [rule|]; [|reflexivity].
  apply Hext.
Qed.

Lemma LiteralParser_parse_extends literal offset :
  LiteralParser_parse non_terminal_rules f literal offset <> OutOfFuel ->
  LiteralParser_parse non_terminal_rules g literal offset
  = LiteralParser_parse non_terminal_rules f literal offset.
Proof.
  unfold LiteralParser_parse.
  destruct (keys non_terminal_rules) as [|first_key ?]; [reflexivity|].
  destruct (enum_getitem _ _) as [entry|]; [|reflexivity].
  destruct (dict_get _ _) as [rule|]; [|reflexivity].
  apply Hext.
Qed.
End Extends.

Lemma parse_fuel_extends tokens non_terminal_rules (fuel : nat) :
  forall fuel', fuel <= fuel' ->
  extends (parse fuel tokens non_terminal_rules)
          (parse fuel' tokens non_terminal_rules).
Proof.
  induction fuel as [|fuel IH]; intros fuel' Hle parser offset; simpl;
    [congruence|].
  destruct fuel' as [|fuel']; [lia|]. simpl.
  assert (Hext : extends (parse fuel tokens non_terminal_rules)
                         (parse fuel' tokens non_terminal_rules))
    by (apply IH; lia).
  destruct parser; intros H.
  - now apply OrParser_parse_extends.
  - apply RepeatParser_parse_extends; auto. lia.
  - now apply OptionalParser_parse_extends.
  - now apply ConcatenationParser_parse_extends.
  - reflexivity.
  - now apply NonTerminalParser_parse_extends.
  - now apply LiteralParser_parse_extends.
Qed.

(** More fuel does not change a result of [parser.parse]. *)
Lemma parse_more_fuel tokens non_terminal_rules fuel fuel' parser offset r :
  parse fuel tokens non_terminal_rules parser offset = r ->
  r <> OutOfFuel -> fuel <= fuel' ->
  parse fuel' tokens non_terminal_rules parser offset = r.
Proof.
  intros H Hr Hle. subst r. now apply parse_fuel_extends.
Qed.

End CombinatorsFuel.

(** ** Terminals and the end of the token list *)

Lemma nth_error_in_bounds {A} (l : list A) (n : nat) :
  n < len l -> exists x, nth_error l n = Some x.
Proof.
  intros H. destruct (nth_error l n) as [x|] eqn:Hn; [eauto|].
  apply nth_error_None in Hn. lia.
Qed.

Section EngineNoIndexError.
Import Engine.
Variable self : Parser.

Lemma _parse_no_index_error (fuel : nat) : no_index_error (_parse self fuel).
Proof.
  induction fuel as [|fuel IH]; intros expr offset; simpl; [discriminate|].
  destruct (len (tokens self) <=? offset) eqn:Hend.
  - destruct expr; discriminate.
  - apply Nat.leb_gt in Hend.
    destruct expr as [cs|cs|t|c|c|t].
    + unfold _parse_concatenation.
      assert (H : forall subs off,
                 concatenation_loop (_parse self fuel) cs subs off
                 <> Raise IndexError).
      { induction cs as [|c cs IHcs]; intros subs off; simpl; [discriminate|].
        destruct (_parse self fuel c off) as [p|e|] eqn:Hc; simpl;
          [apply IHcs| |discriminate].
        intros Heq. apply (IH c off). congruence. }
      specialize (H [] offset).
      destruct (concatenation_loop _ _ _ _) as [[subs off]|e|]; simpl;
        congruence.
    + unfold _parse_conjunction.
      assert (H : conjunction_loop (_parse self fuel) cs offset
                  <> Raise IndexError).
      { induction cs as [|c cs IHcs]; simpl; [discriminate|].
        destruct (_parse self fuel c offset) as [p|e|] eqn:Hc;
          [discriminate| |discriminate].
        destruct e; try discriminate; auto.
        exfalso. exact (IH c offset Hc). }
      destruct (conjunction_loop _ _ _) as [[p|]|e|]; simpl;
        congruence.
    + unfold _parse_non_terminal.
      destruct (dict_get _ _) as [expansion|]; [|discriminate].
      destruct (_parse self fuel expansion offset) as [p|e|] eqn:Hc; simpl;
        try discriminate.
      intros Heq. apply (IH expansion offset). congruence.
    + unfold _parse_optional.
      destruct (_parse self fuel c offset) as [p|e|] eqn:Hc;
        try discriminate.
      destruct e; try discriminate.
      exfalso. exact (IH c offset Hc).
    + unfold _parse_repeat.
      assert (H : forall n subs off,
                 repeat_loop (_parse self fuel) n c subs off
                 <> Raise IndexError).
      { induction n as [|n IHn]; intros subs off; simpl; [discriminate|].
        destruct (_parse self fuel c off) as [p|e|] eqn:Hc;
          [apply IHn| |discriminate].
        destruct e; try discriminate.
        exfalso. exact (IH c off Hc). }
      specialize (H fuel [] offset).
      destruct (repeat_loop _ _ _ _ _) as [[subs off]|e|]; simpl;
        congruence.
    + unfold _parse_terminal.
      destruct (nth_error_in_bounds _ Hend) as [token ->].
      destruct (negb _); discriminate.
Qed.
End EngineNoIndexError.

(** C7, where [TerminalParser.parse] departs from the claim: the token at
    offset 0 exists and has the terminal's own type, but the type is the
    zero-valued member [ZERO], which [assert self.token_type] rejects, so the
    call raises [AssertionError]: neither a tree nor an [InternalParseError].
    The assertion stands after the comparison of the types and is meant to
    tell a symbol type from [None]; a member of value 0 is a symbol type and
    is falsy. *)
Lemma terminal_parser_zero_valued_symbol :
  0 < len [mkToken Sample.ZERO 0 1]
  /\ forall fuel rules,
       Combinators.parse (S fuel) [mkToken Sample.ZERO 0 1] rules
         (Combinators.TerminalParser (Some Sample.ZERO)) 0
       = Raise Combinators.AssertionError.
Proof.
  split; [simpl; lia|]. intros fuel rules. reflexivity.
Qed.

(** The engine on the same input: [_parse_terminal] has no such assertion
    and returns the one-token tree of the zero-valued symbol. *)
Lemma engine_terminal_zero_valued_symbol :
  Engine._parse (Sample.engine_parser [mkToken Sample.ZERO 0 1] []) 1
    (Engine.TerminalExpression Sample.ZERO) 0
  = Return (mkTree 0 1 (Some Sample.ZERO) []).
Proof. reflexivity. Qed.

(** Apart from that defect the bounds are as the claim says.
    [TerminalParser.parse] of [src/parser/parser.py]:
    when [offset < len(tokens)] the index is in bounds, and for a terminal
    whose symbol type is truthy (a member of non-zero value, which passes
    [assert self.token_type]) the call returns the one-token tree or
    raises [InternalParseError(offset, token_type)]; when
    [offset >= len(tokens)] the index is out of range and the call raises
    [IndexError].  The engine of [src/parser/parser/parser.py] has no such
    precondition: at or past the end of the tokens [_parse] returns the empty
    zero-length tree for Repeat and Optional expressions and raises
    [ParseError] at that offset for the others; before the end a terminal
    returns the one-token tree or raises [ParseError]; and no expression at
    any offset makes [_parse] raise [IndexError]. *)
Theorem terminal_parser_bounds :
  (forall fuel tokens rules k offset,
      truthy k = true ->
      offset < len tokens ->
      exists token,
        nth_error tokens offset = Some token /\
        let r := Combinators.parse (S fuel) tokens rules
                   (Combinators.TerminalParser (Some k)) offset in
        (r = Return (mkTree offset 1 (Some k) []) /\
           enum_eqb (type token) k = true) \/
        (r = Raise (Combinators.InternalParseError offset (Some k)) /\
           enum_eqb (type token) k = false))
  /\ (forall fuel tokens rules t offset,
        len tokens <= offset ->
        nth_error tokens offset = None /\
        Combinators.parse (S fuel) tokens rules
          (Combinators.TerminalParser t) offset
        = Raise Combinators.IndexError)
  /\ (forall self fuel expr offset,
        len (Engine.tokens self) <= offset ->
        Engine._parse self (S fuel) expr offset =
          match expr with
          | Engine.RepeatExpression _ | Engine.OptionalExpression _ =>
              Return (mkTree offset 0 None [])
          | _ =>
              Raise (Engine.ParseError (Engine.filename self) (Engine.code self)
                       offset)
          end)
  /\ (forall self fuel k offset,
        offset < len (Engine.tokens self) ->
        exists token,
          nth_error (Engine.tokens self) offset = Some token /\
          Engine._parse self (S fuel) (Engine.TerminalExpression k) offset =
            if enum_eqb (type token) k
            then Return (mkTree offset 1 (Some k) [])
            else Raise (Engine.ParseError (Engine.filename self)
                          (Engine.code self) offset))
  /\ (forall self fuel expr offset,
        Engine._parse self fuel expr offset <> Raise Engine.IndexError).
Proof.
  repeat apply conj.
  - intros fuel tokens rules k offset Hk Hlt.
    destruct (nth_error_in_bounds _ Hlt) as [token Htok].
    exists token. split; [exact Htok|].
    simpl. unfold Combinators.TerminalParser_parse. rewrite Htok. simpl.
    destruct (enum_eqb (type token) k); simpl.
    + left. now rewrite Hk.
    + right. auto.
  - intros fuel tokens rules t offset Hge.
    assert (Hnone : nth_error tokens offset = None)
      by now apply nth_error_None.
    split; [exact Hnone|].
    simpl. unfold Combinators.TerminalParser_parse. now rewrite Hnone.
  - intros self fuel expr offset Hge. simpl.
    apply Nat.leb_le in Hge. rewrite Hge. destruct expr; reflexivity.
  - intros self fuel k offset Hlt.
    destruct (nth_error_in_bounds _ Hlt) as [token Htok].
    exists token. split; [exact Htok|].
    simpl. apply Nat.leb_gt in Hlt. rewrite Hlt.
    unfold Engine._parse_terminal. rewrite Htok.
    destruct (enum_eqb (type token) k); reflexivity.
  - intros self fuel expr offset. apply _parse_no_index_error.
Qed.

Lemma terminal_parser_bounds_witness :
  exists token,
    nth_error Sample.tokens_3_plus_4 1 = Some token /\
    let r := Combinators.parse 1 Sample.tokens_3_plus_4 []
               (Combinators.TerminalParser (Some Sample.PLUS)) 1 in
    (r = Return (mkTree 1 1 (Some Sample.PLUS) []) /\
       enum_eqb (type token) Sample.PLUS = true) \/
    (r = Raise (Combinators.InternalParseError 1 (Some Sample.PLUS)) /\
       enum_eqb (type token) Sample.PLUS = false).
Proof.
  apply (proj1 terminal_parser_bounds 0 Sample.tokens_3_plus_4 []
           Sample.PLUS 1).
  - reflexivity.
  - simpl. lia.
Defined.

(** ** Literals *)

(** C10.  [LiteralParser.parse] does not read [self.literal]: two instances
    give the same result on every token list, offset and rule table, with
    any fuel; and when the enumeration of the table's first key has the
    member [internal_NON_TERMINAL_LITERAL] and the table has an entry for
    it, both calls are the call of that entry's parser. *)
Theorem literal_parser_ignores_literal :
  forall tokens rules first_key other_keys entry rule
         literal1 literal2 t1 t2 offset,
    keys rules = first_key :: other_keys ->
    enum_getitem (enum_type first_key) "internal_NON_TERMINAL_LITERAL"
      = Some entry ->
    dict_get rules entry = Some rule ->
    forall fuel,
      Combinators.parse (S fuel) tokens rules
        (Combinators.LiteralParser t1 literal1) offset
      = Combinators.parse fuel tokens rules rule offset
      /\ Combinators.parse (S fuel) tokens rules
           (Combinators.LiteralParser t2 literal2) offset
         = Combinators.parse fuel tokens rules rule offset
      /\ Combinators.parse fuel tokens rules
           (Combinators.LiteralParser t1 literal1) offset
         = Combinators.parse fuel tokens rules
             (Combinators.LiteralParser t2 literal2) offset.
Proof.
  intros tokens rules first_key other_keys entry rule literal1 literal2 t1 t2
    offset Hkeys Hentry Hrule fuel.
  assert (Hstep : forall t literal,
            Combinators.parse (S fuel) tokens rules
              (Combinators.LiteralParser t literal) offset
            = Combinators.parse fuel tokens rules rule offset).
  { intros t literal. simpl. unfold Combinators.LiteralParser_parse.
    now rewrite Hkeys, Hentry, Hrule. }
  repeat split; [apply Hstep | apply Hstep |].
  destruct fuel as [|fuel]; reflexivity.
Qed.

Lemma literal_parser_ignores_literal_witness :
  Combinators.parse 2 SampleLiteral.tokens SampleLiteral.rules
    (Combinators.LiteralParser None "(") 0
  = Return (mkTree 0 1 (Some SampleLiteral.QUOTED) [])
  /\ Combinators.parse 2 SampleLiteral.tokens SampleLiteral.rules
       (Combinators.LiteralParser None ")") 0
     = Return (mkTree 0 1 (Some SampleLiteral.QUOTED) []).
Proof.
  destruct (@literal_parser_ignores_literal SampleLiteral.tokens
              SampleLiteral.rules SampleLiteral.ROOT
              [SampleLiteral.LITERAL; SampleLiteral.QUOTED]
              SampleLiteral.LITERAL
              (Combinators.TerminalParser (Some SampleLiteral.QUOTED))
              "(" ")" None None 0 eq_refl eq_refl eq_refl 1)
    as [H1 [H2 _]].
  split; [rewrite H1 | rewrite H2]; reflexivity.
Defined.

(** ** The root completion check *)

(** C3.  [Parser.parse] on a validated rule table, when the root expression
    parses to [tree]: if [tree] consumes fewer tokens than the input has,
    the parse raises [ParseError] at the source offset of the first
    unconsumed token ([tokens[tree.token_count].offset]); a parse that
    returns has consumed exactly [len(tokens)] tokens; and consuming all
    tokens does return, a tree tagged with the root symbol. *)
Theorem root_completion_check :
  forall (self : Engine.Parser) fuel first_key other_keys root_non_terminal
         root_expr tree,
    Engine._check_non_terminal_rules self = Return tt ->
    keys (Engine.non_terminal_rules self) = first_key :: other_keys ->
    enum_getitem (enum_type first_key) (Engine.root_token self)
      = Some root_non_terminal ->
    dict_get (Engine.non_terminal_rules self) root_non_terminal
      = Some root_expr ->
    Engine._parse self fuel root_expr 0 = Return tree ->
    (token_count tree < len (Engine.tokens self) ->
       exists first_unexpected_token,
         nth_error (Engine.tokens self) (token_count tree)
           = Some first_unexpected_token /\
         Engine.parse self fuel
           = Raise (Engine.ParseError (Engine.filename self) (Engine.code self)
                      (offset first_unexpected_token)))
    /\ (forall result,
          Engine.parse self fuel = Return result ->
          token_count tree = len (Engine.tokens self))
    /\ (token_count tree = len (Engine.tokens self) ->
          exists result,
            Engine.parse self fuel = Return result /\
            token_type result = Some root_non_terminal /\
            token_count result = len (Engine.tokens self)).
Proof.
  intros self fuel first_key other_keys root_non_terminal root_expr tree
    Hcheck Hkeys Hroot Hexpr Htree.
  assert (Hparse :
    Engine.parse self fuel =
      let tree := set_token_type tree (Some root_non_terminal) in
      if negb (token_count tree =? len (Engine.tokens self)) then
        if negb (token_count tree <? len (Engine.tokens self)) then
          Raise Engine.AssertionError
        else
          match nth_error (Engine.tokens self) (token_count tree) with
          | None => Raise Engine.IndexError
          | Some first_unexpected_token =>
              Raise (Engine.ParseError (Engine.filename self) (Engine.code self)
                       (offset first_unexpected_token))
          end
      else Engine.prune self root_non_terminal tree).
  { unfold Engine.parse. rewrite Hcheck. simpl.
    rewrite Hkeys, Hroot, Hexpr, Htree. reflexivity. }
  rewrite Hparse. simpl. clear Hparse.
  repeat apply conj.
  - intros Hlt.
    destruct (nth_error_in_bounds _ Hlt) as [token Htok].
    exists token. split; [exact Htok|].
    assert (Hne : (token_count tree =? len (Engine.tokens self)) = false)
      by (apply Nat.eqb_neq; lia).
    apply Nat.ltb_lt in Hlt. now rewrite Hne, Hlt, Htok.
  - intros result.
    destruct (token_count tree =? len (Engine.tokens self)) eqn:Heq; simpl.
    + intros _. now apply Nat.eqb_eq.
    + destruct (token_count tree <? len (Engine.tokens self)); simpl;
        [|discriminate].
      destruct (nth_error _ _); discriminate.
  - intros Heq. rewrite Heq, Nat.eqb_refl. simpl.
    unfold Engine.prune. simpl. eexists. split; [reflexivity|].
    simpl. auto.
Qed.

Lemma root_completion_check_witness :
  exists first_unexpected_token,
    nth_error Sample.tokens_3_plus_4 1 = Some first_unexpected_token /\
    Engine.parse
      (Sample.engine_parser Sample.tokens_3_plus_4
         [(Sample.ROOT, Engine.TerminalExpression Sample.NUMBER);
          (Sample.NUMBER, Engine.TerminalExpression Sample.NUMBER);
          (Sample.PLUS, Engine.TerminalExpression Sample.PLUS)]) 3
    = Raise (Engine.ParseError "sample" "3+4" (offset first_unexpected_token)).
Proof.
  refine (proj1 (@root_completion_check
                   (Sample.engine_parser Sample.tokens_3_plus_4
                      [(Sample.ROOT, Engine.TerminalExpression Sample.NUMBER);
                       (Sample.NUMBER, Engine.TerminalExpression Sample.NUMBER);
                       (Sample.PLUS, Engine.TerminalExpression Sample.PLUS)])
                   3 Sample.ROOT [Sample.NUMBER; Sample.PLUS] Sample.ROOT
                   (Engine.TerminalExpression Sample.NUMBER)
                   (mkTree 0 1 (Some Sample.NUMBER) [])
                   eq_refl eq_refl eq_refl eq_refl eq_refl) _).
  simpl. lia.
Defined.

(** ** Alternation *)

Section OrLoop.
Import Combinators.
Variable f : Parser -> nat -> Result Tree.
Variable offset : nat.

(** What the loop of [OrParser.parse] holds at its end, from any state
    [longest_parsed] of the running maximum. *)
Lemma or_loop_select (children : list Parser) :
  (forall c, In c children -> parsed_or_failed (f c offset)) ->
  forall longest_parsed,
    (or_loop f children offset longest_parsed = Return longest_parsed /\
     forall c t, In c children -> f c offset = Return t ->
       match longest_parsed with
       | None => False
       | Some longest => token_count t <= token_count longest
       end)
    \/
    (exists pre child post t,
        children = pre ++ child :: post /\
        f child offset = Return t /\
        match longest_parsed with
        | None => True
        | Some longest => token_count longest < token_count t
        end /\
        (forall c t', In c pre -> f c offset = Return t' ->
                      token_count t' < token_count t) /\
        (forall c t', In c post -> f c offset = Return t' ->
                      token_count t' <= token_count t) /\
        or_loop f children offset longest_parsed = Return (Some t)).
Proof.
  induction children as [|c rest IH]; intros Hnormal longest_parsed.
  - left. split; [reflexivity|]. intros c t [].
  - assert (Hrest : forall c', In c' rest -> parsed_or_failed (f c' offset))
      by (intros c' Hin; apply Hnormal; now right).
    pose proof (Hnormal c (or_introl eq_refl)) as Hc.
    simpl. destruct (f c offset) as [t1|e|] eqn:Hfc; simpl in Hc;
      [| |contradiction].
    + (* the child returned [t1] *)
      assert (Hnew : forall new,
        (match longest_parsed with
         | None => True
         | Some longest => token_count longest < token_count t1
         end) ->
        new = Some t1 ->
        (or_loop f rest offset new = Return new /\
         forall c' t, In c' rest -> f c' offset = Return t ->
           match new with
           | None => False
           | Some longest => token_count t <= token_count longest
           end) \/
        (exists pre child post t,
            rest = pre ++ child :: post /\ f child offset = Return t /\
            match new with
            | None => True
            | Some longest => token_count longest < token_count t
            end /\
            (forall c' t', In c' pre -> f c' offset = Return t' ->
                           token_count t' < token_count t) /\
            (forall c' t', In c' post -> f c' offset = Return t' ->
                           token_count t' <= token_count t) /\
            or_loop f rest offset new = Return (Some t)) ->
        exists pre child post t,
          c :: rest = pre ++ child :: post /\ f child offset = Return t /\
          match longest_parsed with
          | None => True
          | Some longest => token_count longest < token_count t
          end /\
          (forall c' t', In c' pre -> f c' offset = Return t' ->
                         token_count t' < token_count t) /\
          (forall c' t', In c' post -> f c' offset = Return t' ->
                         token_count t' <= token_count t) /\
          or_loop f rest offset new = Return (Some t)).
      { intros new Hgt -> [[Hres Hle] | (pre & child & post & t & Hd & Hf & Hlt & Hpre & Hpost & Hres)].
        - exists [], c, rest, t1. repeat split; auto.
          intros c' t' [].
        - exists (c :: pre), child, post, t. subst rest. repeat split; auto.
          + destruct longest_parsed; [lia|exact I].
          + intros c' t' [<- | Hin] Hf'; [|eauto].
            rewrite Hfc in Hf'. inversion Hf'; subst. exact Hlt. }
      destruct longest_parsed as [longest|].
      * destruct (token_count longest <? token_count t1) eqn:Hcmp.
        -- right. apply Nat.ltb_lt in Hcmp.
           apply (Hnew (Some t1) Hcmp eq_refl). apply IH, Hrest.
        -- apply Nat.ltb_ge in Hcmp.
           destruct (IH Hrest (Some longest))
             as [[Hres Hle] | (pre & child & post & t & Hd & Hf & Hlt & Hpre & Hpost & Hres)].
           ++ left. split; [exact Hres|].
              intros c' t [<- | Hin] Hf'; [|eauto].
              rewrite Hfc in Hf'. inversion Hf'; subst. exact Hcmp.
           ++ right. exists (c :: pre), child, post, t. subst rest.
              repeat split; auto.
              intros c' t' [<- | Hin] Hf'; [|eauto].
              rewrite Hfc in Hf'. inversion Hf'; subst. lia.
      * right. apply (Hnew (Some t1) I eq_refl). apply IH, Hrest.
    + (* the child raised [InternalParseError] *)
      destruct e; try contradiction.
      destruct (IH Hrest longest_parsed)
        as [[Hres Hle] | (pre & child & post & t & Hd & Hf & Hlt & Hpre & Hpost & Hres)].
      * left. split; [exact Hres|].
        intros c' t [<- | Hin] Hf'; [congruence|exact (Hle _ _ Hin Hf')].
      * right. exists (c :: pre), child, post, t. subst rest.
        repeat split; auto.
        intros c' t' [<- | Hin] Hf'; [congruence|eauto].
Qed.

(** A child that crashes or does not return decides the result, whatever
    the children before it returned: the loop does not stop at a success. *)
Lemma or_loop_propagates (pre : list Parser) :
  forall child post longest_parsed,
    (forall c, In c pre -> parsed_or_failed (f c offset)) ->
    (forall e, f child offset = Raise e ->
               ~ parsed_or_failed (Raise e) ->
               or_loop f (pre ++ child :: post) offset longest_parsed = Raise e)
    /\ (f child offset = OutOfFuel ->
        or_loop f (pre ++ child :: post) offset longest_parsed = OutOfFuel).
Proof.
  induction pre as [|c pre IH]; intros child post longest_parsed Hpre.
  - simpl. split.
    + intros e -> Hbad. destruct e; simpl in Hbad; tauto.
    + now intros ->.
  - simpl.
    pose proof (Hpre c (or_introl eq_refl)) as Hc.
    assert (Hpre' : forall c', In c' pre -> parsed_or_failed (f c' offset))
      by (intros c' Hin; apply Hpre; now right).
    destruct (f c offset) as [t1|e|]; simpl in Hc; [| |contradiction].
    + destruct longest_parsed as [longest|]; [|now apply IH].
      destruct (token_count longest <? token_count t1); now apply IH.
    + destruct e; try contradiction. now apply IH.
Qed.
End OrLoop.

Section ConjunctionLoop.
Import Engine.
Variable f : Expression -> nat -> Result Tree.
Variable offset : nat.

Lemma conjunction_loop_first (pre : list Expression) :
  forall child post t,
    (forall c, In c pre -> parse_error (f c offset)) ->
    f child offset = Return t ->
    conjunction_loop f (pre ++ child :: post) offset = Return (Some t).
Proof.
  induction pre as [|c pre IH]; intros child post t Hpre Hchild; simpl.
  - now rewrite Hchild.
  - pose proof (Hpre c (or_introl eq_refl)) as Hc.
    destruct (f c offset) as [?|e|]; simpl in Hc; try contradiction.
    destruct e; try contradiction.
    apply IH; auto. intros c' Hin. apply Hpre. now right.
Qed.

Lemma conjunction_loop_none (children : list Expression) :
  (forall c, In c children -> parse_error (f c offset)) ->
  conjunction_loop f children offset = Return None.
Proof.
  induction children as [|c rest IH]; intros Hall; simpl; [reflexivity|].
  pose proof (Hall c (or_introl eq_refl)) as Hc.
  destruct (f c offset) as [?|e|]; simpl in Hc; try contradiction.
  destruct e; try contradiction.
  apply IH. intros c' Hin. apply Hall. now right.
Qed.
End ConjunctionLoop.

(** C4, where [Parser._parse_conjunction] departs from the claim: on the
    tokens of ["3+4"] both alternatives succeed, the first with one token
    and the second with three, and the conjunction returns the one-token
    match of the first; declared in the other order it returns the
    three-token match.  The result follows the declaration order, not the
    length. *)
Lemma conjunction_selects_first_match :
  Engine._parse sample_engine 3 short_alternative 0
    = Return (mkTree 0 1 (Some Sample.NUMBER) [])
  /\ (exists t, Engine._parse sample_engine 3 long_alternative 0 = Return t
                /\ token_count t = 3)
  /\ (forall fuel, 4 <= fuel ->
        Engine._parse sample_engine fuel
          (Engine.ConjunctionExpression [short_alternative; long_alternative]) 0
        = Return (mkTree 0 1 None [mkTree 0 1 (Some Sample.NUMBER) []]))
  /\ (exists t, Engine._parse sample_engine 4
                  (Engine.ConjunctionExpression
                     [long_alternative; short_alternative]) 0 = Return t
                /\ token_count t = 3).
Proof.
  repeat apply conj.
  - reflexivity.
  - eexists. split; reflexivity.
  - intros fuel Hfuel.
    apply (@EngineFuel._parse_more_fuel sample_engine 4 fuel);
      [reflexivity|discriminate|exact Hfuel].
  - eexists. split; reflexivity.
Qed.

(** C4, amended.  [OrParser.parse] evaluates every child in declared
    order: when each child returns a tree or raises [InternalParseError],
    the result wraps the tree of the earliest child whose consumed token
    count is maximal among the succeeding children, or is
    [InternalParseError(offset, self.token_type)] when no child succeeds;
    and a child that crashes or does not return decides the result even
    after an earlier success.  [Parser._parse_conjunction] wraps the tree of
    the first declared child that succeeds, whatever the later children
    would return, and raises [ParseError] at the original offset when every
    child raises [ParseError]. *)
Theorem alternation_selection :
  (forall fuel tokens rules token_type children offset,
      (forall c, In c children ->
         parsed_or_failed (Combinators.parse fuel tokens rules c offset)) ->
      let r := Combinators.parse (S fuel) tokens rules
                 (Combinators.OrParser token_type children) offset in
      ((forall c t, In c children ->
          Combinators.parse fuel tokens rules c offset <> Return t) /\
       r = Raise (Combinators.InternalParseError offset token_type))
      \/
      (exists pre child post t,
          children = pre ++ child :: post /\
          Combinators.parse fuel tokens rules child offset = Return t /\
          (forall c t', In c pre ->
             Combinators.parse fuel tokens rules c offset = Return t' ->
             token_count t' < token_count t) /\
          (forall c t', In c post ->
             Combinators.parse fuel tokens rules c offset = Return t' ->
             token_count t' <= token_count t) /\
          r = Return (mkTree (token_offset t) (token_count t) token_type [t])))
  /\ (forall fuel tokens rules token_type pre child post offset,
        (forall c, In c pre ->
           parsed_or_failed (Combinators.parse fuel tokens rules c offset)) ->
        let r := Combinators.parse (S fuel) tokens rules
                   (Combinators.OrParser token_type (pre ++ child :: post))
                   offset in
        (forall e,
            Combinators.parse fuel tokens rules child offset = Raise e ->
            ~ parsed_or_failed (Raise e) -> r = Raise e)
        /\ (Combinators.parse fuel tokens rules child offset = OutOfFuel ->
            r = OutOfFuel))
  /\ (forall self fuel pre child post t offset,
        offset < len (Engine.tokens self) ->
        (forall c, In c pre -> parse_error (Engine._parse self fuel c offset)) ->
        Engine._parse self fuel child offset = Return t ->
        Engine._parse self (S fuel)
          (Engine.ConjunctionExpression (pre ++ child :: post)) offset
        = Return (mkTree (token_offset t) (token_count t) None [t]))
  /\ (forall self fuel children offset,
        (forall c, In c children ->
           parse_error (Engine._parse self fuel c offset)) ->
        Engine._parse self (S fuel) (Engine.ConjunctionExpression children) offset
        = Raise (Engine.ParseError (Engine.filename self) (Engine.code self)
                   offset)).
Proof.
  repeat apply conj.
  - intros fuel tokens rules token_type children offset Hnormal. simpl.
    unfold Combinators.OrParser_parse.
    destruct (or_loop_select _ offset children Hnormal None)
      as [[Hres Hnone] | (pre & child & post & t & Hd & Hf & _ & Hpre & Hpost & Hres)].
    + left. split.
      * intros c t Hin Hf. exact (Hnone c t Hin Hf).
      * now rewrite Hres.
    + right. exists pre, child, post, t. rewrite Hres. repeat split; auto.
  - intros fuel tokens rules token_type pre child post offset Hpre. simpl.
    unfold Combinators.OrParser_parse.
    destruct (or_loop_propagates (Combinators.parse fuel tokens rules) offset
                pre child post None Hpre) as [Hraise Hfuel].
    split.
    + intros e He Hbad. now rewrite (Hraise e He Hbad).
    + intros Hout. now rewrite (Hfuel Hout).
  - intros self fuel pre child post t offset Hlt Hpre Hchild. simpl.
    apply Nat.leb_gt in Hlt. rewrite Hlt.
    unfold Engine._parse_conjunction.
    now rewrite (conjunction_loop_first _ offset pre child post Hpre Hchild).
  - intros self fuel children offset Hall. simpl.
    destruct (len (Engine.tokens self) <=? offset); [reflexivity|].
    unfold Engine._parse_conjunction.
    now rewrite (conjunction_loop_none _ offset children Hall).
Qed.

Lemma alternation_selection_witness :
  Engine._parse
    (Sample.engine_parser Sample.tokens_3_plus_4 Sample.engine_rules) 4
    (Engine.ConjunctionExpression
       ([Engine.TerminalExpression Sample.PLUS] ++
        short_alternative :: [long_alternative])) 0
  = Return (mkTree 0 1 None [mkTree 0 1 (Some Sample.NUMBER) []]).
Proof.
  refine (proj1 (proj2 (proj2 alternation_selection))
            (Sample.engine_parser Sample.tokens_3_plus_4 Sample.engine_rules)
            3 [Engine.TerminalExpression Sample.PLUS] short_alternative
            [long_alternative] (mkTree 0 1 (Some Sample.NUMBER) []) 0 _ _ _).
  - simpl. lia.
  - intros c [<- | []]. exact I.
  - reflexivity.
Defined.

(** ** Optional *)

(** C5, where the code departs from the claim, at offset 3, the end of the
    tokens of ["3+4"].  In the engine the child [Optional(NUMBER)] succeeds
    there (with the empty tree), yet the enclosing Optional has no child:
    the dispatcher answers before the child is tried.  In
    [src/parser/parser.py] the terminal child indexes past the end and its
    [IndexError] passes through [OptionalParser.parse] to the parent. *)
Lemma optional_at_end_of_tokens :
  Engine._parse sample_engine 2
    (Engine.OptionalExpression (Engine.TerminalExpression Sample.NUMBER)) 3
    = Return (mkTree 3 0 None [])
  /\ Engine._parse sample_engine 3
       (Engine.OptionalExpression
          (Engine.OptionalExpression (Engine.TerminalExpression Sample.NUMBER))) 3
     = Return (mkTree 3 0 None [])
  /\ (forall fuel rules,
        Combinators.parse (S (S fuel)) Sample.tokens_3_plus_4 rules
          (Combinators.OptionalParser None
             (Combinators.TerminalParser (Some Sample.NUMBER))) 3
        = Raise Combinators.IndexError).
Proof.
  repeat apply conj; reflexivity.
Qed.

(** C5, amended.  In the engine, parsing an Optional never raises
    [ParseError]: at or past the end of the tokens the result is the empty
    zero-length node, without a try of the child; before the end, a child
    that returns [t] gives one child [t] and the length of [t], and a child
    that raises [ParseError] gives zero children and length zero.
    [OptionalParser.parse] never raises [InternalParseError]: a child that
    returns [t] gives one child [t] and the length of [t], a child that
    raises [InternalParseError] gives zero children and length zero. *)
Theorem optional_never_fails :
  (forall self fuel child offset,
      len (Engine.tokens self) <= offset ->
      Engine._parse self (S fuel) (Engine.OptionalExpression child) offset
      = Return (mkTree offset 0 None []))
  /\ (forall self fuel child offset t,
        offset < len (Engine.tokens self) ->
        Engine._parse self fuel child offset = Return t ->
        Engine._parse self (S fuel) (Engine.OptionalExpression child) offset
        = Return (mkTree offset (token_count t) None [t]))
  /\ (forall self fuel child offset,
        offset < len (Engine.tokens self) ->
        parse_error (Engine._parse self fuel child offset) ->
        Engine._parse self (S fuel) (Engine.OptionalExpression child) offset
        = Return (mkTree offset 0 None []))
  /\ (forall self fuel child offset,
        ~ parse_error
            (Engine._parse self fuel (Engine.OptionalExpression child) offset))
  /\ (forall fuel tokens rules token_type child offset t,
        Combinators.parse fuel tokens rules child offset = Return t ->
        Combinators.parse (S fuel) tokens rules
          (Combinators.OptionalParser token_type child) offset
        = Return (mkTree offset (token_count t) token_type [t]))
  /\ (forall fuel tokens rules token_type child offset o ty,
        Combinators.parse fuel tokens rules child offset
          = Raise (Combinators.InternalParseError o ty) ->
        Combinators.parse (S fuel) tokens rules
          (Combinators.OptionalParser token_type child) offset
        = Return (mkTree offset 0 token_type []))
  /\ (forall fuel tokens rules token_type child offset o ty,
        Combinators.parse fuel tokens rules
          (Combinators.OptionalParser token_type child) offset
        <> Raise (Combinators.InternalParseError o ty)).
Proof.
  repeat apply conj.
  - intros self fuel child offset Hge. simpl.
    apply Nat.leb_le in Hge. now rewrite Hge.
  - intros self fuel child offset t Hlt Hchild. simpl.
    apply Nat.leb_gt in Hlt. rewrite Hlt.
    unfold Engine._parse_optional. now rewrite Hchild.
  - intros self fuel child offset Hlt Hchild. simpl.
    apply Nat.leb_gt in Hlt. rewrite Hlt.
    unfold Engine._parse_optional.
    destruct (Engine._parse self fuel child offset) as [?|e|];
      simpl in Hchild; try contradiction.
    destruct e; try contradiction. reflexivity.
  - intros self fuel child offset.
    destruct fuel as [|fuel]; simpl; [tauto|].
    destruct (len (Engine.tokens self) <=? offset); simpl; [tauto|].
    unfold Engine._parse_optional.
    destruct (Engine._parse self fuel child offset) as [?|e|]; simpl;
      try tauto.
    destruct e; simpl; tauto.
  - intros fuel tokens rules token_type child offset t Hchild. simpl.
    unfold Combinators.OptionalParser_parse. now rewrite Hchild.
  - intros fuel tokens rules token_type child offset o ty Hchild. simpl.
    unfold Combinators.OptionalParser_parse. now rewrite Hchild.
  - intros fuel tokens rules token_type child offset o ty.
    destruct fuel as [|fuel]; simpl; [discriminate|].
    unfold Combinators.OptionalParser_parse.
    destruct (Combinators.parse fuel tokens rules child offset) as [?|e|];
      try discriminate.
    destruct e; discriminate.
Qed.

Lemma optional_never_fails_witness :
  Engine._parse sample_engine 2
    (Engine.OptionalExpression (Engine.TerminalExpression Sample.PLUS)) 1
  = Return (mkTree 1 1 None [mkTree 1 1 (Some Sample.PLUS) []])
  /\ Engine._parse sample_engine 2
       (Engine.OptionalExpression (Engine.TerminalExpression Sample.PLUS)) 0
     = Return (mkTree 0 0 None []).
Proof.
  split.
  - refine (proj1 (proj2 optional_never_fails) sample_engine 1
              (Engine.TerminalExpression Sample.PLUS) 1
              (mkTree 1 1 (Some Sample.PLUS) []) _ _).
    + simpl. lia.
    + reflexivity.
  - refine (proj1 (proj2 (proj2 optional_never_fails)) sample_engine 1
              (Engine.TerminalExpression Sample.PLUS) 0 _ _).
    + simpl. lia.
    + exact I.
Defined.

(** ** Spans of parse trees *)

Lemma sum_token_counts_app (a b : list Tree) :
  sum_token_counts (a ++ b) = sum_token_counts a + sum_token_counts b.
Proof.
  unfold sum_token_counts. now rewrite map_app, list_sum_app.
Qed.

Lemma contiguous_app (a : list Tree) : forall start b,
  contiguous start (a ++ b) <->
  contiguous start a /\ contiguous (start + sum_token_counts a) b.
Proof.
  induction a as [|t a IH]; intros start b; simpl.
  - unfold sum_token_counts. simpl. rewrite Nat.add_0_r. tauto.
  - rewrite IH. unfold sum_token_counts. simpl.
    rewrite Nat.add_assoc. tauto.
Qed.

Lemma collected_nil (n start : nat) : collected n start [] start.
Proof.
  unfold collected, sum_token_counts. simpl.
  repeat split; auto.
Qed.

Lemma collected_snoc (n start : nat) sub_trees child_offset parsed :
  collected n start sub_trees child_offset ->
  parsed_at n child_offset parsed ->
  collected n start (sub_trees ++ [parsed]) (child_offset + token_count parsed).
Proof.
  intros (Hcont & Hoff & Hwf & Hrange) (Hstart & Hparsed & Hend).
  unfold collected. repeat split.
  - apply contiguous_app. split; [exact Hcont|].
    simpl. split; [lia|exact I].
  - rewrite sum_token_counts_app. unfold sum_token_counts at 2. simpl. lia.
  - apply Forall_app. split; [exact Hwf|]. constructor; [exact Hparsed|constructor].
  - lia.
Qed.

(** The tree a loop builds from what it collected. *)
Lemma collected_tree (n start : nat) sub_trees child_offset token_type :
  collected n start sub_trees child_offset ->
  parsed_at n start (mkTree start (child_offset - start) token_type sub_trees).
Proof.
  intros (Hcont & Hoff & Hwf & Hrange).
  split; [reflexivity|split].
  - constructor; [|exact Hwf].
    intros _. simpl. split; [exact Hcont|lia].
  - simpl. lia.
Qed.

(** The tree that wraps one parsed child and takes over its span. *)
Lemma wrapped_tree (n off : nat) parsed token_type :
  parsed_at n off parsed ->
  parsed_at n off
    (mkTree (token_offset parsed) (token_count parsed) token_type [parsed]).
Proof.
  intros (Hstart & Hwf & Hend).
  split; [exact Hstart|split].
  - constructor; simpl.
    + intros _. unfold sum_token_counts. simpl. repeat split; auto.
    + constructor; [exact Hwf|constructor].
  - exact Hend.
Qed.

Lemma leaf_tree (n off count : nat) token_type :
  count = 0 \/ off + count <= n ->
  parsed_at n off (mkTree off count token_type []).
Proof.
  intros H. split; [reflexivity|split].
  - constructor; simpl; [|constructor].
    intros Hne. now contradiction Hne.
  - exact H.
Qed.

Section EngineSpans.
Import Engine.
Variable self : Parser.
Let n := len (tokens self).

Section Callee.
Variable f : Expression -> nat -> Result Tree.
Hypothesis Hf : callee_parsed_at n f.

Lemma concatenation_loop_collects (cs : list Expression) :
  forall start sub_trees child_offset sub_trees' child_offset',
    collected n start sub_trees child_offset ->
    concatenation_loop f cs sub_trees child_offset
      = Return (sub_trees', child_offset') ->
    collected n start sub_trees' child_offset'.
Proof.
  induction cs as [|c cs IH];
    intros start sub_trees child_offset sub_trees' child_offset' Hcol; simpl.
  - intros H. inversion H; subst. exact Hcol.
  - destruct (f c child_offset) as [parsed|e|] eqn:Hc; simpl; try discriminate.
    apply IH. apply collected_snoc; [exact Hcol|]. eapply Hf; exact Hc.
Qed.

Lemma repeat_loop_collects (fuel : nat) :
  forall c start sub_trees child_offset sub_trees' child_offset',
    collected n start sub_trees child_offset ->
    repeat_loop f fuel c sub_trees child_offset
      = Return (sub_trees', child_offset') ->
    collected n start sub_trees' child_offset'.
Proof.
  induction fuel as [|fuel IH];
    intros c start sub_trees child_offset sub_trees' child_offset' Hcol; simpl;
    [discriminate|].
  destruct (f c child_offset) as [parsed|e|] eqn:Hc; try discriminate.
  - apply IH. apply collected_snoc; [exact Hcol|]. eapply Hf; exact Hc.
  - destruct e; try discriminate.
    intros H. inversion H; subst. exact Hcol.
Qed.
End Callee.

Lemma _parse_parsed_at (fuel : nat) : callee_parsed_at n (_parse self fuel).
Proof.
  induction fuel as [|fuel IH]; intros expr offset t; simpl; [discriminate|].
  destruct (len (tokens self) <=? offset) eqn:Hend.
  - destruct expr; try discriminate; intros H; inversion H; subst;
      apply leaf_tree; now left.
  - apply Nat.leb_gt in Hend.
    destruct expr as [cs|cs|k|c|c|k].
    + unfold _parse_concatenation.
      destruct (concatenation_loop _ cs [] offset) as [[subs off]|e|] eqn:Hloop;
        simpl; try discriminate.
      intros H. inversion H; subst. apply collected_tree.
      eapply concatenation_loop_collects; [exact IH|apply collected_nil|exact Hloop].
    + unfold _parse_conjunction.
      destruct (conjunction_loop _ cs offset) as [[parsed|]|e|] eqn:Hloop;
        simpl; try discriminate.
      intros H. inversion H; subst. apply wrapped_tree.
      clear H. induction cs as [|c cs IHcs]; simpl in Hloop; [discriminate|].
      destruct (_parse self fuel c offset) as [p|e|] eqn:Hc; try discriminate.
      * inversion Hloop; subst. eapply IH; exact Hc.
      * destruct e; try discriminate. now apply IHcs.
    + unfold _parse_non_terminal.
      destruct (dict_get _ _) as [expansion|]; [|discriminate].
      destruct (_parse self fuel expansion offset) as [p|e|] eqn:Hc; simpl;
        try discriminate.
      intros H. inversion H; subst. apply wrapped_tree. eapply IH; exact Hc.
    + unfold _parse_optional.
      destruct (_parse self fuel c offset) as [p|e|] eqn:Hc; try discriminate.
      * intros H. inversion H; subst.
        pose proof (IH c offset p Hc) as Hp.
        replace (token_count p) with (offset + token_count p - offset) by lia.
        apply collected_tree.
        apply (collected_snoc (collected_nil n offset) Hp).
      * destruct e; try discriminate.
        intros H. inversion H; subst. apply leaf_tree. now left.
    + unfold _parse_repeat.
      destruct (repeat_loop _ fuel c [] offset) as [[subs off]|e|] eqn:Hloop;
        simpl; try discriminate.
      intros H. inversion H; subst. apply collected_tree.
      eapply repeat_loop_collects; [exact IH|apply collected_nil|exact Hloop].
    + unfold _parse_terminal.
      destruct (nth_error (tokens self) offset) as [token|]; [|discriminate].
      destruct (negb _); [discriminate|].
      intros H. inversion H; subst. apply leaf_tree. right. unfold n. lia.
Qed.
End EngineSpans.

Section CombinatorsSpans.
Import Combinators.
Variable tokens : list Token.
Variable non_terminal_rules : Dict Parser.
Let n := len tokens.

Section Callee.
Variable f : Parser -> nat -> Result Tree.
Hypothesis Hf : callee_parsed_at n f.

Lemma parser_concatenation_loop_collects (cs : list Parser) :
  forall start sub_trees child_offset sub_trees' child_offset',
    collected n start sub_trees child_offset ->
    concatenation_loop f cs sub_trees child_offset
      = Return (sub_trees', child_offset') ->
    collected n start sub_trees' child_offset'.
Proof.
  induction cs as [|c cs IH];
    intros start sub_trees child_offset sub_trees' child_offset' Hcol; simpl.
  - intros H. inversion H; subst. exact Hcol.
  - destruct (f c child_offset) as [parsed|e|] eqn:Hc; simpl; try discriminate.
    apply IH. apply collected_snoc; [exact Hcol|]. eapply Hf; exact Hc.
Qed.

Lemma parser_repeat_loop_collects (fuel : nat) :
  forall c start sub_trees child_offset sub_trees' child_offset',
    collected n start sub_trees child_offset ->
    repeat_loop f fuel c sub_trees child_offset
      = Return (sub_trees', child_offset') ->
    collected n start sub_trees' child_offset'.
Proof.
  induction fuel as [|fuel IH];
    intros c start sub_trees child_offset sub_trees' child_offset' Hcol; simpl;
    [discriminate|].
  destruct (f c child_offset) as [parsed|e|] eqn:Hc; try discriminate.
  - apply IH. apply collected_snoc; [exact Hcol|]. eapply Hf; exact Hc.
  - destruct e; try discriminate.
    intros H. inversion H; subst. exact Hcol.
Qed.

Lemma or_loop_parsed_at (cs : list Parser) :
  forall offset longest_parsed longest,
    (forall l, longest_parsed = Some l -> parsed_at n offset l) ->
    or_loop f cs offset longest_parsed = Return (Some longest) ->
    parsed_at n offset longest.
Proof.
  induction cs as [|c cs IH]; intros offset longest_parsed longest Hacc; simpl.
  - intros H. inversion H; subst. now apply Hacc.
  - destruct (f c offset) as [parsed|e|] eqn:Hc; try discriminate.
    + assert (Hp : parsed_at n offset parsed) by (eapply Hf; exact Hc).
      destruct longest_parsed as [l|].
      * destruct (token_count l <? token_count parsed); apply IH;
          intros l' Hl'; inversion Hl'; subst; auto.
      * apply IH. intros l' Hl'. inversion Hl'; subst; auto.
    + destruct e; try discriminate. now apply IH.
Qed.
End Callee.

Lemma parse_parsed_at (fuel : nat) :
  callee_parsed_at n (parse fuel tokens non_terminal_rules).
Proof.
  induction fuel as [|fuel IH]; intros parser offset t; simpl; [discriminate|].
  destruct parser as [tt cs|tt c m|tt c|tt cs|tt|tt|tt lit].
  - unfold OrParser_parse.
    destruct (or_loop _ cs offset None) as [[longest|]|e|] eqn:Hloop; simpl;
      try discriminate.
    intros H. inversion H; subst. apply wrapped_tree.
    eapply or_loop_parsed_at; [exact IH| |exact Hloop]. discriminate.
  - unfold RepeatParser_parse.
    destruct (repeat_loop _ fuel c [] offset) as [[subs off]|e|] eqn:Hloop;
      simpl; try discriminate.
    destruct (Z.of_nat (len subs) <? m)%Z; [discriminate|].
    intros H. inversion H; subst. apply collected_tree.
    eapply parser_repeat_loop_collects; [exact IH|apply collected_nil|exact Hloop].
  - unfold OptionalParser_parse.
    destruct (parse fuel tokens non_terminal_rules c offset) as [p|e|] eqn:Hc;
      try discriminate.
    + intros H. inversion H; subst.
      pose proof (IH c offset p Hc) as Hp.
      replace (token_count p) with (offset + token_count p - offset) by lia.
      apply collected_tree.
      apply (collected_snoc (collected_nil n offset) Hp).
    + destruct e; try discriminate.
      intros H. inversion H; subst. apply leaf_tree. now left.
  - unfold ConcatenationParser_parse.
    destruct (concatenation_loop _ cs [] offset) as [[subs off]|e|] eqn:Hloop;
      simpl; try discriminate.
    intros H. inversion H; subst. apply collected_tree.
    eapply parser_concatenation_loop_collects;
      [exact IH|apply collected_nil|exact Hloop].
  - unfold TerminalParser_parse.
    destruct (nth_error tokens offset) as [token|] eqn:Htok; [|discriminate].
    destruct (type_differs _ _); [discriminate|].
    destruct (assert_truthy tt); simpl; try discriminate.
    intros H. inversion H; subst. apply leaf_tree. right.
    assert (offset < len tokens) by (apply nth_error_Some; congruence).
    unfold n. lia.
  - unfold NonTerminalParser_parse.
    destruct (assert_truthy tt) as [k| |]; simpl; try discriminate.
    destruct (dict_get _ _) as [rule|]; [|discriminate].
    apply IH.
  - unfold LiteralParser_parse.
    destruct (keys non_terminal_rules) as [|first_key ?]; [discriminate|].
    destruct (enum_getitem _ _) as [entry|]; [|discriminate].
    destruct (dict_get _ _) as [rule|]; [|discriminate].
    apply IH.
Qed.
End CombinatorsSpans.

Lemma contiguous_child_within (cs : list Tree) : forall start c,
  contiguous start cs -> In c cs ->
  start <= token_offset c /\
  token_offset c + token_count c <= start + sum_token_counts cs.
Proof.
  induction cs as [|t cs IH]; intros start c Hcont []; simpl in Hcont;
    destruct Hcont as [Hstart Hrest]; unfold sum_token_counts; simpl.
  - subst. lia.
  - destruct (IH _ _ Hrest H) as [H1 H2].
    unfold sum_token_counts in H2. lia.
Qed.

Lemma well_formed_subtrees (t : Tree) :
  well_formed t -> forall s, In s (subtrees t) -> well_formed s.
Proof.
  induction t as [o c ty cs IH] using Tree_forall_ind.
  intros Hwf s [<- | Hin]; [exact Hwf|].
  inversion Hwf as [? _ Hcs]; subst. simpl in Hcs, Hin.
  apply in_flat_map in Hin. destruct Hin as [child [Hchild Hs]].
  rewrite Forall_forall in IH, Hcs. eauto.
Qed.

Lemma well_formed_span_within (t : Tree) :
  well_formed t -> forall d, In d (subtrees t) -> span_within d t.
Proof.
  induction t as [o c ty cs IH] using Tree_forall_ind.
  intros Hwf d [<- | Hin]; [unfold span_within; lia|].
  inversion Hwf as [? Hnode Hcs]; subst. simpl in Hcs, Hin, Hnode.
  apply in_flat_map in Hin. destruct Hin as [child [Hchild Hd]].
  rewrite Forall_forall in IH, Hcs.
  pose proof (IH child Hchild (Hcs child Hchild) d Hd) as [H1 H2].
  unfold node_invariant in Hnode. simpl in Hnode.
  destruct Hnode as [Hcont Hsum]; [intros ->; contradiction|].
  destruct (contiguous_child_within _ _ _ Hcont Hchild) as [H3 H4].
  unfold span_within. simpl. lia.
Qed.

(** C8.  Every node of a tree that [Parser._parse] or a combinator's
    [parse] returns (a successful parse, before pruning) satisfies: when the
    node has children, their spans are contiguous from the node's
    [token_offset] and their [token_count] values add up to the node's; and
    the span of every node lies within the span of each of its ancestors. *)
Theorem parse_tree_spans :
  (forall self fuel expr offset tree,
      Engine._parse self fuel expr offset = Return tree ->
      forall node, In node (subtrees tree) ->
        node_invariant node /\
        forall descendant, In descendant (subtrees node) ->
          span_within descendant node)
  /\ (forall fuel tokens rules parser offset tree,
        Combinators.parse fuel tokens rules parser offset = Return tree ->
        forall node, In node (subtrees tree) ->
          node_invariant node /\
          forall descendant, In descendant (subtrees node) ->
            span_within descendant node).
Proof.
  assert (Hwf : forall tree, well_formed tree ->
            forall node, In node (subtrees tree) ->
              node_invariant node /\
              forall descendant, In descendant (subtrees node) ->
                span_within descendant node).
  { intros tree Htree node Hnode.
    pose proof (well_formed_subtrees Htree node Hnode) as Hn.
    split; [now inversion Hn|]. now apply well_formed_span_within. }
  split.
  - intros self fuel expr offset tree Hparse. apply Hwf.
    now destruct (_parse_parsed_at self fuel _ _ Hparse) as (_ & H & _).
  - intros fuel tokens rules parser offset tree Hparse. apply Hwf.
    now destruct (parse_parsed_at tokens rules fuel _ _ Hparse) as (_ & H & _).
Qed.

Lemma parse_tree_spans_witness :
  Engine._parse sample_engine 3 long_alternative 0 = Return tree_3_plus_4
  /\ node_invariant tree_3_plus_4
  /\ forall descendant, In descendant (subtrees tree_3_plus_4) ->
       span_within descendant tree_3_plus_4.
Proof.
  split; [reflexivity|].
  apply (proj1 parse_tree_spans sample_engine 3 long_alternative 0
           tree_3_plus_4 eq_refl tree_3_plus_4).
  simpl. left. reflexivity.
Defined.

(** X2.  The completion check of the older [parse_generic] compares the consumed
    token count with [len(code)].  For a token list no longer than the
    source text (every token of [tokenize] has at least one character) it
    agrees with C3: a root parse that leaves tokens unconsumed raises the
    error located at the first unconsumed token, and a parse that returns
    has consumed every token. *)
Lemma parse_generic_completion_check :
  forall fuel rules tokens code hard soft root_token E root_symbol p tree,
    Combinators._check_non_terminal_rules rules = Return E ->
    enum_getitem E root_token = Some root_symbol ->
    dict_get rules root_symbol = Some p ->
    let p' := if negb (Combinators.is_NonTerminalParser p)
              then Combinators.with_token_type p (Some root_symbol) else p in
    Combinators.parse fuel tokens (Combinators.dict_set rules root_symbol p') p' 0
      = Return tree ->
    len tokens <= String.length code ->
    (token_count tree < len tokens ->
       exists first_unconsumed e,
         nth_error tokens (token_count tree) = Some first_unconsumed /\
         Combinators.humanize_parse_error code tokens (token_count tree)
           = Return e /\
         Combinators.parse_generic fuel rules tokens code hard soft root_token
           = Raise e)
    /\ (forall result,
          Combinators.parse_generic fuel rules tokens code hard soft root_token
            = Return result ->
          token_count tree = len tokens).
Proof.
  intros fuel rules tokens code hard soft root_token E root_symbol p tree
    Hcheck Hroot Hp p' Hparse Hlen.
  assert (Hcount : token_count tree <= len tokens).
  { destruct (parse_parsed_at tokens _ fuel _ _ Hparse) as (_ & _ & Hend). lia. }
  unfold Combinators.parse_generic. rewrite Hcheck. simpl.
  rewrite Hroot, Hp. fold p'. rewrite Hparse. simpl.
  split.
  - intros Hlt.
    destruct (nth_error_in_bounds _ Hlt) as [token Htok].
    assert (Hne : (token_count tree =? String.length code) = false)
      by (apply Nat.eqb_neq; lia).
    rewrite Hne. simpl.
    unfold Combinators.humanize_parse_error. rewrite Htok. simpl.
    eexists _, _. repeat split; reflexivity.
  - intros result.
    destruct (token_count tree =? String.length code) eqn:Heq; simpl.
    + intros _. apply Nat.eqb_eq in Heq. lia.
    + unfold Combinators.humanize_parse_error.
      destruct (nth_error tokens (token_count tree)); simpl; discriminate.
Qed.

(** The same check on the text ["3 + 4"], whose blanks give no token: the
    root consumes all three tokens, 3 differs from the 5 characters of the
    text, and locating the error indexes past the last token. *)
Lemma parse_generic_counts_characters :
  Combinators.parse_generic 3 Sample.combinator_rules
    [mkToken Sample.NUMBER 0 1; mkToken Sample.PLUS 2 1; mkToken Sample.NUMBER 4 1]
    "3 + 4" None None "ROOT"
  = Raise Combinators.IndexError.
Proof. reflexivity. Qed.

(** ** Repetition *)

Section EngineRepeat.
Import Engine.
Variable self : Parser.
Variable child : Expression.

Hypothesis child_terminates :
  forall off, exists fuel, terminates (_parse self fuel child off).
Hypothesis child_consumes :
  forall fuel off t, _parse self fuel child off = Return t -> 0 < token_count t.

(** From any state of the loop, some fuel for the child and some number of
    turns bring the loop to its end. *)
Lemma repeat_loop_terminates (k : nat) :
  forall child_offset children,
    len (tokens self) + 1 - child_offset <= k ->
    exists fuel turns,
      forall fuel' turns', fuel <= fuel' -> turns <= turns' ->
        terminates
          (repeat_loop (_parse self fuel') turns' child children child_offset).
Proof.
  induction k as [|k IH]; intros child_offset children Hk.
  - destruct (child_terminates child_offset) as [fuel Hfuel].
    destruct (_parse self fuel child child_offset) as [t|e|] eqn:Hc.
    + pose proof (child_consumes _ _ Hc) as Hpos.
      destruct (_parse_parsed_at self fuel _ _ Hc) as (_ & _ & Hend). lia.
    + exists fuel, 1. intros fuel' turns' Hfuel' Hturns'.
      destruct turns' as [|turns']; [lia|]. simpl.
      rewrite (@EngineFuel._parse_more_fuel self fuel fuel' child child_offset
                 (Raise e) Hc); [|discriminate|lia].
      destruct e; discriminate.
    + now contradiction Hfuel.
  - destruct (child_terminates child_offset) as [fuel Hfuel].
    destruct (_parse self fuel child child_offset) as [t|e|] eqn:Hc.
    + pose proof (child_consumes _ _ Hc) as Hpos.
      destruct (_parse_parsed_at self fuel _ _ Hc) as (_ & _ & Hend).
      destruct (IH (child_offset + token_count t) (children ++ [t]))
        as (fuel1 & turns1 & Hrest); [lia|].
      exists (Nat.max fuel fuel1), (S turns1).
      intros fuel' turns' Hfuel' Hturns'.
      destruct turns' as [|turns']; [lia|]. simpl.
      rewrite (@EngineFuel._parse_more_fuel self fuel fuel' child child_offset
                 (Return t) Hc); [|discriminate|lia].
      apply Hrest; lia.
    + exists fuel, 1. intros fuel' turns' Hfuel' Hturns'.
      destruct turns' as [|turns']; [lia|]. simpl.
      rewrite (@EngineFuel._parse_more_fuel self fuel fuel' child child_offset
                 (Raise e) Hc); [|discriminate|lia].
      destruct e; discriminate.
    + now contradiction Hfuel.
Qed.

Lemma _parse_repeat_terminates (offset : nat) :
  exists fuel, terminates (_parse self fuel (RepeatExpression child) offset).
Proof.
  destruct (repeat_loop_terminates (k := len (tokens self) + 1 - offset)
              offset [] (le_n _)) as (fuel & turns & Hloop).
  exists (S (Nat.max fuel turns)). simpl.
  destruct (len (tokens self) <=? offset); [discriminate|].
  unfold _parse_repeat.
  specialize (Hloop (Nat.max fuel turns) (Nat.max fuel turns)
                (Nat.le_max_l _ _) (Nat.le_max_r _ _)).
  destruct (repeat_loop _ _ _ _ _) as [[subs off]|e|]; simpl;
    [discriminate|discriminate|now contradiction Hloop].
Qed.
End EngineRepeat.

Section CombinatorsRepeat.
Import Combinators.
Variable tokens : list Token.
Variable non_terminal_rules : Dict Parser.
Variable child : Parser.

Hypothesis child_terminates :
  forall off, exists fuel,
    terminates (parse fuel tokens non_terminal_rules child off).
Hypothesis child_consumes :
  forall fuel off t,
    parse fuel tokens non_terminal_rules child off = Return t ->
    0 < token_count t.

Lemma parser_repeat_loop_terminates (k : nat) :
  forall child_offset sub_trees,
    len tokens + 1 - child_offset <= k ->
    exists fuel turns,
      forall fuel' turns', fuel <= fuel' -> turns <= turns' ->
        terminates
          (repeat_loop (parse fuel' tokens non_terminal_rules) turns' child
             sub_trees child_offset).
Proof.
  induction k as [|k IH]; intros child_offset sub_trees Hk;
    destruct (child_terminates child_offset) as [fuel Hfuel];
    destruct (parse fuel tokens non_terminal_rules child child_offset)
      as [t|e|] eqn:Hc;
    try (now contradiction Hfuel);
    try (exists fuel, 1; intros fuel' turns' Hfuel' Hturns';
         destruct turns' as [|turns']; [lia|]; simpl;
         rewrite (@CombinatorsFuel.parse_more_fuel tokens non_terminal_rules
                    fuel fuel' child child_offset (Raise e) Hc);
         [|discriminate|lia];
         destruct e; discriminate);
    pose proof (child_consumes _ _ Hc) as Hpos;
    destruct (parse_parsed_at tokens non_terminal_rules fuel _ _ Hc)
      as (_ & _ & Hend).
  - lia.
  - destruct (IH (child_offset + token_count t) (sub_trees ++ [t]))
      as (fuel1 & turns1 & Hrest); [lia|].
    exists (Nat.max fuel fuel1), (S turns1).
    intros fuel' turns' Hfuel' Hturns'.
    destruct turns' as [|turns']; [lia|]. simpl.
    rewrite (@CombinatorsFuel.parse_more_fuel tokens non_terminal_rules
               fuel fuel' child child_offset (Return t) Hc);
      [|discriminate|lia].
    apply Hrest; lia.
Qed.

Lemma RepeatParser_parse_terminates token_type min_repeats (offset : nat) :
  exists fuel,
    terminates
      (parse fuel tokens non_terminal_rules
         (RepeatParser token_type child min_repeats) offset).
Proof.
  destruct (parser_repeat_loop_terminates (k := len tokens + 1 - offset)
              offset [] (le_n _)) as (fuel & turns & Hloop).
  exists (S (Nat.max fuel turns)). simpl.
  unfold RepeatParser_parse.
  specialize (Hloop (Nat.max fuel turns) (Nat.max fuel turns)
                (Nat.le_max_l _ _) (Nat.le_max_r _ _)).
  destruct (repeat_loop _ _ _ _ _) as [[subs off]|e|]; simpl;
    [|discriminate|now contradiction Hloop].
  destruct (Z.of_nat (len subs) <? min_repeats)%Z; discriminate.
Qed.
End CombinatorsRepeat.

(** The loop of [RepeatParser.parse] catches every [InternalParseError]. *)
Lemma parser_repeat_loop_catches f (fuel : nat) :
  forall child sub_trees child_offset o ty,
    Combinators.repeat_loop f fuel child sub_trees child_offset
    <> Raise (Combinators.InternalParseError o ty).
Proof.
  induction fuel as [|fuel IH]; intros child sub_trees child_offset o ty; simpl;
    [discriminate|].
  destruct (f child child_offset) as [t|e|]; [apply IH| |discriminate].
  destruct e; discriminate.
Qed.

(** What [RepeatParser.parse] gives back once its loop has ended. *)
Lemma RepeatParser_parse_result fuel tokens rules token_type child min_repeats
    offset :
  let r := Combinators.parse fuel tokens rules
             (Combinators.RepeatParser token_type child min_repeats) offset in
  (forall t, r = Return t ->
     token_offset t = offset /\ (min_repeats <= Z.of_nat (len (children t)))%Z)
  /\ (forall o ty, r = Raise (Combinators.InternalParseError o ty) ->
        o = offset /\ ty = Combinators.token_type_of child).
Proof.
  destruct fuel as [|fuel]; simpl; [split; intros; discriminate|].
  unfold Combinators.RepeatParser_parse.
  destruct (Combinators.repeat_loop _ fuel child [] offset)
    as [[subs off]|e|] eqn:Hloop; simpl.
  - destruct (Z.of_nat (len subs) <? min_repeats)%Z eqn:Hmin; split.
    + discriminate.
    + intros o ty H. inversion H; subst. auto.
    + intros t H. inversion H; subst. simpl.
      apply Z.ltb_ge in Hmin. auto.
    + discriminate.
  - split; [discriminate|]. intros o ty H. inversion H; subst.
    now apply parser_repeat_loop_catches in Hloop.
  - split; discriminate.
Qed.




(** ** Tokenizing *)

Section TokenizeStuck.
Import Combinators.
Variable code : string.
Variable terminal_rules : list (IntEnum * RegexTokenizer).
Variable pruned_terminals : list IntEnum.

Lemma rules_loop_no_match (rules : list (IntEnum * RegexTokenizer)) tokens offset :
  (forall token_type tokenizer, In (token_type, tokenizer) rules ->
     RegexTokenizer_tokenize tokenizer code offset = None) ->
  rules_loop code pruned_terminals rules tokens offset = (tokens, offset).
Proof.
  induction rules as [|[token_type tokenizer] rest IH]; intros Hnone; simpl;
    [reflexivity|].
  rewrite (Hnone token_type tokenizer (or_introl eq_refl)).
  apply IH. intros t r Hin. apply (Hnone t r). now right.
Qed.

(** At an offset where no rule matches, the loop stays where it is. *)
Lemma tokenize_loop_stuck tokens offset :
  offset < String.length code ->
  no_rule_matches code terminal_rules offset ->
  forall fuel,
    tokenize_loop code terminal_rules pruned_terminals fuel tokens offset
    = OutOfFuel.
Proof.
  intros Hlt Hnone fuel. induction fuel as [|fuel IH]; simpl; [reflexivity|].
  apply Nat.ltb_lt in Hlt. rewrite Hlt.
  now rewrite (rules_loop_no_match terminal_rules tokens offset Hnone).
Qed.

(** A loop that does not return from a state the scan reaches does not
    return from the start. *)
Lemma scan_reaches_stuck tokens offset :
  scan_reaches code terminal_rules pruned_terminals tokens offset ->
  (forall fuel,
      tokenize_loop code terminal_rules pruned_terminals fuel tokens offset
      = OutOfFuel) ->
  forall fuel, tokenize code terminal_rules pruned_terminals fuel = OutOfFuel.
Proof.
  intros Hreach. induction Hreach as [|tokens offset tokens' offset' _ IH Hlt Hstep];
    intros Hstuck; [exact Hstuck|].
  apply IH. intros [|fuel]; simpl; [reflexivity|].
  apply Nat.ltb_lt in Hlt. rewrite Hlt, Hstep. apply Hstuck.
Qed.
End TokenizeStuck.

(** C2, where [tokenize] departs from the claim.  With the single rule
    [NUMBER = "3"] and the text ["3+"], the scan emits the token of ["3"],
    reaches offset 1 where no rule matches, and stays there: no fuel gives a
    result, so no error is raised.  And with the single rule
    [NUMBER = "3+"] no rule matches at offset 1 of the same text either, an
    offset the scan never stands at, and [tokenize] returns the complete
    token list. *)
Lemma tokenize_without_matching_rule :
  1 < String.length "3+"
  /\ no_rule_matches "3+" [(Sample.NUMBER, literal_regex "3")] 1
  /\ (forall fuel pruned_terminals,
        Combinators.tokenize "3+" [(Sample.NUMBER, literal_regex "3")]
          pruned_terminals fuel = OutOfFuel)
  /\ no_rule_matches "3+" [(Sample.NUMBER, literal_regex "3+")] 1
  /\ Combinators.tokenize "3+" [(Sample.NUMBER, literal_regex "3+")] [] 2
     = Return [mkToken Sample.NUMBER 0 2].
Proof.
  assert (Hnone : forall text,
            text = "3"%string \/ text = "3+"%string ->
            no_rule_matches "3+" [(Sample.NUMBER, literal_regex text)] 1).
  { intros text Htext token_type tokenizer [Hin | []].
    inversion Hin; subst. destruct Htext; subst; reflexivity. }
  repeat apply conj.
  - simpl. lia.
  - apply Hnone. now left.
  - intros fuel pruned_terminals. revert fuel.
    eapply scan_reaches_stuck.
    + eapply scan_turn; [apply scan_start | simpl; lia | reflexivity].
    + intros fuel. apply tokenize_loop_stuck; [simpl; lia|].
      apply Hnone. now left.
  - apply Hnone. now right.
  - reflexivity.
Qed.

(** C2, amended.  If the scan of [tokenize] reaches an offset strictly
    before the end of the text at which no rule's pattern matches a
    non-empty prefix, then [tokenize] returns no token list, partial or
    complete, whatever the fuel. *)
Theorem tokenize_never_returns_partial :
  forall code terminal_rules pruned_terminals tokens offset,
    scan_reaches code terminal_rules pruned_terminals tokens offset ->
    offset < String.length code ->
    no_rule_matches code terminal_rules offset ->
    forall fuel,
      Combinators.tokenize code terminal_rules pruned_terminals fuel = OutOfFuel.
Proof.
  intros code terminal_rules pruned_terminals tokens offset Hreach Hlt Hnone.
  apply (scan_reaches_stuck Hreach).
  now apply tokenize_loop_stuck.
Qed.

Lemma tokenize_never_returns_partial_witness :
  1 < String.length "3+"
  /\ no_rule_matches "3+" [(Sample.NUMBER, literal_regex "3")] 1
  /\ forall fuel,
       Combinators.tokenize "3+" [(Sample.NUMBER, literal_regex "3")] [] fuel
       = OutOfFuel.
Proof.
  assert (Hlt : 1 < String.length "3+") by (simpl; lia).
  assert (Hnone : no_rule_matches "3+" [(Sample.NUMBER, literal_regex "3")] 1).
  { intros token_type tokenizer [Hin | []]. inversion Hin. reflexivity. }
  split; [exact Hlt|split; [exact Hnone|]].
  apply (@tokenize_never_returns_partial "3+"
           [(Sample.NUMBER, literal_regex "3")] []
           [mkToken Sample.NUMBER 0 1] 1); [|exact Hlt|exact Hnone].
  apply (@scan_turn "3+" [(Sample.NUMBER, literal_regex "3")] [] [] 0
           [mkToken Sample.NUMBER 0 1] 1).
  - apply scan_start.
  - simpl. lia.
  - reflexivity.
Defined.

(** ** Pruning *)

Lemma subsequence_refl {A} (l : list A) : subsequence l l.
Proof.
  induction l; [apply subsequence_nil|now apply subsequence_keep].
Qed.

Lemma subsequence_app {A} (a a' b b' : list A) :
  subsequence a a' -> subsequence b b' -> subsequence (a ++ b) (a' ++ b').
Proof.
  intros Ha Hb. induction Ha; simpl;
    [exact Hb | now apply subsequence_skip | now apply subsequence_keep].
Qed.

Lemma subsequence_trans {A} (l2 : list A) : forall l1 l3,
  subsequence l1 l2 -> subsequence l2 l3 -> subsequence l1 l3.
Proof.
  intros l1 l3 H12 H23. revert l1 H12.
  induction H23 as [|x l2 l3 _ IH|x l2 l3 _ IH]; intros l1 H12.
  - exact H12.
  - constructor. now apply IH.
  - inversion H12; subst.
    + apply subsequence_skip. now apply IH.
    + apply subsequence_keep. now apply IH.
Qed.

Lemma replace_children_id (t : Tree) : replace_children t (children t) = t.
Proof. now destruct t. Qed.

Lemma subtrees_unfold (t : Tree) : subtrees t = t :: descendants t.
Proof. now destruct t. Qed.

Lemma descendants_replace_children (t : Tree) (cs : list Tree) :
  descendants (replace_children t cs) = flat_map subtrees cs.
Proof. reflexivity. Qed.

Section Elision.
Variable drop : Tree -> bool.
Hypothesis drop_header : header_only drop.

Lemma splice_clean (t : Tree) :
  Forall (fun d => drop d = false) (flat_map subtrees (splice drop t)).
Proof.
  induction t as [o c ty cs IH] using Tree_forall_ind. simpl.
  induction IH as [|child cs Hchild _ IHcs]; simpl; [constructor|].
  rewrite flat_map_app. apply Forall_app. split; [|exact IHcs].
  destruct (drop child) eqn:Hdrop; [exact Hchild|].
  simpl. rewrite app_nil_r. constructor; [|exact Hchild].
  exact (eq_trans (drop_header child _) Hdrop).
Qed.

Lemma remove_clean (t : Tree) :
  Forall (fun d => drop d = false) (flat_map subtrees (remove drop t)).
Proof.
  induction t as [o c ty cs IH] using Tree_forall_ind. simpl.
  induction IH as [|child cs Hchild _ IHcs]; simpl; [constructor|].
  rewrite flat_map_app. apply Forall_app. split; [|exact IHcs].
  destruct (drop child) eqn:Hdrop; [constructor|].
  simpl. rewrite app_nil_r. constructor; [|exact Hchild].
  exact (eq_trans (drop_header child _) Hdrop).
Qed.

Lemma splice_id (t : Tree) : clean drop t -> splice drop t = children t.
Proof.
  unfold clean, descendants.
  induction t as [o c ty cs IH] using Tree_forall_ind. simpl.
  induction IH as [|child cs Hchild _ IHcs]; simpl; [reflexivity|].
  intros Hclean. rewrite subtrees_unfold in Hclean. simpl in Hclean.
  inversion Hclean as [|? ? Hd Hrest]; subst.
  apply Forall_app in Hrest. destruct Hrest as [Hsub Hrest].
  rewrite Hd, (Hchild Hsub), replace_children_id. simpl.
  now rewrite (IHcs Hrest).
Qed.

Lemma remove_id (t : Tree) : clean drop t -> remove drop t = children t.
Proof.
  unfold clean, descendants.
  induction t as [o c ty cs IH] using Tree_forall_ind. simpl.
  induction IH as [|child cs Hchild _ IHcs]; simpl; [reflexivity|].
  intros Hclean. rewrite subtrees_unfold in Hclean. simpl in Hclean.
  inversion Hclean as [|? ? Hd Hrest]; subst.
  apply Forall_app in Hrest. destruct Hrest as [Hsub Hrest].
  rewrite Hd, (Hchild Hsub), replace_children_id. simpl.
  now rewrite (IHcs Hrest).
Qed.

Variable p : Tree -> bool.
Hypothesis p_header : header_only p.

Lemma splice_keeps_clean (t : Tree) :
  clean p t -> Forall (fun d => p d = false) (flat_map subtrees (splice drop t)).
Proof.
  unfold clean, descendants.
  induction t as [o c ty cs IH] using Tree_forall_ind. simpl.
  induction IH as [|child cs Hchild _ IHcs]; simpl; [constructor|].
  intros Hclean. rewrite subtrees_unfold in Hclean. simpl in Hclean.
  inversion Hclean as [|? ? Hd Hrest]; subst.
  apply Forall_app in Hrest. destruct Hrest as [Hsub Hrest].
  rewrite flat_map_app. apply Forall_app. split; [|now apply IHcs].
  destruct (drop child); [now apply Hchild|].
  simpl. rewrite app_nil_r. constructor; [|now apply Hchild].
  exact (eq_trans (p_header child _) Hd).
Qed.

Lemma remove_keeps_clean (t : Tree) :
  clean p t -> Forall (fun d => p d = false) (flat_map subtrees (remove drop t)).
Proof.
  unfold clean, descendants.
  induction t as [o c ty cs IH] using Tree_forall_ind. simpl.
  induction IH as [|child cs Hchild _ IHcs]; simpl; [constructor|].
  intros Hclean. rewrite subtrees_unfold in Hclean. simpl in Hclean.
  inversion Hclean as [|? ? Hd Hrest]; subst.
  apply Forall_app in Hrest. destruct Hrest as [Hsub Hrest].
  rewrite flat_map_app. apply Forall_app. split; [|now apply IHcs].
  destruct (drop child); [constructor|].
  simpl. rewrite app_nil_r. constructor; [|now apply Hchild].
  exact (eq_trans (p_header child _) Hd).
Qed.

(** The nodes a stage leaves are nodes of its input, in the same order. *)
Lemma splice_order (t : Tree) :
  subsequence (map header (flat_map subtrees (splice drop t)))
              (map header (descendants t)).
Proof.
  unfold descendants.
  induction t as [o c ty cs IH] using Tree_forall_ind. simpl.
  induction IH as [|child cs Hchild _ IHcs]; simpl; [constructor|].
  rewrite flat_map_app, !map_app.
  apply subsequence_app; [|exact IHcs].
  rewrite (subtrees_unfold child).
  destruct (drop child).
  - apply subsequence_skip. exact Hchild.
  - simpl. rewrite app_nil_r. apply subsequence_keep. exact Hchild.
Qed.

Lemma remove_order (t : Tree) :
  subsequence (map header (flat_map subtrees (remove drop t)))
              (map header (descendants t)).
Proof.
  unfold descendants.
  induction t as [o c ty cs IH] using Tree_forall_ind. simpl.
  induction IH as [|child cs Hchild _ IHcs]; simpl; [constructor|].
  rewrite flat_map_app, !map_app.
  apply subsequence_app; [|exact IHcs].
  rewrite (subtrees_unfold child).
  destruct (drop child).
  - simpl. clear.
    induction (header child :: map header (descendants child));
      constructor; auto.
  - simpl. rewrite app_nil_r. apply subsequence_keep. exact Hchild.
Qed.
End Elision.

Lemma untagged_header : header_only untagged.
Proof. intros t cs. reflexivity. Qed.

Lemma zero_length_header : header_only zero_length.
Proof. intros t cs. reflexivity. Qed.

Lemma has_type_in_header token_types : header_only (has_type_in token_types).
Proof. intros t cs. reflexivity. Qed.

(** The stage functions are instances of [splice] and [remove]. *)
Lemma splice_untagged_engine (t : Tree) :
  Engine._get_descendants_with_token_type t = splice untagged t.
Proof.
  induction t as [o c ty cs IH] using Tree_forall_ind. simpl.
  induction IH as [|child cs Hchild _ IHcs]; simpl; [reflexivity|].
  rewrite IHcs, Hchild. unfold untagged.
  destruct (token_type child); reflexivity.
Qed.

Lemma splice_typed_engine token_types (t : Tree) :
  Engine._get_descendants_without_token_types t token_types
  = splice (has_type_in token_types) t.
Proof.
  induction t as [o c ty cs IH] using Tree_forall_ind. simpl.
  induction IH as [|child cs Hchild _ IHcs]; simpl; [reflexivity|].
  rewrite IHcs, Hchild. reflexivity.
Qed.

Lemma splice_untagged (t : Tree) : tagged_descendants t = splice untagged t.
Proof.
  induction t as [o c ty cs IH] using Tree_forall_ind. simpl.
  induction IH as [|child cs Hchild _ IHcs]; simpl; [reflexivity|].
  rewrite IHcs, Hchild. unfold untagged.
  destruct (token_type child); reflexivity.
Qed.

Lemma remove_zero_length (t : Tree) :
  nonzero_descendants t = remove zero_length t.
Proof.
  induction t as [o c ty cs IH] using Tree_forall_ind. simpl.
  induction IH as [|child cs Hchild _ IHcs]; simpl; [reflexivity|].
  rewrite IHcs, Hchild. reflexivity.
Qed.

Lemma splice_hard token_types (t : Tree) :
  hard_pruned_descendants token_types t = splice (has_type_in token_types) t.
Proof.
  induction t as [o c ty cs IH] using Tree_forall_ind. simpl.
  induction IH as [|child cs Hchild _ IHcs]; simpl; [reflexivity|].
  rewrite IHcs, Hchild. reflexivity.
Qed.

Lemma remove_soft token_types (t : Tree) :
  soft_pruned_descendants token_types t = remove (has_type_in token_types) t.
Proof.
  induction t as [o c ty cs IH] using Tree_forall_ind. simpl.
  induction IH as [|child cs Hchild _ IHcs]; simpl; [reflexivity|].
  rewrite IHcs, Hchild. reflexivity.
Qed.

Lemma nodes_clean (p : Tree -> bool) (l : list Tree) :
  Forall (fun d => p d = false) (flat_map subtrees l) ->
  forall c, In c l -> clean p c.
Proof.
  intros Hall c Hin. unfold clean. rewrite Forall_forall in *.
  intros d Hd. apply Hall. apply in_flat_map. exists c. split; [exact Hin|].
  rewrite subtrees_unfold. now right.
Qed.

Section Stages.
Variable drop : Tree -> bool.
Hypothesis drop_header : header_only drop.

Lemma splice_stage_clean t : clean drop (splice_stage drop t).
Proof. apply splice_clean, drop_header. Qed.

Lemma remove_stage_clean t : clean drop (remove_stage drop t).
Proof. apply remove_clean, drop_header. Qed.

Lemma splice_stage_id t : clean drop t -> splice_stage drop t = t.
Proof.
  intros H. unfold splice_stage. rewrite splice_id by exact H.
  apply replace_children_id.
Qed.

Lemma remove_stage_id t : clean drop t -> remove_stage drop t = t.
Proof.
  intros H. unfold remove_stage. rewrite remove_id by exact H.
  apply replace_children_id.
Qed.

Lemma splice_stage_keeps_clean p t :
  header_only p -> clean p t -> clean p (splice_stage drop t).
Proof. intros Hp H. now apply splice_keeps_clean. Qed.

Lemma remove_stage_keeps_clean p t :
  header_only p -> clean p t -> clean p (remove_stage drop t).
Proof. intros Hp H. now apply remove_keeps_clean. Qed.

Lemma splice_stage_order t :
  subsequence (labels (splice_stage drop t)) (labels t).
Proof.
  unfold labels. rewrite (subtrees_unfold t).
  simpl. apply subsequence_keep. apply splice_order.
Qed.

Lemma remove_stage_order t :
  subsequence (labels (remove_stage drop t)) (labels t).
Proof.
  unfold labels. rewrite (subtrees_unfold t).
  simpl. apply subsequence_keep. apply remove_order.
Qed.
End Stages.

(** [_prune_by_token_types] prunes the children it has just pruned a second
    time, which changes nothing. *)
Lemma _prune_by_token_types_stage (tree : Tree) (token_types : list IntEnum) :
  Engine._prune_by_token_types tree token_types
  = Some (splice_stage (has_type_in token_types) tree).
Proof.
  unfold Engine._prune_by_token_types, splice_stage, replace_children.
  rewrite splice_typed_engine. do 2 f_equal.
  rewrite <- (map_id (splice (has_type_in token_types) tree)) at 2.
  apply map_ext_in. intros child Hin.
  rewrite splice_typed_engine.
  rewrite splice_id.
  - now destruct child.
  - apply (nodes_clean _ (splice (has_type_in token_types) tree));
      [|exact Hin].
    apply splice_clean, has_type_in_header.
Qed.

Lemma engine_prune_stages self root_non_terminal (tree : Tree) :
  Engine.prune self root_non_terminal tree =
    if untagged tree then Raise Engine.AssertionError
    else Return (splice_stage (has_type_in (Engine.pruned_non_terminals self))
                   (splice_stage untagged tree)).
Proof.
  destruct tree as [o c [k|] cs];
    unfold Engine.prune, Engine._prune_no_token_type, untagged;
    cbn [token_type token_offset token_count bind Engine.or_else]; [|reflexivity].
  rewrite _prune_by_token_types_stage, splice_untagged_engine.
  reflexivity.
Qed.

Lemma prune_no_symbol_stage (t : Tree) :
  prune_no_symbol t
  = if untagged t then None else Some (splice_stage untagged t).
Proof.
  unfold prune_no_symbol, untagged, splice_stage. rewrite splice_untagged.
  destruct (token_type t); reflexivity.
Qed.

Lemma prune_zero_length_stage (t : Tree) :
  prune_zero_length t
  = if zero_length t then None else Some (remove_stage zero_length t).
Proof.
  unfold prune_zero_length, remove_stage. now rewrite remove_zero_length.
Qed.

Lemma prune_by_symbol_types_stage (t : Tree) token_types (prune_hard : bool) :
  prune_by_symbol_types t token_types prune_hard
  = if has_type_in token_types t then None
    else Some (if prune_hard then splice_stage (has_type_in token_types) t
               else remove_stage (has_type_in token_types) t).
Proof.
  unfold prune_by_symbol_types, splice_stage, remove_stage.
  rewrite splice_hard, remove_soft. fold (has_type_in token_types t).
  destruct (has_type_in token_types t); [reflexivity|].
  destruct prune_hard; reflexivity.
Qed.

(** A fully pruned tree is a fixed point of the pipeline. *)
Lemma prune_pipeline_fixed hard soft (t : Tree) :
  fully_pruned hard soft t ->
  Combinators.prune_pipeline hard soft t = Return t.
Proof.
  intros (Hu & Hz & Hrh & Hrs & Hcu & Hcz & Hch & Hcs).
  unfold Combinators.prune_pipeline.
  rewrite prune_no_symbol_stage, Hu.
  cbn [bind Combinators.assert_tree].
  rewrite (splice_stage_id Hcu).
  rewrite prune_zero_length_stage, Hz.
  cbn [bind Combinators.assert_tree].
  rewrite (remove_stage_id Hcz).
  destruct hard as [hard_symbols|]; destruct soft as [soft_symbols|];
    cbn [root_kept clean_of] in Hrh, Hrs, Hch, Hcs;
    cbn [bind Combinators.assert_tree];
    repeat (rewrite prune_by_symbol_types_stage;
            first [rewrite Hrh | rewrite Hrs];
            cbn [bind Combinators.assert_tree];
            first [rewrite (splice_stage_id Hch)
                  | rewrite (remove_stage_id Hcs)]);
    reflexivity.
Qed.

(** What a targeted stage returns. *)
Lemma targeted_stage_output symbols (prune_hard : bool) (s s' : Tree) :
  Combinators.assert_tree (prune_by_symbol_types s symbols prune_hard)
    = Return s' ->
  has_type_in symbols s' = false /\ clean (has_type_in symbols) s' /\
  (forall p, header_only p -> p s' = p s /\ (clean p s -> clean p s')) /\
  subsequence (labels s') (labels s).
Proof.
  rewrite prune_by_symbol_types_stage.
  destruct (has_type_in symbols s) eqn:Hr; [discriminate|].
  destruct prune_hard; intros H; inversion H; subst; clear H;
    (split; [exact Hr|split; [|split]]).
  - apply splice_stage_clean, has_type_in_header.
  - intros p Hp. split; [apply Hp|]. now apply splice_stage_keeps_clean.
  - apply splice_stage_order.
  - apply remove_stage_clean, has_type_in_header.
  - intros p Hp. split; [apply Hp|]. now apply remove_stage_keeps_clean.
  - apply remove_stage_order.
Qed.

(** What the pipeline returns is fully pruned, and its nodes are nodes of
    the input in the same order. *)
Lemma prune_pipeline_output hard soft (t pruned : Tree) :
  Combinators.prune_pipeline hard soft t = Return pruned ->
  fully_pruned hard soft pruned /\ subsequence (labels pruned) (labels t).
Proof.
  unfold Combinators.prune_pipeline.
  rewrite prune_no_symbol_stage.
  destruct (untagged t) eqn:Hu; cbn [bind Combinators.assert_tree];
    [discriminate|].
  pose proof (splice_stage_clean untagged_header t) as Hcu1.
  pose proof (splice_stage_order untagged t) as Ho1.
  assert (Hu1 : untagged (splice_stage untagged t) = false) by exact Hu.
  revert Hcu1 Ho1 Hu1. generalize (splice_stage untagged t). clear Hu.
  intros s1 Hcu1 Ho1 Hu1.
  rewrite prune_zero_length_stage.
  destruct (zero_length s1) eqn:Hz; cbn [bind Combinators.assert_tree];
    [discriminate|].
  pose proof (remove_stage_clean zero_length_header s1) as Hcz2.
  pose proof (remove_stage_keeps_clean zero_length untagged_header Hcu1) as Hcu2.
  pose proof (subsequence_trans (remove_stage_order zero_length s1) Ho1) as Ho2.
  assert (Hu2 : untagged (remove_stage zero_length s1) = false) by exact Hu1.
  assert (Hz2 : zero_length (remove_stage zero_length s1) = false) by exact Hz.
  revert Hcz2 Hcu2 Ho2 Hu2 Hz2. generalize (remove_stage zero_length s1).
  clear s1 Hcu1 Ho1 Hu1 Hz.
  intros s2 Hcz2 Hcu2 Ho2 Hu2 Hz2.
  destruct hard as [hard_symbols|]; cbn [bind].
  - destruct (Combinators.assert_tree
                (prune_by_symbol_types s2 hard_symbols true))
      as [s3|e|] eqn:Hs3; cbn [bind]; try discriminate.
    destruct (targeted_stage_output _ _ _ Hs3) as (Hr3 & Hch3 & Hk3 & Ho3).
    destruct (Hk3 untagged untagged_header) as [Hu3 Hcu3].
    destruct (Hk3 zero_length zero_length_header) as [Hz3 Hcz3].
    destruct soft as [soft_symbols|]; cbn [bind].
    + destruct (Combinators.assert_tree
                  (prune_by_symbol_types s3 soft_symbols false))
        as [s4|e|] eqn:Hs4; cbn [bind]; try discriminate.
      destruct (targeted_stage_output _ _ _ Hs4) as (Hr4 & Hcs4 & Hk4 & Ho4).
      destruct (Hk4 untagged untagged_header) as [Hu4 Hcu4].
      destruct (Hk4 zero_length zero_length_header) as [Hz4 Hcz4].
      destruct (Hk4 _ (has_type_in_header hard_symbols)) as [Hh4 Hch4].
      intros H. inversion H; subst. split.
      * unfold fully_pruned, root_kept, clean_of.
        repeat split; auto; congruence.
      * exact (subsequence_trans Ho4 (subsequence_trans Ho3 Ho2)).
    + intros H. inversion H; subst. split.
      * unfold fully_pruned, root_kept, clean_of.
        repeat split; auto; congruence.
      * exact (subsequence_trans Ho3 Ho2).
  - destruct soft as [soft_symbols|]; cbn [bind].
    + destruct (Combinators.assert_tree
                  (prune_by_symbol_types s2 soft_symbols false))
        as [s4|e|] eqn:Hs4; cbn [bind]; try discriminate.
      destruct (targeted_stage_output _ _ _ Hs4) as (Hr4 & Hcs4 & Hk4 & Ho4).
      destruct (Hk4 untagged untagged_header) as [Hu4 Hcu4].
      destruct (Hk4 zero_length zero_length_header) as [Hz4 Hcz4].
      intros H. inversion H; subst. split.
      * unfold fully_pruned, root_kept, clean_of.
        repeat split; auto; congruence.
      * exact (subsequence_trans Ho4 Ho2).
    + intros H. inversion H; subst. split; [|exact Ho2].
      unfold fully_pruned, root_kept, clean_of. repeat split; auto.
Qed.

(** C9.  Pruning a second time changes nothing: a tree the engine's
    pipeline ([_prune_no_token_type], then [_prune_by_token_types] with the
    parser's [pruned_non_terminals]) returns is returned unchanged by the
    same pipeline, and so is a tree the pipeline of [parse_generic]
    ([prune_no_symbol], [prune_zero_length], then [prune_by_symbol_types]
    with the hard and the soft set, each when given) returns, for the same
    sets.  And no stage reorders nodes: the nodes of a stage's output, in
    tree order, are nodes of its input in the same order. *)
Theorem pruning_pipeline_idempotent :
  (forall self root_non_terminal tree pruned,
      Engine.prune self root_non_terminal tree = Return pruned ->
      Engine.prune self root_non_terminal pruned = Return pruned)
  /\ (forall prune_hard_symbols prune_soft_symbols tree pruned,
        Combinators.prune_pipeline prune_hard_symbols prune_soft_symbols tree
          = Return pruned ->
        Combinators.prune_pipeline prune_hard_symbols prune_soft_symbols pruned
          = Return pruned)
  /\ (forall tree pruned,
        Engine._prune_no_token_type tree = Return (Some pruned) ->
        subsequence (labels pruned) (labels tree))
  /\ (forall tree token_types pruned,
        Engine._prune_by_token_types tree token_types = Some pruned ->
        subsequence (labels pruned) (labels tree))
  /\ (forall tree pruned,
        prune_no_symbol tree = Some pruned ->
        subsequence (labels pruned) (labels tree))
  /\ (forall tree pruned,
        prune_zero_length tree = Some pruned ->
        subsequence (labels pruned) (labels tree))
  /\ (forall tree symbol_types prune_hard pruned,
        prune_by_symbol_types tree symbol_types prune_hard = Some pruned ->
        subsequence (labels pruned) (labels tree)).
Proof.
  repeat apply conj.
  - intros self root_non_terminal tree pruned.
    rewrite !engine_prune_stages.
    destruct (untagged tree) eqn:Hu; [discriminate|].
    intros H. inversion H as [Hpruned]. clear H.
    set (S := has_type_in (Engine.pruned_non_terminals self)) in *.
    assert (Hroot : untagged pruned = false) by (subst pruned; exact Hu).
    assert (Hclean_u : clean untagged pruned).
    { subst pruned. apply splice_stage_keeps_clean; [apply untagged_header|].
      apply splice_stage_clean, untagged_header. }
    assert (Hclean_s : clean S pruned).
    { subst pruned. apply splice_stage_clean, has_type_in_header. }
    rewrite Hpruned, Hroot, (splice_stage_id Hclean_u),
      (splice_stage_id Hclean_s).
    reflexivity.
  - intros hard soft tree pruned H.
    apply prune_pipeline_fixed.
    now destruct (prune_pipeline_output _ _ _ H).
  - intros tree pruned. unfold Engine._prune_no_token_type.
    destruct tree as [o c [k|] cs]; cbn [token_type]; [|discriminate].
    rewrite splice_untagged_engine.
    intros H. injection H as <-.
    apply (splice_stage_order untagged (mkTree o c (Some k) cs)).
  - intros tree token_types pruned.
    rewrite _prune_by_token_types_stage.
    intros H. inversion H; subst. apply splice_stage_order.
  - intros tree pruned. rewrite prune_no_symbol_stage.
    destruct (untagged tree); [discriminate|].
    intros H. inversion H; subst. apply splice_stage_order.
  - intros tree pruned. rewrite prune_zero_length_stage.
    destruct (zero_length tree); [discriminate|].
    intros H. inversion H; subst. apply remove_stage_order.
  - intros tree symbol_types prune_hard pruned.
    rewrite prune_by_symbol_types_stage.
    destruct (has_type_in symbol_types tree); [discriminate|].
    intros H. inversion H; subst.
    destruct prune_hard; [apply splice_stage_order|apply remove_stage_order].
Qed.

Lemma pruning_pipeline_idempotent_witness :
  Combinators.prune_pipeline (Some [Sample.PLUS]) None raw_tree_3_plus_4
    = Return (mkTree 0 3 (Some Sample.ROOT)
                [mkTree 0 1 (Some Sample.NUMBER) [];
                 mkTree 2 1 (Some Sample.NUMBER) []])
  /\ Combinators.prune_pipeline (Some [Sample.PLUS]) None
       (mkTree 0 3 (Some Sample.ROOT)
          [mkTree 0 1 (Some Sample.NUMBER) [];
           mkTree 2 1 (Some Sample.NUMBER) []])
     = Return (mkTree 0 3 (Some Sample.ROOT)
                 [mkTree 0 1 (Some Sample.NUMBER) [];
                  mkTree 2 1 (Some Sample.NUMBER) []]).
Proof.
  split; [reflexivity|].
  apply (proj1 (proj2 pruning_pipeline_idempotent) (Some [Sample.PLUS]) None
           raw_tree_3_plus_4).
  reflexivity.
Defined.

(** * Further properties of the code *)

(** ** [src/parser/parser.py]: the rule-table check and [parse_generic] *)

Lemma combinators_rule_table_validation_witness :
  Combinators._check_non_terminal_rules Sample.combinator_rules
  = Return Sample.Symbols.
Proof.
  apply (proj1 (@combinators_rule_table_validation Sample.combinator_rules
                  Sample.ROOT _ _ eq_refl)).
  split; [reflexivity|split].
  - intros m Hin. simpl in Hin.
    destruct Hin as [<- | [<- | [<- | []]]]; reflexivity.
  - intros k Hin. simpl in Hin.
    destruct Hin as [<- | [<- | [<- | []]]]; reflexivity.
Defined.

Lemma parse_generic_completion_check_witness :
  exists first_unconsumed e,
    nth_error Sample.tokens_3_plus_4 1 = Some first_unconsumed /\
    Combinators.humanize_parse_error "3+4" Sample.tokens_3_plus_4 1 = Return e /\
    Combinators.parse_generic 2
      [(Sample.ROOT,
        Combinators.ConcatenationParser None
          [Combinators.TerminalParser (Some Sample.NUMBER)]);
       (Sample.NUMBER, Combinators.TerminalParser (Some Sample.NUMBER));
       (Sample.PLUS, Combinators.TerminalParser (Some Sample.PLUS))]
      Sample.tokens_3_plus_4 "3+4" None None "ROOT"
    = Raise e.
Proof.
  refine (proj1 (@parse_generic_completion_check 2
                   [(Sample.ROOT,
                     Combinators.ConcatenationParser None
                       [Combinators.TerminalParser (Some Sample.NUMBER)]);
                    (Sample.NUMBER, Combinators.TerminalParser (Some Sample.NUMBER));
                    (Sample.PLUS, Combinators.TerminalParser (Some Sample.PLUS))]
                   Sample.tokens_3_plus_4 "3+4" None None "ROOT"
                   Sample.Symbols Sample.ROOT
                   (Combinators.ConcatenationParser None
                      [Combinators.TerminalParser (Some Sample.NUMBER)])
                   (mkTree 0 1 (Some Sample.ROOT)
                      [mkTree 0 1 (Some Sample.NUMBER) []])
                   eq_refl eq_refl eq_refl _ _) _).
  - reflexivity.
  - simpl. lia.
  - simpl. lia.
Defined.

(** X3.  [parse_generic] compares the consumed token count with the number of
    characters of the text.  When the root parse consumes every token and
    the text has another number of characters than there are tokens, the
    completion check fails and locating the failure indexes the tokens at
    [len(tokens)]: the call raises [IndexError], although the parse was
    complete. *)
Theorem parse_generic_complete_parse_index_error :
  forall fuel rules tokens code hard soft root_token E root_symbol p tree,
    Combinators._check_non_terminal_rules rules = Return E ->
    enum_getitem E root_token = Some root_symbol ->
    dict_get rules root_symbol = Some p ->
    let p' := if negb (Combinators.is_NonTerminalParser p)
              then Combinators.with_token_type p (Some root_symbol) else p in
    Combinators.parse fuel tokens (Combinators.dict_set rules root_symbol p') p' 0
      = Return tree ->
    token_count tree = len tokens ->
    len tokens <> String.length code ->
    Combinators.parse_generic fuel rules tokens code hard soft root_token
    = Raise Combinators.IndexError.
Proof.
  intros fuel rules tokens code hard soft root_token E root_symbol p tree
    Hcheck Hroot Hp p' Hparse Hall Hne.
  unfold Combinators.parse_generic. rewrite Hcheck. simpl.
  rewrite Hroot, Hp. fold p'. rewrite Hparse. simpl.
  assert (Hneq : (token_count tree =? String.length code) = false)
    by (apply Nat.eqb_neq; lia).
  rewrite Hneq. simpl.
  unfold Combinators.humanize_parse_error.
  assert (Hnone : nth_error tokens (token_count tree) = None)
    by (apply nth_error_None; lia).
  now rewrite Hnone.
Qed.

Lemma parse_generic_complete_parse_index_error_witness :
  Combinators.parse_generic 3 Sample.combinator_rules
    [mkToken Sample.NUMBER 0 1; mkToken Sample.PLUS 2 1; mkToken Sample.NUMBER 4 1]
    "3 + 4" None None "ROOT"
  = Raise Combinators.IndexError.
Proof.
  refine (@parse_generic_complete_parse_index_error 3 Sample.combinator_rules
            [mkToken Sample.NUMBER 0 1; mkToken Sample.PLUS 2 1;
             mkToken Sample.NUMBER 4 1]
            "3 + 4" None None "ROOT" Sample.Symbols Sample.ROOT
            (Combinators.ConcatenationParser None
               [Combinators.TerminalParser (Some Sample.NUMBER);
                Combinators.TerminalParser (Some Sample.PLUS);
                Combinators.TerminalParser (Some Sample.NUMBER)])
            (mkTree 0 3 (Some Sample.ROOT)
               [mkTree 0 1 (Some Sample.NUMBER) [];
                mkTree 1 1 (Some Sample.PLUS) [];
                mkTree 2 1 (Some Sample.NUMBER) []])
            eq_refl eq_refl eq_refl _ _ _).
  - reflexivity.
  - reflexivity.
  - simpl. lia.
Defined.

(** ** [src/parser/parser.py]: [tokenize] *)

Section TokenizeScan.
Import Combinators.
Variable code : string.
Variable terminal_rules : list (IntEnum * RegexTokenizer).
Variable pruned_terminals : list IntEnum.

Lemma RegexTokenizer_tokenize_positive tokenizer pos n :
  RegexTokenizer_tokenize tokenizer code pos = Some n -> 1 <= n.
Proof.
  unfold RegexTokenizer_tokenize.
  destruct (regex_match tokenizer _) as [group0|]; [|discriminate].
  destruct (String.length group0 =? 0) eqn:H0; [discriminate|].
  intros H. inversion H; subst. apply Nat.eqb_neq in H0. lia.
Qed.

(** One turn of the loop: nothing matches and the state stays, or the first
    matching rule moves the pos and, unless pruned, adds its token. *)
Lemma rules_loop_turn (rules : list (IntEnum * RegexTokenizer)) :
  forall before tokens pos tokens' pos',
    terminal_rules = before ++ rules ->
    (forall token_type tokenizer, In (token_type, tokenizer) before ->
       RegexTokenizer_tokenize tokenizer code pos = None) ->
    rules_loop code pruned_terminals rules tokens pos = (tokens', pos') ->
    (no_rule_matches code terminal_rules pos /\
     tokens' = tokens /\ pos' = pos)
    \/
    (exists t,
        offset t = pos /\ pos' = pos + length t /\ 1 <= length t /\
        first_matching_rule code terminal_rules t /\
        tokens' = if negb (enum_in (type t) pruned_terminals)
                  then tokens ++ [t] else tokens).
Proof.
  induction rules as [|[token_type tokenizer] rest IH];
    intros before tokens pos tokens' pos' Hsplit Hbefore; simpl.
  - intros H. inversion H; subst. left. repeat split.
    intros ty tk Hin. apply (Hbefore ty tk).
    rewrite app_nil_r in Hin. exact Hin.
  - destruct (RegexTokenizer_tokenize tokenizer code pos) as [n|] eqn:Hm.
    + intros H. inversion H; subst. right.
      exists (mkToken token_type pos n). simpl.
      repeat split; auto.
      * eapply RegexTokenizer_tokenize_positive; exact Hm.
      * exists before, tokenizer, rest. simpl. auto.
    + apply (IH (before ++ [(token_type, tokenizer)])).
      * now rewrite <- app_assoc.
      * intros ty tk Hin. apply in_app_or in Hin.
        destruct Hin as [Hin | [Heq | []]]; [eauto|].
        inversion Heq; subst. exact Hm.
Qed.

Lemma tokenize_loop_reaches (fuel : nat) : forall tokens pos result,
  scan_reaches code terminal_rules pruned_terminals tokens pos ->
  tokenize_loop code terminal_rules pruned_terminals fuel tokens pos
    = Return result ->
  exists pos',
    scan_reaches code terminal_rules pruned_terminals result pos' /\
    String.length code <= pos'.
Proof.
  induction fuel as [|fuel IH]; intros tokens pos result Hreach; simpl;
    [discriminate|].
  destruct (pos <? String.length code) eqn:Hlt.
  - destruct (rules_loop code pruned_terminals terminal_rules tokens pos)
      as [tokens' pos'] eqn:Hturn.
    apply IH. apply Nat.ltb_lt in Hlt.
    exact (scan_turn Hreach Hlt Hturn).
  - intros H. inversion H; subst. exists pos. split; [exact Hreach|].
    now apply Nat.ltb_ge.
Qed.

Lemma ForallOrdPairs_snoc {A} (R : A -> A -> Prop) (l : list A) (x : A) :
  ForallOrdPairs R l -> Forall (fun y => R y x) l ->
  ForallOrdPairs R (l ++ [x]).
Proof.
  induction 1 as [|a l Ha _ IH]; intros Hall; simpl.
  - constructor; constructor.
  - inversion Hall; subst. constructor.
    + apply Forall_app. split; [exact Ha|]. constructor; [assumption|constructor].
    + now apply IH.
Qed.

(** What holds of every state of the scan. *)
Lemma scan_reaches_invariant tokens pos :
  scan_reaches code terminal_rules pruned_terminals tokens pos ->
  Forall (fun t => 1 <= length t /\ offset t < String.length code /\
                   enum_in (type t) pruned_terminals = false /\
                   first_matching_rule code terminal_rules t /\
                   offset t + length t <= pos) tokens
  /\ ForallOrdPairs token_before tokens
  /\ len tokens <= pos
  /\ (pruned_terminals = [] ->
      pos = sum_lengths tokens /\
      forall a t b, tokens = a ++ t :: b -> offset t = sum_lengths a).
Proof.
  intros Hreach.
  induction Hreach as [|tokens pos tokens' pos' _ IH Hlt Hturn].
  - repeat split; try constructor; auto.
    intros a t b Hab. destruct a; discriminate.
  - destruct IH as (Hall & Hord & Hlen & Hcont).
    destruct (@rules_loop_turn terminal_rules [] tokens pos tokens' pos'
                eq_refl (fun _ _ (H : In _ []) => match H with end) Hturn)
      as [(_ & -> & ->) | (t & Hoff & Hoff' & Hpos & Hfirst & Htokens)].
    + split; [exact Hall|split; [exact Hord|split; [exact Hlen|exact Hcont]]].
    + assert (Hweak : Forall (fun t0 =>
                1 <= length t0 /\ offset t0 < String.length code /\
                enum_in (type t0) pruned_terminals = false /\
                first_matching_rule code terminal_rules t0 /\
                offset t0 + length t0 <= pos') tokens).
      { eapply Forall_impl; [|exact Hall].
        intros t0 (H1 & H2 & H3 & H4 & H5). repeat split; auto. lia. }
      destruct (enum_in (type t) pruned_terminals) eqn:Hpruned;
        simpl in Htokens; subst tokens'.
      * split; [exact Hweak|split; [exact Hord|split; [lia|]]].
        intros Hnil. rewrite Hnil in Hpruned. discriminate.
      * repeat split.
        -- apply Forall_app. split; [exact Hweak|].
           constructor; [|constructor]. repeat split; auto; lia.
        -- apply ForallOrdPairs_snoc; [exact Hord|].
           eapply Forall_impl; [|exact Hall].
           intros t0 (_ & _ & _ & _ & H5). unfold token_before. lia.
        -- rewrite length_app. simpl. lia.
        -- unfold sum_lengths. rewrite map_app, list_sum_app. simpl.
           destruct (Hcont H) as [Hsum _]. unfold sum_lengths in Hsum. lia.
        -- intros a t0 b Heq. destruct (Hcont H) as [Hsum Hpre].
           destruct b as [|t1 b].
           ++ apply app_inj_tail in Heq. destruct Heq as [-> ->].
              rewrite Hoff. exact Hsum.
           ++ assert (Hb : exists b', t1 :: b = b' ++ [t]).
              { destruct (exists_last (l := t1 :: b)) as (b' & x & Hb');
                  [discriminate|].
                exists b'. rewrite Hb' in Heq.
                change (a ++ t0 :: b' ++ [x]) with (a ++ (t0 :: b') ++ [x]) in Heq.
                rewrite app_assoc in Heq.
                apply app_inj_tail in Heq. destruct Heq as [_ ->]. exact Hb'. }
              destruct Hb as [b' Hb]. rewrite Hb in Heq.
              change (a ++ t0 :: b' ++ [t]) with (a ++ (t0 :: b') ++ [t]) in Heq.
              rewrite app_assoc in Heq.
              apply app_inj_tail in Heq. destruct Heq as [Heq _].
              exact (Hpre a t0 b' Heq).
Qed.
End TokenizeScan.

Lemma ordered_tokens_count (n : nat) (tokens : list Token) : forall lo,
  Forall (fun t => lo <= offset t /\ offset t < n /\ 1 <= length t) tokens ->
  ForallOrdPairs token_before tokens ->
  len tokens <= n - lo.
Proof.
  induction tokens as [|t rest IH]; intros lo Hall Hord; simpl; [lia|].
  inversion Hall as [|? ? (Hlo & Hn & Hpos) Hrest]; subst.
  inversion Hord as [|? ? Hafter Hord']; subst.
  assert (Hnext : len rest <= n - (offset t + length t)).
  { apply IH; [|exact Hord'].
    rewrite Forall_forall in *. intros t' Hin.
    destruct (Hrest t' Hin) as (_ & H2 & H3).
    specialize (Hafter t' Hin). unfold token_before in Hafter. lia. }
  lia.
Qed.

(** X4.  The tokens [tokenize] returns: each comes from the first rule that
    matches a non-empty prefix at its offset, has at least one character,
    starts inside the text and is of no pruned type; a token ends before
    every later token starts; there are at most as many tokens as
    characters.  With nothing pruned the tokens follow one another from
    offset 0 and their lengths add up to at least the length of the text. *)
Theorem tokenize_returns_ordered_tokens :
  forall code terminal_rules pruned_terminals fuel tokens,
    Combinators.tokenize code terminal_rules pruned_terminals fuel
      = Return tokens ->
    Forall (fun t => 1 <= length t /\ offset t < String.length code /\
                     enum_in (type t) pruned_terminals = false /\
                     first_matching_rule code terminal_rules t) tokens
    /\ ForallOrdPairs token_before tokens
    /\ len tokens <= String.length code
    /\ (pruned_terminals = [] ->
        String.length code <= sum_lengths tokens /\
        forall a t b, tokens = a ++ t :: b -> offset t = sum_lengths a).
Proof.
  intros code terminal_rules pruned_terminals fuel tokens Hreturn.
  destruct (tokenize_loop_reaches _ (scan_start code terminal_rules
                                       pruned_terminals) Hreturn)
    as (final & Hreach & Hfinal).
  destruct (scan_reaches_invariant Hreach) as (Hall & Hord & _ & Hcont).
  split; [|split; [exact Hord|split]].
  - eapply Forall_impl; [|exact Hall].
    intros t (H1 & H2 & H3 & H4 & _). auto.
  - rewrite <- (Nat.sub_0_r (String.length code)).
    apply ordered_tokens_count; [|exact Hord].
    eapply Forall_impl; [|exact Hall].
    intros t (H1 & H2 & _). repeat split; auto. lia.
  - intros Hnil. destruct (Hcont Hnil) as [Hsum Htile].
    split; [lia|exact Htile].
Qed.

Lemma tokenize_returns_ordered_tokens_witness :
  Combinators.tokenize "3+4" literal_rules [] 4
    = Return [mkToken Sample.NUMBER 0 1; mkToken Sample.PLUS 1 1;
              mkToken Sample.NUMBER 2 1]
  /\ ForallOrdPairs token_before
       [mkToken Sample.NUMBER 0 1; mkToken Sample.PLUS 1 1;
        mkToken Sample.NUMBER 2 1].
Proof.
  split; [reflexivity|].
  apply (@tokenize_returns_ordered_tokens "3+4" literal_rules [] 4).
  reflexivity.
Defined.

(** X5.  When some rule matches a non-empty prefix at every offset of the text,
    [tokenize] returns, after at most one turn of its loop per character. *)
Theorem tokenize_terminates :
  forall code terminal_rules pruned_terminals,
    (forall pos, pos < String.length code ->
       exists token_type tokenizer,
         In (token_type, tokenizer) terminal_rules /\
         Combinators.RegexTokenizer_tokenize tokenizer code pos <> None) ->
    exists tokens,
      Combinators.tokenize code terminal_rules pruned_terminals
        (S (String.length code)) = Return tokens.
Proof.
  intros code terminal_rules pruned_terminals Hmatch.
  assert (Hloop : forall k tokens pos,
            String.length code - pos <= k ->
            exists result,
              Combinators.tokenize_loop code terminal_rules pruned_terminals
                (S k) tokens pos = Return result).
  { induction k as [|k IH]; intros tokens pos Hk; simpl.
    - assert (Hge : (pos <? String.length code) = false)
        by (apply Nat.ltb_ge; lia).
      rewrite Hge. eauto.
    - destruct (pos <? String.length code) eqn:Hlt; [|eauto].
      apply Nat.ltb_lt in Hlt.
      destruct (Combinators.rules_loop code pruned_terminals terminal_rules
                  tokens pos) as [tokens' pos'] eqn:Hturn.
      destruct (@rules_loop_turn code terminal_rules pruned_terminals
                  terminal_rules [] tokens pos tokens' pos' eq_refl
                  (fun _ _ (H : In _ []) => match H with end) Hturn)
        as [(Hnone & _ & _) | (t & Hoff & Hoff' & Hpos & _ & _)].
      + destruct (Hmatch pos Hlt) as (ty & tk & Hin & Hsome).
        now rewrite (Hnone ty tk Hin) in Hsome.
      + apply IH. lia. }
  unfold Combinators.tokenize. apply Hloop. lia.
Qed.

Lemma tokenize_terminates_witness :
  exists tokens, Combinators.tokenize "3+4" literal_rules [] 4 = Return tokens.
Proof.
  apply (@tokenize_terminates "3+4" literal_rules []).
  intros pos Hpos.
  destruct pos as [|[|[|pos]]].
  - exists Sample.NUMBER, (literal_regex "3"). split; [simpl; auto|discriminate].
  - exists Sample.PLUS, (literal_regex "+"). split; [simpl; auto|discriminate].
  - exists Sample.NUMBER, (literal_regex "4"). split; [simpl; auto|discriminate].
  - simpl in Hpos. lia.
Defined.

(** ** [src/parser/parser/parser.py]: what [_parse] and [parse] raise *)

(** ** Aliases of an enumeration *)

(** [enum_class[name]] for an alias gives the member of that value under
    its first name, and iterating the class leaves the alias out. *)
Lemma enum_alias_lookup :
  enum_getitem alias_enum "ROOT"
  = Some {| enum_type := alias_enum; name := "A"; value := 1 |}
  /\ has_member alias_enum "ROOT" = true
  /\ map name (enum_iter alias_enum) = ["A"%string; "B"%string].
Proof. repeat split. Qed.

Lemma dict_get_In {A} (d : Dict A) (key : IntEnum) (v : A) :
  dict_get d key = Some v -> exists k, In (k, v) d.
Proof.
  unfold dict_get. destruct (find _ d) as [[k v']|] eqn:Hf; [|discriminate].
  intros H. inversion H; subst. apply find_some in Hf. exists k. apply Hf.
Qed.

Section EngineFailures.
Import Engine.
Variable self : Parser.
Let n := len (tokens self).

Lemma engine_failure_later offset offset' e :
  offset <= offset' -> (offset' = offset \/ offset' <= n) ->
  engine_failure self offset' e -> engine_failure self offset e.
Proof.
  intros Hle Hrange [-> | (o & -> & H1 & H2)]; [now left|].
  right. exists o. split; [reflexivity|]. unfold n in *. lia.
Qed.

Lemma _parse_failures (fuel : nat) :
  forall expr offset e,
    _parse self fuel expr offset = Raise e -> engine_failure self offset e.
Proof.
  induction fuel as [|fuel IH]; intros expr offset e; simpl; [discriminate|].
  assert (Hhere : engine_failure self offset
                    (ParseError (filename self) (code self) offset)).
  { right. exists offset. split; [reflexivity|]. lia. }
  destruct (len (tokens self) <=? offset) eqn:Hend.
  - destruct expr; intros H; inversion H; subst; exact Hhere.
  - apply Nat.leb_gt in Hend.
    destruct expr as [cs|cs|k|c|c|k].
    + unfold _parse_concatenation.
      assert (Hloop : forall subs off,
                collected n offset subs off ->
                concatenation_loop (_parse self fuel) cs subs off = Raise e ->
                engine_failure self offset e).
      { induction cs as [|c cs IHcs]; intros subs off Hcol; simpl;
          [discriminate|].
        destruct (_parse self fuel c off) as [p|e'|] eqn:Hc; simpl;
          try discriminate.
        - apply IHcs. apply collected_snoc; [exact Hcol|].
          eapply _parse_parsed_at; exact Hc.
        - intros H. inversion H; subst.
          destruct Hcol as (_ & Hoff & _ & Hrange).
          apply (@engine_failure_later offset off e); [lia|exact Hrange|].
          now apply (IH c off). }
      specialize (Hloop [] offset (collected_nil n offset)).
      destruct (concatenation_loop _ cs [] offset) as [[subs off]|e'|];
        simpl; try discriminate.
      intros H. inversion H; subst. now apply Hloop.
    + unfold _parse_conjunction.
      assert (Hloop : forall e',
                conjunction_loop (_parse self fuel) cs offset = Raise e' ->
                e' = KeyError).
      { intros e'. induction cs as [|c cs IHcs]; simpl; [discriminate|].
        destruct (_parse self fuel c offset) as [p|e0|] eqn:Hc;
          try discriminate.
        destruct (IH c offset e0 Hc) as [-> | (o & -> & _)];
          [intros H; now inversion H|exact IHcs]. }
      destruct (conjunction_loop _ cs offset) as [[p|]|e'|]; simpl;
        try discriminate.
      * intros H. inversion H; subst. exact Hhere.
      * intros H. inversion H; subst. left. now apply Hloop.
    + unfold _parse_non_terminal.
      destruct (dict_get _ _) as [expansion|].
      * destruct (_parse self fuel expansion offset) as [p|e'|] eqn:Hc; simpl;
          try discriminate.
        intros H. inversion H; subst. now apply (IH expansion offset).
      * intros H. inversion H; subst. now left.
    + unfold _parse_optional.
      destruct (_parse self fuel c offset) as [p|e'|] eqn:Hc;
        try discriminate.
      destruct (IH c offset e' Hc) as [-> | (o & -> & _)];
        [|discriminate].
      intros H. inversion H; subst. now left.
    + unfold _parse_repeat.
      assert (Hloop : forall turns subs off e',
                repeat_loop (_parse self fuel) turns c subs off = Raise e' ->
                e' = KeyError).
      { induction turns as [|turns IHt]; intros subs off e'; simpl;
          [discriminate|].
        destruct (_parse self fuel c off) as [p|e0|] eqn:Hc;
          [apply IHt| |discriminate].
        destruct (IH c off e0 Hc) as [-> | (o & -> & _)];
          [intros H; now inversion H|discriminate]. }
      destruct (repeat_loop _ fuel c [] offset) as [[subs off]|e'|] eqn:Hr;
        simpl; try discriminate.
      intros H. inversion H; subst. left. eapply Hloop; exact Hr.
    + unfold _parse_terminal.
      destruct (nth_error_in_bounds _ Hend) as [token ->].
      destruct (negb _); [|discriminate].
      intros H. inversion H; subst. exact Hhere.
Qed.

Hypothesis closed : closed_grammar (non_terminal_rules self) = true.

Lemma _parse_no_key_error (fuel : nat) :
  forall expr offset,
    defined_in (non_terminal_rules self) expr = true ->
    _parse self fuel expr offset <> Raise KeyError.
Proof.
  induction fuel as [|fuel IH]; intros expr offset Hdef; simpl;
    [discriminate|].
  destruct (len (tokens self) <=? offset); [destruct expr; discriminate|].
  destruct expr as [cs|cs|k|c|c|k]; simpl in Hdef.
  - unfold _parse_concatenation.
    assert (Hloop : forall subs off,
              concatenation_loop (_parse self fuel) cs subs off
              <> Raise KeyError).
    { rewrite forallb_forall in Hdef.
      induction cs as [|c cs IHcs]; intros subs off; simpl; [discriminate|].
      destruct (_parse self fuel c off) as [p|e'|] eqn:Hc; simpl;
        [|intros H; inversion H; subst|discriminate].
      - apply IHcs. intros x Hx. apply Hdef. now right.
      - apply (IH c off); [apply Hdef; now left|exact Hc]. }
    specialize (Hloop [] offset).
    destruct (concatenation_loop _ cs [] offset) as [[subs off]|e'|]; simpl;
      try discriminate.
    intros H. inversion H; subst. now apply Hloop.
  - unfold _parse_conjunction.
    assert (Hloop : conjunction_loop (_parse self fuel) cs offset
                    <> Raise KeyError).
    { rewrite forallb_forall in Hdef.
      induction cs as [|c cs IHcs]; simpl; [discriminate|].
      destruct (_parse self fuel c offset) as [p|e'|] eqn:Hc;
        try discriminate.
      destruct e'; try discriminate.
      - apply IHcs. intros x Hx. apply Hdef. now right.
      - intros _. apply (IH c offset); [apply Hdef; now left|exact Hc]. }
    destruct (conjunction_loop _ cs offset) as [[p|]|e'|]; simpl;
      try discriminate.
    intros H. inversion H; subst. now apply Hloop.
  - unfold _parse_non_terminal.
    destruct (dict_get (non_terminal_rules self) k) as [expansion|] eqn:Hget.
    + destruct (_parse self fuel expansion offset) as [p|e'|] eqn:Hc; simpl;
        try discriminate.
      intros H. inversion H; subst.
      apply (IH expansion offset); [|exact Hc].
      destruct (dict_get_In _ _ Hget) as [k' Hin].
      unfold closed_grammar in closed. rewrite forallb_forall in closed.
      exact (closed _ Hin).
    + apply dict_get_None in Hget. congruence.
  - unfold _parse_optional.
    destruct (_parse self fuel c offset) as [p|e'|] eqn:Hc; try discriminate.
    destruct e'; try discriminate.
    intros _. now apply (IH c offset).
  - unfold _parse_repeat.
    assert (Hloop : forall turns subs off,
              repeat_loop (_parse self fuel) turns c subs off
              <> Raise KeyError).
    { induction turns as [|turns IHt]; intros subs off; simpl; [discriminate|].
      destruct (_parse self fuel c off) as [p|e'|] eqn:Hc;
        [apply IHt| |discriminate].
      destruct e'; try discriminate.
      intros _. now apply (IH c off). }
    specialize (Hloop fuel [] offset).
    destruct (repeat_loop _ fuel c [] offset) as [[subs off]|e'|]; simpl;
      try discriminate.
    intros H. inversion H; subst. now apply Hloop.
  - unfold _parse_terminal.
    destruct (nth_error _ _); [|discriminate].
    destruct (negb _); discriminate.
Qed.
End EngineFailures.

(** X6.  How a call of [_parse] ends: it returns a tree, or raises the
    [KeyError] of a non-terminal without a rule, or raises its own
    [ParseError], which carries the parser's filename and code and a token
    index between the offset the call started at and the end of the
    tokens (a position in the token list, not in the text), or it does not
    end within the recursion depth and the loop turns it is given.  The
    last is what a rule that leads back to itself before a token is read
    does ([left_recursion_never_ends]); Python ends such a recursion with
    [RecursionError].  No other exception is raised: no assertion fails
    and no token index is out of range. *)
Theorem _parse_raises_located_parse_error :
  forall (self : Engine.Parser) fuel expr offset,
    (exists t, Engine._parse self fuel expr offset = Return t) \/
    Engine._parse self fuel expr offset = OutOfFuel \/
    Engine._parse self fuel expr offset = Raise Engine.KeyError \/
    exists o,
      Engine._parse self fuel expr offset
      = Raise (Engine.ParseError (Engine.filename self) (Engine.code self) o)
      /\ offset <= o /\ o <= Nat.max offset (len (Engine.tokens self)).
Proof.
  intros self fuel expr offset.
  destruct (Engine._parse self fuel expr offset) as [t|e|] eqn:H.
  - left. now exists t.
  - right. right.
    destruct (_parse_failures self fuel expr offset H)
      as [-> | (o & -> & Hlo & Hhi)].
    + now left.
    + right. exists o. auto.
  - right. now left.
Qed.

Lemma _parse_raises_located_parse_error_witness :
  (exists t, Engine._parse sample_engine 3 long_alternative 1 = Return t) \/
  Engine._parse sample_engine 3 long_alternative 1 = OutOfFuel \/
  Engine._parse sample_engine 3 long_alternative 1 = Raise Engine.KeyError \/
  exists o,
    Engine._parse sample_engine 3 long_alternative 1
    = Raise (Engine.ParseError (Engine.filename sample_engine)
               (Engine.code sample_engine) o)
    /\ 1 <= o /\ o <= Nat.max 1 (len (Engine.tokens sample_engine)).
Proof.
  exact (_parse_raises_located_parse_error sample_engine 3 long_alternative 1).
Defined.

(** X7.  On a rule table whose rules refer to symbols of the table only, an
    expression that does so too never makes [_parse] raise [KeyError]: the
    call returns a tree, or raises [ParseError] at a token index between
    the offset it started at and the end of the tokens, or does not end
    within the recursion depth and the loop turns it is given (Python's
    [RecursionError] for a rule that leads back to itself,
    [left_recursion_never_ends]: a table can be closed and left-recursive). *)
Theorem _parse_closed_grammar_raises_parse_error_only :
  forall (self : Engine.Parser) fuel expr offset,
    closed_grammar (Engine.non_terminal_rules self) = true ->
    defined_in (Engine.non_terminal_rules self) expr = true ->
    (exists t, Engine._parse self fuel expr offset = Return t) \/
    Engine._parse self fuel expr offset = OutOfFuel \/
    exists o,
      Engine._parse self fuel expr offset
      = Raise (Engine.ParseError (Engine.filename self) (Engine.code self) o)
      /\ offset <= o /\ o <= Nat.max offset (len (Engine.tokens self)).
Proof.
  intros self fuel expr offset Hclosed Hdef.
  destruct (Engine._parse self fuel expr offset) as [t|e|] eqn:H.
  - left. now exists t.
  - right. right.
    destruct (_parse_failures self fuel expr offset H)
      as [-> | (o & -> & Hlo & Hhi)].
    + exfalso.
      exact (_parse_no_key_error self Hclosed fuel expr offset Hdef H).
    + exists o. auto.
  - right. now left.
Qed.

Lemma _parse_closed_grammar_raises_parse_error_only_witness :
  (exists t,
      Engine._parse sample_engine 6
        (Engine.ConcatenationExpression
           [Engine.NonTerminalExpression Sample.ROOT;
            Engine.NonTerminalExpression Sample.PLUS]) 0 = Return t) \/
  Engine._parse sample_engine 6
    (Engine.ConcatenationExpression
       [Engine.NonTerminalExpression Sample.ROOT;
        Engine.NonTerminalExpression Sample.PLUS]) 0 = OutOfFuel \/
  exists o,
    Engine._parse sample_engine 6
      (Engine.ConcatenationExpression
         [Engine.NonTerminalExpression Sample.ROOT;
          Engine.NonTerminalExpression Sample.PLUS]) 0
    = Raise (Engine.ParseError (Engine.filename sample_engine)
               (Engine.code sample_engine) o)
    /\ 0 <= o /\ o <= Nat.max 0 (len (Engine.tokens sample_engine)).
Proof.
  apply (@_parse_closed_grammar_raises_parse_error_only sample_engine 6
           (Engine.ConcatenationExpression
              [Engine.NonTerminalExpression Sample.ROOT;
               Engine.NonTerminalExpression Sample.PLUS]) 0).
  - reflexivity.
  - reflexivity.
Defined.

Lemma _check_non_terminal_rules_outcome (self : Engine.Parser) first_key expr rest :
  Engine.non_terminal_rules self = (first_key, expr) :: rest ->
  (Engine._check_non_terminal_rules self = Return tt /\
   every_member_has_entry (enum_type first_key)
     (keys (Engine.non_terminal_rules self)))
  \/ Engine._check_non_terminal_rules self
     = Raise Engine.MissingRootNonTerminalType
  \/ (exists s, Engine._check_non_terminal_rules self
                = Raise (Engine.MissingNonTerminalTypes s))
  \/ (exists s, Engine._check_non_terminal_rules self
                = Raise (Engine.UnexpectedNonTerminalTypes s)).
Proof.
  intros Hrules. unfold Engine._check_non_terminal_rules.
  assert (Hk : keys (Engine.non_terminal_rules self) = first_key :: keys rest)
    by (rewrite Hrules; reflexivity).
  remember (keys (Engine.non_terminal_rules self)) as ks eqn:Hks.
  rewrite Hk. cbv zeta. rewrite <- Hk.
  destruct (has_member (enum_type first_key) "ROOT"); simpl; [|auto].
  destruct (len (set_difference (enum_iter (enum_type first_key)) ks) =? 0)
    eqn:Hm; simpl; [|eauto].
  apply len_eqb_0 in Hm. rewrite set_difference_nil in Hm.
  destruct (len (set_difference ks (enum_iter (enum_type first_key))) =? 0);
    simpl; eauto 6.
Qed.

Lemma canonical_members_first (v : Z) (m : string * Z) :
  forall table seen,
    find (fun m' => Z.eqb (snd m') v) table = Some m ->
    existsb (Z.eqb v) seen = false ->
    In m (canonical_members seen table).
Proof.
  induction table as [|nv rest IH]; intros seen Hfind Hseen; simpl in *;
    [discriminate|].
  destruct (Z.eqb (snd nv) v) eqn:Hv.
  - inversion Hfind; subst m. apply Z.eqb_eq in Hv. rewrite Hv, Hseen.
    now left.
  - destruct (existsb (Z.eqb (snd nv)) seen).
    + now apply IH.
    + right. apply IH; [exact Hfind|]. simpl.
      now rewrite Z.eqb_sym, Hv, Hseen.
Qed.

Lemma enum_getitem_member (E : EnumType) (n : string) (k : IntEnum) :
  enum_getitem E n = Some k -> In k (enum_iter E).
Proof.
  unfold enum_getitem, enum_iter.
  destruct (find _ (members E)) as [nv|]; [|discriminate].
  destruct (find (fun m => Z.eqb (snd m) (snd nv)) (members E))
    as [m|] eqn:Hm; [|discriminate].
  intros H. inversion H; subst.
  apply in_map_iff. exists m. split; [reflexivity|].
  now apply (canonical_members_first (snd nv)).
Qed.

Lemma parse_failures :
  forall (self : Engine.Parser) fuel first_key expr rest e,
    Engine.non_terminal_rules self = (first_key, expr) :: rest ->
    has_member (enum_type first_key) (Engine.root_token self) = true ->
    closed_grammar (Engine.non_terminal_rules self) = true ->
    Engine.parse self fuel = Raise e ->
    e = Engine.MissingRootNonTerminalType
    \/ (exists s, e = Engine.MissingNonTerminalTypes s)
    \/ (exists s, e = Engine.UnexpectedNonTerminalTypes s)
    \/ (exists o, e = Engine.ParseError (Engine.filename self)
                        (Engine.code self) o).
Proof.
  intros self fuel first_key expr rest e Hrules Hroot Hclosed.
  unfold Engine.parse.
  destruct (_check_non_terminal_rules_outcome self Hrules)
    as [[Hok Hall] | [Hr | [[s Hr] | [s Hr]]]];
    try (rewrite Hr; simpl; intros H; inversion H; subst; eauto 6).
  rewrite Hok. simpl. rewrite Hrules. cbn [keys map fst].
  apply has_member_getitem in Hroot. destruct Hroot as [root Hroot].
  rewrite Hroot. rewrite <- Hrules.
  destruct (dict_get (Engine.non_terminal_rules self) root)
    as [root_expr|] eqn:Hget.
  - assert (Hdef : defined_in (Engine.non_terminal_rules self) root_expr = true).
    { destruct (dict_get_In _ _ Hget) as [k Hin].
      unfold closed_grammar in Hclosed. rewrite forallb_forall in Hclosed.
      exact (Hclosed _ Hin). }
    destruct (Engine._parse self fuel root_expr 0) as [tree|e'|] eqn:Hparse;
      simpl; try discriminate.
    + destruct (_parse_parsed_at self fuel _ _ Hparse) as (_ & _ & Hend).
      destruct (token_count tree =? len (Engine.tokens self)) eqn:Heq; simpl.
      * unfold Engine.prune. simpl. discriminate.
      * apply Nat.eqb_neq in Heq.
        assert (Hlt : token_count tree < len (Engine.tokens self)) by lia.
        destruct (nth_error_in_bounds _ Hlt) as [token Htok].
        apply Nat.ltb_lt in Hlt. rewrite Hlt, Htok. simpl.
        intros H. inversion H; subst. eauto 6.
    + intros H. inversion H; subst.
      destruct (_parse_failures self fuel root_expr 0 Hparse)
        as [-> | (o & -> & _)]; [|eauto 6].
      exfalso. exact (_parse_no_key_error self Hclosed fuel root_expr 0 Hdef Hparse).
  - exfalso. apply dict_get_None in Hget.
    apply enum_getitem_member in Hroot.
    rewrite (Hall root Hroot) in Hget. discriminate.
Qed.

(** X8.  How [Parser.parse] ends on a non-empty rule table whose rules refer
    to symbols of the table only, with a [root_token] that is a name of
    the enumeration: it returns a tree, or raises one of the three
    validation errors, or raises [ParseError], or does not end within the
    recursion depth and the loop turns it is given (Python's
    [RecursionError] for a rule that leads back to itself,
    [left_recursion_never_ends]).  The lookups of the root symbol, of its
    rule and of the first unconsumed token, and the assertions, never
    fail. *)
Theorem parse_raises_validation_or_parse_error :
  forall (self : Engine.Parser) fuel first_key expr rest,
    Engine.non_terminal_rules self = (first_key, expr) :: rest ->
    has_member (enum_type first_key) (Engine.root_token self) = true ->
    closed_grammar (Engine.non_terminal_rules self) = true ->
    (exists t, Engine.parse self fuel = Return t)
    \/ Engine.parse self fuel = OutOfFuel
    \/ Engine.parse self fuel = Raise Engine.MissingRootNonTerminalType
    \/ (exists s, Engine.parse self fuel
                  = Raise (Engine.MissingNonTerminalTypes s))
    \/ (exists s, Engine.parse self fuel
                  = Raise (Engine.UnexpectedNonTerminalTypes s))
    \/ (exists o, Engine.parse self fuel
                  = Raise (Engine.ParseError (Engine.filename self)
                             (Engine.code self) o)).
Proof.
  intros self fuel first_key expr rest Hrules Hroot Hclosed.
  destruct (Engine.parse self fuel) as [t|e|] eqn:H.
  - left. now exists t.
  - right. right.
    destruct (parse_failures self fuel Hrules Hroot Hclosed H)
      as [-> | [[s ->] | [[s ->] | [o ->]]]].
    + now left.
    + right. left. now exists s.
    + right. right. left. now exists s.
    + right. right. right. now exists o.
  - right. now left.
Qed.

Lemma parse_raises_validation_or_parse_error_witness :
  (exists t, Engine.parse (Sample.engine_parser
                             [mkToken Sample.NUMBER 0 1; mkToken Sample.PLUS 1 1]
                             Sample.engine_rules) 6 = Return t)
  \/ Engine.parse (Sample.engine_parser
                     [mkToken Sample.NUMBER 0 1; mkToken Sample.PLUS 1 1]
                     Sample.engine_rules) 6 = OutOfFuel
  \/ Engine.parse (Sample.engine_parser
                     [mkToken Sample.NUMBER 0 1; mkToken Sample.PLUS 1 1]
                     Sample.engine_rules) 6
     = Raise Engine.MissingRootNonTerminalType
  \/ (exists s, Engine.parse (Sample.engine_parser
                                [mkToken Sample.NUMBER 0 1;
                                 mkToken Sample.PLUS 1 1]
                                Sample.engine_rules) 6
                = Raise (Engine.MissingNonTerminalTypes s))
  \/ (exists s, Engine.parse (Sample.engine_parser
                                [mkToken Sample.NUMBER 0 1;
                                 mkToken Sample.PLUS 1 1]
                                Sample.engine_rules) 6
                = Raise (Engine.UnexpectedNonTerminalTypes s))
  \/ (exists o, Engine.parse (Sample.engine_parser
                                [mkToken Sample.NUMBER 0 1;
                                 mkToken Sample.PLUS 1 1]
                                Sample.engine_rules) 6
                = Raise (Engine.ParseError "sample" "3+4" o)).
Proof.
  apply (@parse_raises_validation_or_parse_error
           (Sample.engine_parser [mkToken Sample.NUMBER 0 1;
                                  mkToken Sample.PLUS 1 1]
              Sample.engine_rules) 6 Sample.ROOT _ _ eq_refl);
    reflexivity.
Defined.

(** ** Left recursion *)

Lemma dict_get_by_value {A} (d : Dict A) (k k' : IntEnum) :
  enum_eqb k' k = true -> dict_get d k' = dict_get d k.
Proof.
  unfold enum_eqb. intros H. apply Z.eqb_eq in H.
  unfold dict_get, enum_eqb. now rewrite H.
Qed.

Section LeftRecursion.
Import Engine.
Variable self : Parser.
Variable k : IntEnum.
Variable rule : Expression.
Variable offset : nat.
Hypothesis Hrule : dict_get (non_terminal_rules self) k = Some rule.
Hypothesis Hleft : starts_with_non_terminal k rule = true.
Hypothesis Hoffset : offset < len (tokens self).

Lemma left_recursion_out_of_fuel (fuel : nat) : forall expr,
  starts_with_non_terminal k expr = true ->
  _parse self fuel expr offset = OutOfFuel.
Proof.
  induction fuel as [|fuel IH]; intros expr Hexpr; [reflexivity|].
  cbn [_parse].
  replace (len (tokens self) <=? offset) with false
    by (symmetry; apply Nat.leb_gt; exact Hoffset).
  destruct expr as [[|c cs]|[|c cs]|k'|c|c|k']; simpl in Hexpr;
    try discriminate.
  - unfold _parse_concatenation. cbn [concatenation_loop].
    now rewrite (IH c Hexpr).
  - unfold _parse_conjunction. cbn [conjunction_loop].
    now rewrite (IH c Hexpr).
  - unfold _parse_non_terminal.
    rewrite (@dict_get_by_value _ (non_terminal_rules self) k k' Hexpr), Hrule.
    now rewrite (IH rule Hleft).
  - unfold _parse_optional. now rewrite (IH c Hexpr).
  - unfold _parse_repeat. destruct fuel as [|fuel']; [reflexivity|].
    cbn [repeat_loop]. now rewrite (IH c Hexpr).
Qed.
End LeftRecursion.

(** X20.  A rule that leads back to its own symbol before a token is read
    (left recursion) makes [_parse] recurse without end: whatever recursion
    depth the call is given, an expression that starts with that symbol
    neither returns a tree nor raises [ParseError] or [KeyError] at an
    offset before the end of the tokens.  Nothing in the engine detects
    the recursion; Python ends it with [RecursionError]. *)
Theorem left_recursion_never_ends :
  forall (self : Engine.Parser) k rule expr offset fuel,
    dict_get (Engine.non_terminal_rules self) k = Some rule ->
    starts_with_non_terminal k rule = true ->
    starts_with_non_terminal k expr = true ->
    offset < len (Engine.tokens self) ->
    Engine._parse self fuel expr offset = OutOfFuel.
Proof.
  intros self k rule expr offset fuel Hrule Hleft Hexpr Hoffset.
  eapply left_recursion_out_of_fuel; eassumption.
Qed.

Lemma left_recursion_never_ends_witness :
  closed_grammar left_recursive_rules = true
  /\ Engine._check_non_terminal_rules
       (Sample.engine_parser Sample.tokens_3_plus_4 left_recursive_rules)
     = Return tt
  /\ Engine._parse
       (Sample.engine_parser Sample.tokens_3_plus_4 left_recursive_rules)
       1000 (Engine.NonTerminalExpression Sample.ROOT) 0
     = OutOfFuel.
Proof.
  split; [reflexivity|]. split; [reflexivity|].
  apply (@left_recursion_never_ends
           (Sample.engine_parser Sample.tokens_3_plus_4 left_recursive_rules)
           Sample.ROOT
           (Engine.ConcatenationExpression
              [Engine.NonTerminalExpression Sample.ROOT;
               Engine.TerminalExpression Sample.PLUS])).
  - reflexivity.
  - reflexivity.
  - reflexivity.
  - simpl. lia.
Defined.

(** ** The engine accepts only what the grammar derives *)

Lemma firstn_plus {A} (a b : nat) : forall l : list A,
  firstn (a + b) l = firstn a l ++ firstn b (skipn a l).
Proof.
  induction a as [|a IH]; intros l; simpl; [reflexivity|].
  destruct l as [|x l]; simpl.
  - now rewrite firstn_nil.
  - now rewrite IH.
Qed.

Lemma token_types_at_plus tokens start a b :
  token_types_at tokens start (a + b)
  = token_types_at tokens start a ++ token_types_at tokens (start + a) b.
Proof.
  unfold token_types_at. rewrite firstn_plus, map_app, skipn_skipn.
  now rewrite (Nat.add_comm a start).
Qed.

Lemma token_types_at_one tokens start token :
  nth_error tokens start = Some token ->
  token_types_at tokens start 1 = [type token].
Proof.
  unfold token_types_at. revert tokens.
  induction start as [|start IH]; intros [|x l] H; simpl in *; try discriminate.
  - now inversion H.
  - exact (IH l H).
Qed.

Lemma token_types_at_all tokens :
  token_types_at tokens 0 (len tokens) = map type tokens.
Proof.
  unfold token_types_at. simpl. now rewrite firstn_all.
Qed.

Section EngineSound.
Import Engine.
Variable self : Parser.
Variable f : Expression -> nat -> Result Tree.

Hypothesis Hf : forall expr offset t,
  f expr offset = Return t ->
  accepted self expr offset (offset + token_count t).

Lemma concatenation_loop_derives (cs : list Expression) :
  forall sub_trees child_offset sub_trees' child_offset',
    concatenation_loop f cs sub_trees child_offset
      = Return (sub_trees', child_offset') ->
    accepted self (ConcatenationExpression cs) child_offset child_offset'.
Proof.
  induction cs as [|c cs IH]; intros subs off subs' off' H; simpl in H.
  - inversion H; subst. split; [lia|].
    rewrite Nat.sub_diag. apply derives_concatenation_nil.
  - destruct (f c off) as [parsed|e|] eqn:Hc; simpl in H; try discriminate.
    apply Hf in Hc. destruct Hc as [_ Hc].
    apply IH in H. destruct H as [Hle H].
    split; [lia|].
    replace (off' - off)
      with (token_count parsed + (off' - (off + token_count parsed))) by lia.
    rewrite token_types_at_plus.
    replace (off + token_count parsed - off) with (token_count parsed) in Hc
      by lia.
    now apply derives_concatenation_cons.
Qed.

Lemma repeat_loop_derives (fuel : nat) (c : Expression) :
  forall children child_offset children' child_offset',
    repeat_loop f fuel c children child_offset
      = Return (children', child_offset') ->
    accepted self (RepeatExpression c) child_offset child_offset'.
Proof.
  induction fuel as [|fuel IH]; intros subs off subs' off' H; simpl in H;
    [discriminate|].
  destruct (f c off) as [parsed|e|] eqn:Hc; try discriminate.
  - apply Hf in Hc. destruct Hc as [_ Hc].
    apply IH in H. destruct H as [Hle H].
    split; [lia|].
    replace (off' - off)
      with (token_count parsed + (off' - (off + token_count parsed))) by lia.
    rewrite token_types_at_plus.
    replace (off + token_count parsed - off) with (token_count parsed) in Hc
      by lia.
    now apply derives_repeat_cons.
  - destruct e; try discriminate. inversion H; subst. split; [lia|].
    rewrite Nat.sub_diag. apply derives_repeat_nil.
Qed.

Lemma conjunction_loop_derives (cs : list Expression) :
  forall offset parsed,
    conjunction_loop f cs offset = Return (Some parsed) ->
    accepted self (ConjunctionExpression cs) offset (offset + token_count parsed).
Proof.
  induction cs as [|c cs IH]; intros offset parsed H; simpl in H;
    [discriminate|].
  destruct (f c offset) as [p|e|] eqn:Hc; try discriminate.
  - inversion H; subst. apply Hf in Hc. destruct Hc as [Hle Hc].
    split; [exact Hle|].
    eapply derives_conjunction; [now left|exact Hc].
  - destruct e; try discriminate. apply IH in H. destruct H as [Hle H].
    split; [exact Hle|].
    inversion H; subst.
    eapply derives_conjunction; [right; eassumption|eassumption].
Qed.
End EngineSound.

Lemma _parse_accepted (self : Engine.Parser) (fuel : nat) :
  forall expr offset t,
    Engine._parse self fuel expr offset = Return t ->
    accepted self expr offset (offset + token_count t).
Proof.
  induction fuel as [|fuel IH]; intros expr offset t; simpl; [discriminate|].
  destruct (len (Engine.tokens self) <=? offset) eqn:Hend.
  - destruct expr; try discriminate; intros H; inversion H; subst; simpl;
      (split; [lia|]); replace (offset + 0 - offset) with 0 by lia.
    + apply derives_optional_none.
    + apply derives_repeat_nil.
  - destruct expr as [cs|cs|k|c|c|k].
    + unfold Engine._parse_concatenation.
      destruct (Engine.concatenation_loop _ cs [] offset)
        as [[subs off]|e|] eqn:Hloop; simpl; try discriminate.
      intros H. inversion H; subst. simpl.
      eapply concatenation_loop_derives in Hloop; [|exact IH].
      destruct Hloop as [Hle Hd].
      split; [lia|].
      now replace (offset + (off - offset) - offset) with (off - offset) by lia.
    + unfold Engine._parse_conjunction.
      destruct (Engine.conjunction_loop _ cs offset)
        as [[parsed|]|e|] eqn:Hloop; simpl; try discriminate.
      intros H. inversion H; subst. simpl.
      eapply conjunction_loop_derives in Hloop; [|exact IH]. exact Hloop.
    + unfold Engine._parse_non_terminal.
      destruct (dict_get _ k) as [expansion|] eqn:Hget; [|discriminate].
      destruct (Engine._parse self fuel expansion offset) as [child|e|] eqn:Hc;
        simpl; try discriminate.
      intros H. inversion H; subst. simpl.
      destruct (IH _ _ _ Hc) as [Hle Hd].
      split; [exact Hle|].
      eapply derives_non_terminal; eassumption.
    + unfold Engine._parse_optional.
      destruct (Engine._parse self fuel c offset) as [parsed|e|] eqn:Hc;
        try discriminate.
      * intros H. inversion H; subst. simpl.
        destruct (IH _ _ _ Hc) as [Hle Hd].
        split; [exact Hle|]. now apply derives_optional_some.
      * destruct e; try discriminate. intros H. inversion H; subst. simpl.
        split; [lia|]. replace (offset + 0 - offset) with 0 by lia.
        apply derives_optional_none.
    + unfold Engine._parse_repeat.
      destruct (Engine.repeat_loop _ fuel c [] offset)
        as [[subs off]|e|] eqn:Hloop; simpl; try discriminate.
      intros H. inversion H; subst. simpl.
      eapply repeat_loop_derives in Hloop; [|exact IH].
      destruct Hloop as [Hle Hd].
      split; [lia|].
      now replace (offset + (off - offset) - offset) with (off - offset) by lia.
    + unfold Engine._parse_terminal.
      destruct (nth_error (Engine.tokens self) offset) as [token|] eqn:Htok;
        [|discriminate].
      destruct (enum_eqb (type token) k) eqn:Heq; simpl; [|discriminate].
      intros H. inversion H; subst. simpl.
      split; [lia|]. replace (offset + 1 - offset) with 1 by lia.
      rewrite (token_types_at_one _ _ Htok).
      now apply derives_terminal.
Qed.

(** X9.  A tree that [_parse] returns for an expression spans tokens whose
    types, in order, are a sequence the grammar derives from the
    expression: the engine accepts nothing outside the language of the
    rules. *)
Theorem engine_accepts_only_derivable_spans :
  forall (self : Engine.Parser) fuel expr offset t,
    Engine._parse self fuel expr offset = Return t ->
    derives (Engine.non_terminal_rules self) expr
      (token_types_at (Engine.tokens self) offset (token_count t)).
Proof.
  intros self fuel expr offset t H.
  destruct (_parse_accepted self fuel _ _ H) as [_ Hd].
  now replace (offset + token_count t - offset) with (token_count t) in Hd
    by lia.
Qed.

Lemma engine_accepts_only_derivable_spans_witness :
  derives Sample.engine_rules
    (Engine.RepeatExpression
       (Engine.ConcatenationExpression
          [Engine.TerminalExpression Sample.PLUS;
           Engine.TerminalExpression Sample.NUMBER]))
    [Sample.PLUS; Sample.NUMBER].
Proof.
  exact (@engine_accepts_only_derivable_spans sample_engine 5
           (Engine.RepeatExpression
              (Engine.ConcatenationExpression
                 [Engine.TerminalExpression Sample.PLUS;
                  Engine.TerminalExpression Sample.NUMBER])) 1 _ eq_refl).
Defined.

(** X10.  A tree that [Parser.parse] returns means that the types of all the
    tokens, in order, are a sequence the grammar derives from the rule of
    the root symbol: the rule the table holds for the member that
    [root_token] names in the enumeration of the table's first key. *)
Theorem parse_returns_sentence_of_root_rule :
  forall (self : Engine.Parser) fuel t,
    Engine.parse self fuel = Return t ->
    exists first_key other_keys root root_expr,
      keys (Engine.non_terminal_rules self) = first_key :: other_keys /\
      enum_getitem (enum_type first_key) (Engine.root_token self)
        = Some root /\
      dict_get (Engine.non_terminal_rules self) root = Some root_expr /\
      derives (Engine.non_terminal_rules self) root_expr
        (map type (Engine.tokens self)).
Proof.
  intros self fuel t. unfold Engine.parse.
  destruct (Engine._check_non_terminal_rules self) as [[]|e|]; simpl;
    try discriminate.
  destruct (keys (Engine.non_terminal_rules self)) as [|first_key ks];
    [discriminate|].
  destruct (enum_getitem (enum_type first_key) (Engine.root_token self))
    as [root|] eqn:Hroot; [|discriminate].
  destruct (dict_get (Engine.non_terminal_rules self) root)
    as [root_expr|] eqn:Hget; [|discriminate].
  destruct (Engine._parse self fuel root_expr 0) as [tree|e|] eqn:Hparse;
    simpl; try discriminate.
  destruct (token_count tree =? len (Engine.tokens self)) eqn:Heq; simpl.
  - intros _. exists first_key, ks, root, root_expr.
    split; [reflexivity|]. split; [exact Hroot|]. split; [exact Hget|].
    apply Nat.eqb_eq in Heq.
    destruct (_parse_accepted self fuel _ _ Hparse) as [_ Hd].
    simpl in Hd. rewrite Nat.sub_0_r, Heq in Hd.
    now rewrite token_types_at_all in Hd.
  - destruct (token_count tree <? len (Engine.tokens self)); simpl;
      [|discriminate].
    destruct (nth_error (Engine.tokens self) (token_count tree)); discriminate.
Qed.

Lemma parse_returns_sentence_of_root_rule_witness :
  exists first_key other_keys root root_expr,
    keys Sample.engine_rules = first_key :: other_keys /\
    enum_getitem (enum_type first_key) "ROOT" = Some root /\
    dict_get Sample.engine_rules root = Some root_expr /\
    derives Sample.engine_rules root_expr
      [Sample.NUMBER; Sample.PLUS; Sample.NUMBER].
Proof.
  exact (@parse_returns_sentence_of_root_rule sample_engine 6 _ eq_refl).
Defined.

(** ** What the engine's pruning keeps *)

Section SpliceFilter.
Variable drop : Tree -> bool.
Variable drop_of_header : nat * nat * option IntEnum -> bool.
Hypothesis drop_reads_header : forall t, drop t = drop_of_header (header t).

Lemma splice_filter (t : Tree) :
  map header (flat_map subtrees (splice drop t))
  = filter (fun h => negb (drop_of_header h)) (map header (descendants t)).
Proof.
  unfold descendants.
  induction t as [o c ty cs IH] using Tree_forall_ind. simpl.
  induction IH as [|child cs Hchild _ IHcs]; simpl; [reflexivity|].
  rewrite flat_map_app, !map_app, filter_app, IHcs. f_equal.
  rewrite (subtrees_unfold child). simpl.
  rewrite <- (drop_reads_header child).
  destruct (drop child); simpl.
  - exact Hchild.
  - rewrite app_nil_r. f_equal. exact Hchild.
Qed.
End SpliceFilter.

Lemma filter_twice {A} (p q : A -> bool) (l : list A) :
  filter q (filter p l) = filter (fun x => p x && q x) l.
Proof.
  induction l as [|x l IH]; simpl; [reflexivity|].
  destruct (p x); simpl; [|exact IH].
  destruct (q x); now rewrite IH.
Qed.

Lemma pruned_descendant_headers (token_types : list IntEnum) (tree : Tree) :
  map header
    (descendants (splice_stage (has_type_in token_types)
                    (splice_stage untagged tree)))
  = filter (kept_by_prune token_types) (map header (descendants tree)).
Proof.
  unfold splice_stage at 1. rewrite descendants_replace_children.
  rewrite (@splice_filter (has_type_in token_types)
             (fun h => type_in (snd h) token_types)) by reflexivity.
  unfold splice_stage. rewrite descendants_replace_children.
  rewrite (@splice_filter untagged
             (fun h => match snd h with None => true | Some _ => false end))
    by reflexivity.
  rewrite filter_twice. apply filter_ext.
  intros [[o c] [k|]]; reflexivity.
Qed.

(** X11.  The two pruning stages that end [Parser.parse] keep the root as it is
    and, below it, exactly the nodes that have a symbol type outside
    [pruned_non_terminals], in tree order: no such node is lost and no
    other node stays. *)
Theorem prune_keeps_exactly_typed_unpruned_nodes :
  forall (self : Engine.Parser) root_non_terminal tree pruned,
    Engine.prune self root_non_terminal tree = Return pruned ->
    header pruned = header tree /\
    map header (descendants pruned)
    = filter (kept_by_prune (Engine.pruned_non_terminals self))
        (map header (descendants tree)).
Proof.
  intros self root_non_terminal tree pruned.
  rewrite engine_prune_stages.
  destruct (untagged tree); [discriminate|].
  intros H. inversion H; subst. clear H.
  split; [reflexivity|].
  apply pruned_descendant_headers.
Qed.

Lemma prune_keeps_exactly_typed_unpruned_nodes_witness :
  header (mkTree 0 3 (Some Sample.ROOT)
            [mkTree 0 1 (Some Sample.NUMBER) [];
             mkTree 1 0 (Some Sample.NUMBER) [];
             mkTree 2 1 (Some Sample.NUMBER) []])
  = header raw_tree_3_plus_4 /\
  map header
    (descendants (mkTree 0 3 (Some Sample.ROOT)
                    [mkTree 0 1 (Some Sample.NUMBER) [];
                     mkTree 1 0 (Some Sample.NUMBER) [];
                     mkTree 2 1 (Some Sample.NUMBER) []]))
  = filter (kept_by_prune [Sample.PLUS])
      (map header (descendants raw_tree_3_plus_4)).
Proof.
  exact (@prune_keeps_exactly_typed_unpruned_nodes sample_pruning_engine
           Sample.ROOT raw_tree_3_plus_4 _ eq_refl).
Defined.

(** ** [src/parser/parser.py]: the end of the tokens *)

Section CombinatorsAtEnd.
Import Combinators.
Variable tokens : list Token.
Variable non_terminal_rules : Dict Parser.

Lemma parse_at_end_fails (fuel : nat) : forall parser offset,
  starts_with_terminal parser = true ->
  len tokens <= offset ->
  parse fuel tokens non_terminal_rules parser offset = Raise IndexError \/
  parse fuel tokens non_terminal_rules parser offset = OutOfFuel.
Proof.
  induction fuel as [|fuel IH]; intros parser offset Hs Hend; simpl;
    [now right|].
  destruct parser as [ty [|c cs]|ty c m|ty c|ty [|c cs]|ty|ty|ty l];
    simpl in Hs; try discriminate.
  - unfold OrParser_parse. simpl.
    destruct (IH c offset Hs Hend) as [-> | ->]; simpl; auto.
  - unfold RepeatParser_parse.
    destruct fuel as [|fuel']; simpl; [now right|].
    destruct (IH c offset Hs Hend) as [H | H]; simpl in H; rewrite H; simpl;
      auto.
  - unfold OptionalParser_parse.
    destruct (IH c offset Hs Hend) as [-> | ->]; simpl; auto.
  - unfold ConcatenationParser_parse. simpl.
    destruct (IH c offset Hs Hend) as [-> | ->]; simpl; auto.
  - unfold TerminalParser_parse.
    destruct (nth_error tokens offset) eqn:Hn; [|now left].
    assert (offset < len tokens) by (apply nth_error_Some; congruence). lia.
Qed.

Lemma parse_at_end_index_error (fuel : nat) : forall parser offset,
  starts_with_terminal parser = true ->
  len tokens <= offset ->
  leftmost_depth parser < fuel ->
  parse fuel tokens non_terminal_rules parser offset = Raise IndexError.
Proof.
  induction fuel as [|fuel IH]; intros parser offset Hs Hend Hfuel; [lia|].
  simpl.
  destruct parser as [ty [|c cs]|ty c m|ty c|ty [|c cs]|ty|ty|ty l];
    simpl in Hs, Hfuel; try discriminate.
  - unfold OrParser_parse. simpl. rewrite (IH c offset Hs Hend) by lia.
    reflexivity.
  - unfold RepeatParser_parse.
    destruct fuel as [|fuel']; [lia|].
    cbn [repeat_loop]. rewrite (IH c offset Hs Hend) by lia. reflexivity.
  - unfold OptionalParser_parse. rewrite (IH c offset Hs Hend) by lia.
    reflexivity.
  - unfold ConcatenationParser_parse. simpl.
    rewrite (IH c offset Hs Hend) by lia. reflexivity.
  - unfold TerminalParser_parse.
    destruct (nth_error tokens offset) eqn:Hn; [|reflexivity].
    assert (offset < len tokens) by (apply nth_error_Some; congruence). lia.
Qed.

Lemma repeat_loop_stops_before_end (f : Parser -> nat -> Result Tree)
    (child : Parser) :
  (forall offset, len tokens <= offset ->
     f child offset = Raise IndexError \/ f child offset = OutOfFuel) ->
  forall fuel sub_trees child_offset sub_trees' child_offset',
    repeat_loop f fuel child sub_trees child_offset
      = Return (sub_trees', child_offset') ->
    child_offset <= child_offset' /\ child_offset' < len tokens.
Proof.
  intros Hf. induction fuel as [|fuel IH];
    intros subs off subs' off' H; simpl in H; [discriminate|].
  destruct (f child off) as [parsed|e|] eqn:Hc; try discriminate.
  - apply IH in H. lia.
  - destruct e; try discriminate. inversion H; subst.
    split; [lia|].
    destruct (Nat.lt_ge_cases off' (len tokens)) as [Hlt | Hge];
      [exact Hlt|].
    destruct (Hf off' Hge) as [H' | H']; rewrite H' in Hc; discriminate.
Qed.
End CombinatorsAtEnd.

(** X12.  In [src/parser/parser.py] nothing checks the offset against the number
    of tokens: a parser that starts with a terminal, tried at or past the
    end of the tokens, raises [IndexError] (not [InternalParseError], the
    only exception an enclosing alternation, repetition or optional
    handles). *)
Theorem parse_at_end_of_tokens_raises_index_error :
  forall fuel tokens (rules : Dict Combinators.Parser) parser offset,
    starts_with_terminal parser = true ->
    len tokens <= offset ->
    leftmost_depth parser < fuel ->
    Combinators.parse fuel tokens rules parser offset
    = Raise Combinators.IndexError.
Proof.
  intros fuel tokens rules parser offset Hs Hend Hfuel.
  now apply parse_at_end_index_error.
Qed.

Lemma parse_at_end_of_tokens_raises_index_error_witness :
  Combinators.parse 4 Sample.tokens_3_plus_4 Sample.combinator_rules
    (Combinators.RepeatParser None
       (Combinators.ConcatenationParser None
          [Combinators.TerminalParser (Some Sample.PLUS);
           Combinators.TerminalParser (Some Sample.NUMBER)]) 0) 3
  = Raise Combinators.IndexError.
Proof.
  apply parse_at_end_of_tokens_raises_index_error.
  - reflexivity.
  - simpl. lia.
  - simpl. lia.
Defined.

(** X13.  A tree that [RepeatParser.parse] returns for a child that starts with
    a terminal ends before the last token: the loop ends only when the
    child raises [InternalParseError], and at the end of the tokens the
    child raises [IndexError] instead.  Such a repetition never consumes
    the rest of the input. *)
Theorem RepeatParser_never_reaches_end_of_tokens :
  forall fuel tokens (rules : Dict Combinators.Parser) token_type child
         min_repeats offset tree,
    starts_with_terminal child = true ->
    Combinators.parse fuel tokens rules
      (Combinators.RepeatParser token_type child min_repeats) offset
    = Return tree ->
    token_offset tree = offset /\
    offset + token_count tree < len tokens.
Proof.
  intros fuel tokens rules token_type child min_repeats offset tree Hs.
  destruct fuel as [|fuel]; simpl; [discriminate|].
  unfold Combinators.RepeatParser_parse.
  destruct (Combinators.repeat_loop _ fuel child [] offset)
    as [[sub_trees child_offset]|e|] eqn:Hloop; simpl; try discriminate.
  destruct (Z.of_nat (len sub_trees) <? min_repeats)%Z; [discriminate|].
  intros H. inversion H; subst. simpl.
  apply repeat_loop_stops_before_end with (tokens := tokens) in Hloop.
  - split; [reflexivity|lia].
  - intros off Hoff. now apply parse_at_end_fails.
Qed.

Lemma RepeatParser_never_reaches_end_of_tokens_witness :
  Combinators.parse 5
    [mkToken Sample.NUMBER 0 1; mkToken Sample.NUMBER 1 1;
     mkToken Sample.PLUS 2 1]
    Sample.combinator_rules
    (Combinators.RepeatParser None
       (Combinators.TerminalParser (Some Sample.NUMBER)) 0) 0
  = Return (mkTree 0 2 None [mkTree 0 1 (Some Sample.NUMBER) [];
                             mkTree 1 1 (Some Sample.NUMBER) []])
  /\ token_offset
       (mkTree 0 2 None [mkTree 0 1 (Some Sample.NUMBER) [];
                         mkTree 1 1 (Some Sample.NUMBER) []]) = 0
  /\ 0 + token_count
           (mkTree 0 2 None [mkTree 0 1 (Some Sample.NUMBER) [];
                             mkTree 1 1 (Some Sample.NUMBER) []])
     < len [mkToken Sample.NUMBER 0 1; mkToken Sample.NUMBER 1 1;
            mkToken Sample.PLUS 2 1].
Proof.
  split; [reflexivity|].
  apply (@RepeatParser_never_reaches_end_of_tokens 5
           [mkToken Sample.NUMBER 0 1; mkToken Sample.NUMBER 1 1;
            mkToken Sample.PLUS 2 1]
           Sample.combinator_rules None
           (Combinators.TerminalParser (Some Sample.NUMBER)) 0 0).
  - reflexivity.
  - reflexivity.
Defined.

(** ** [src/parser/parser.py] accepts only what the rules derive *)

Section CombinatorsSound.
Import Combinators.
Variable tokens : list Token.
Variable rules : Dict Parser.
Variable f : Parser -> nat -> Result Tree.

Hypothesis Hf : forall parser offset t,
  f parser offset = Return t ->
  parser_accepted tokens rules parser offset (offset + token_count t).

Lemma parser_concatenation_loop_derives ty (cs : list Parser) :
  forall sub_trees child_offset sub_trees' child_offset',
    concatenation_loop f cs sub_trees child_offset
      = Return (sub_trees', child_offset') ->
    parser_accepted tokens rules (ConcatenationParser ty cs)
      child_offset child_offset'.
Proof.
  induction cs as [|c cs IH]; intros subs off subs' off' H; simpl in H.
  - inversion H; subst. split; [lia|].
    rewrite Nat.sub_diag. apply parser_derives_concatenation_nil.
  - destruct (f c off) as [parsed|e|] eqn:Hc; simpl in H; try discriminate.
    apply Hf in Hc. destruct Hc as [_ Hc].
    apply IH in H. destruct H as [Hle H].
    split; [lia|].
    replace (off' - off)
      with (token_count parsed + (off' - (off + token_count parsed))) by lia.
    rewrite token_types_at_plus.
    replace (off + token_count parsed - off) with (token_count parsed) in Hc
      by lia.
    now apply parser_derives_concatenation_cons.
Qed.

Lemma parser_repeat_loop_derives (fuel : nat) (c : Parser) :
  forall sub_trees child_offset sub_trees' child_offset',
    repeat_loop f fuel c sub_trees child_offset
      = Return (sub_trees', child_offset') ->
    child_offset <= child_offset' /\
    exists ws,
      Forall (parser_derives rules c) ws /\
      len sub_trees' = len sub_trees + len ws /\
      List.concat ws
      = token_types_at tokens child_offset (child_offset' - child_offset).
Proof.
  induction fuel as [|fuel IH]; intros subs off subs' off' H; simpl in H;
    [discriminate|].
  destruct (f c off) as [parsed|e|] eqn:Hc; try discriminate.
  - apply Hf in Hc. destruct Hc as [_ Hc].
    apply IH in H. destruct H as (Hle & ws & Hall & Hlen & Hws).
    split; [lia|].
    replace (off + token_count parsed - off) with (token_count parsed) in Hc
      by lia.
    exists (token_types_at tokens off (token_count parsed) :: ws).
    split; [now constructor|]. split.
    + rewrite Hlen, length_app. simpl. lia.
    + simpl. rewrite Hws.
      replace (off' - off)
        with (token_count parsed + (off' - (off + token_count parsed)))
        by lia.
      now rewrite token_types_at_plus.
  - destruct e; try discriminate. inversion H; subst. split; [lia|].
    exists []. split; [constructor|]. split; [simpl; lia|].
    now rewrite Nat.sub_diag.
Qed.

Lemma or_loop_derives ty (all : list Parser) (cs : list Parser) :
  forall offset longest_parsed parsed,
    (forall c, In c cs -> In c all) ->
    (forall l, longest_parsed = Some l ->
       parser_accepted tokens rules (OrParser ty all) offset
         (offset + token_count l)) ->
    or_loop f cs offset longest_parsed = Return (Some parsed) ->
    parser_accepted tokens rules (OrParser ty all) offset
      (offset + token_count parsed).
Proof.
  induction cs as [|c cs IH]; intros offset longest parsed Hin Hl H;
    simpl in H.
  - inversion H; subst. now apply Hl.
  - assert (Hcs : forall c', In c' cs -> In c' all)
      by (intros c' Hc'; apply Hin; now right).
    destruct (f c offset) as [p|e|] eqn:Hc; try discriminate.
    + assert (Hp : parser_accepted tokens rules (OrParser ty all) offset
                     (offset + token_count p)).
      { apply Hf in Hc. destruct Hc as [Hle Hc]. split; [exact Hle|].
        eapply parser_derives_or; [|exact Hc]. apply Hin. now left. }
      destruct longest as [l|].
      * destruct (token_count l <? token_count p).
        -- eapply IH; [exact Hcs| |exact H].
           intros l' Hl'. inversion Hl'; subst. exact Hp.
        -- eapply IH; [exact Hcs| |exact H].
           intros l' Hl'. inversion Hl'; subst. now apply Hl.
      * eapply IH; [exact Hcs| |exact H].
        intros l' Hl'. inversion Hl'; subst. exact Hp.
    + destruct e; try discriminate.
      eapply IH; [exact Hcs|exact Hl|exact H].
Qed.
End CombinatorsSound.

Lemma parse_accepted tokens (rules : Dict Combinators.Parser) (fuel : nat) :
  forall parser offset t,
    Combinators.parse fuel tokens rules parser offset = Return t ->
    parser_accepted tokens rules parser offset (offset + token_count t).
Proof.
  induction fuel as [|fuel IH]; intros parser offset t; simpl;
    [discriminate|].
  destruct parser as [ty cs|ty c m|ty c|ty cs|ty|ty|ty l].
  - unfold Combinators.OrParser_parse.
    destruct (Combinators.or_loop _ cs offset None) as [[parsed|]|e|] eqn:Hloop;
      simpl; try discriminate.
    intros H. inversion H; subst. simpl.
    eapply or_loop_derives; [exact IH| | |exact Hloop].
    + intros c Hc. exact Hc.
    + discriminate.
  - unfold Combinators.RepeatParser_parse.
    destruct (Combinators.repeat_loop _ fuel c [] offset)
      as [[subs off]|e|] eqn:Hloop; simpl; try discriminate.
    destruct (Z.of_nat (len subs) <? m)%Z eqn:Hmin; [discriminate|].
    intros H. inversion H; subst. simpl.
    eapply parser_repeat_loop_derives in Hloop; [|exact IH].
    destruct Hloop as (Hle & ws & Hall & Hlen & Hws).
    split; [lia|].
    replace (offset + (off - offset) - offset) with (off - offset) by lia.
    rewrite <- Hws. apply parser_derives_repeat; [exact Hall|].
    apply Z.ltb_ge in Hmin. simpl in Hlen. lia.
  - unfold Combinators.OptionalParser_parse.
    destruct (Combinators.parse fuel tokens rules c offset)
      as [parsed|e|] eqn:Hc; try discriminate.
    + intros H. inversion H; subst. simpl.
      destruct (IH _ _ _ Hc) as [Hle Hd].
      split; [exact Hle|]. now apply parser_derives_optional_some.
    + destruct e; try discriminate. intros H. inversion H; subst. simpl.
      split; [lia|]. replace (offset + 0 - offset) with 0 by lia.
      apply parser_derives_optional_none.
  - unfold Combinators.ConcatenationParser_parse.
    destruct (Combinators.concatenation_loop _ cs [] offset)
      as [[subs off]|e|] eqn:Hloop; simpl; try discriminate.
    intros H. inversion H; subst. simpl.
    eapply parser_concatenation_loop_derives with (ty := ty) in Hloop;
      [|exact IH].
    destruct Hloop as [Hle Hd].
    split; [lia|].
    now replace (offset + (off - offset) - offset) with (off - offset) by lia.
  - unfold Combinators.TerminalParser_parse.
    destruct (nth_error tokens offset) as [token|] eqn:Htok; [|discriminate].
    destruct ty as [k|]; simpl; [|discriminate].
    destruct (enum_eqb (type token) k) eqn:Heq; simpl; [|discriminate].
    destruct (truthy k); simpl; [|discriminate].
    intros H. inversion H; subst. simpl.
    split; [lia|]. replace (offset + 1 - offset) with 1 by lia.
    rewrite (token_types_at_one _ _ Htok).
    now apply parser_derives_terminal.
  - unfold Combinators.NonTerminalParser_parse, Combinators.assert_truthy.
    destruct ty as [k|]; simpl; [|discriminate].
    destruct (truthy k); simpl; [|discriminate].
    destruct (dict_get rules k) as [rule|] eqn:Hget; [|discriminate].
    intros H. destruct (IH _ _ _ H) as [Hle Hd].
    split; [exact Hle|].
    eapply parser_derives_non_terminal; eassumption.
  - unfold Combinators.LiteralParser_parse.
    destruct (keys rules) as [|first_key other_keys] eqn:Hkeys;
      [discriminate|].
    cbv zeta.
    destruct (enum_getitem (enum_type first_key) _) as [entry|] eqn:Hentry;
      [|discriminate].
    destruct (dict_get rules entry) as [rule|] eqn:Hget; [|discriminate].
    intros H. destruct (IH _ _ _ H) as [Hle Hd].
    split; [exact Hle|].
    eapply parser_derives_literal; eassumption.
Qed.

(** X14.  A tree that a parser of [src/parser/parser.py] returns spans tokens
    whose types, in order, are a sequence the rule table derives from the
    parser; for a repetition the sequence consists of at least
    [min_repeats] sequences of the child. *)
Theorem combinator_parse_returns_derivable_span :
  forall fuel tokens (rules : Dict Combinators.Parser) parser offset t,
    Combinators.parse fuel tokens rules parser offset = Return t ->
    parser_derives rules parser
      (token_types_at tokens offset (token_count t)).
Proof.
  intros fuel tokens rules parser offset t H.
  destruct (parse_accepted tokens rules fuel _ _ H) as [_ Hd].
  now replace (offset + token_count t - offset) with (token_count t) in Hd
    by lia.
Qed.

Lemma combinator_parse_returns_derivable_span_witness :
  parser_derives Sample.combinator_rules
    (Combinators.OrParser None
       [Combinators.NonTerminalParser (Some Sample.PLUS);
        Combinators.RepeatParser None
          (Combinators.TerminalParser (Some Sample.NUMBER)) 1])
    [Sample.NUMBER].
Proof.
  exact (@combinator_parse_returns_derivable_span 5 Sample.tokens_3_plus_4
           Sample.combinator_rules
           (Combinators.OrParser None
              [Combinators.NonTerminalParser (Some Sample.PLUS);
               Combinators.RepeatParser None
                 (Combinators.TerminalParser (Some Sample.NUMBER)) 1])
           0 _ eq_refl).
Defined.

(** ** [src/parser/exceptions.py]: the line and the column of an offset *)

Lemma String_length_chars (s : string) :
  String.length s = len (list_ascii_of_string s).
Proof. induction s; simpl; congruence. Qed.

Lemma rfind_newline_list_split (l : list ascii) : forall i last,
  exists before_line on_line,
    l = before_line ++ on_line /\ no_newline on_line /\
    ((before_line = [] /\ rfind_newline_list l i last = last) \/
     (exists p, before_line = p ++ [newline] /\
        rfind_newline_list l i last = (i + Z.of_nat (len p))%Z)).
Proof.
  induction l as [|c l IH]; intros i last; simpl.
  - exists [], []. split; [reflexivity|]. split; [constructor|]. now left.
  - destruct (IH (i + 1)%Z (if Ascii.eqb c newline then i else last))
      as (before_line & on_line & Hl & Hno & [[Hp Hr] | (p & Hp & Hr)]).
    + destruct (Ascii.eqb c newline) eqn:Hc.
      * apply Ascii.eqb_eq in Hc. subst c before_line.
        exists [newline], on_line. split; [now rewrite Hl|].
        split; [exact Hno|]. right. exists []. split; [reflexivity|].
        rewrite Hr. simpl. lia.
      * subst before_line. exists [], (c :: on_line).
        split; [now rewrite Hl|]. split; [now constructor|].
        left. split; [reflexivity|exact Hr].
    + exists (c :: before_line), on_line. split; [now rewrite Hl|].
      split; [exact Hno|]. right. exists (c :: p).
      split; [now rewrite Hp|]. rewrite Hr. cbn [List.length]. lia.
Qed.

Lemma find_newline_list_split (l : list ascii) : forall i,
  exists after_offset rest,
    l = after_offset ++ rest /\ no_newline after_offset /\
    ((rest = [] /\ find_newline_list l i = (-1)%Z) \/
     (exists p, rest = newline :: p /\
        find_newline_list l i = (i + Z.of_nat (len after_offset))%Z)).
Proof.
  induction l as [|c l IH]; intros i; simpl.
  - exists [], []. split; [reflexivity|]. split; [constructor|]. now left.
  - destruct (Ascii.eqb c newline) eqn:Hc.
    + apply Ascii.eqb_eq in Hc. subst c. exists [], (newline :: l).
      split; [reflexivity|]. split; [constructor|]. right. exists l.
      split; [reflexivity|]. simpl. lia.
    + destruct (IH (i + 1)%Z)
        as (after_offset & rest & Hl & Hno & [[Hp Hr] | (p & Hp & Hr)]).
      * exists (c :: after_offset), rest. split; [now rewrite Hl|].
        split; [now constructor|]. left. now split.
      * exists (c :: after_offset), rest. split; [now rewrite Hl|].
        split; [now constructor|]. right. exists p.
        split; [exact Hp|]. rewrite Hr. cbn [List.length]. lia.
Qed.

Lemma newlines_in_app_no_newline (a b : list ascii) :
  no_newline b -> newlines_in (a ++ b) = newlines_in a.
Proof.
  intros Hb. unfold newlines_in. rewrite filter_app, length_app.
  replace (filter (Ascii.eqb newline) b) with (@nil ascii); [simpl; lia|].
  induction Hb as [|c b Hc _ IH]; cbn [filter]; [reflexivity|].
  rewrite Ascii.eqb_sym, Hc. exact IH.
Qed.

Lemma firstn_exact {A} (b c : list A) : firstn (len b) (b ++ c) = b.
Proof. induction b; simpl; congruence. Qed.

Lemma skipn_exact {A} (a b : list A) : skipn (len a) (a ++ b) = b.
Proof. induction a; simpl; congruence. Qed.

Lemma slice_middle {A} (a b c : list A) :
  skipn (len a) (firstn (len a + len b) (a ++ b ++ c)) = b.
Proof.
  induction a as [|x a IH]; simpl; [apply firstn_exact|exact IH].
Qed.

(** The parts of a text around position [n]: the complete lines before
    it, the part of its line before it, the rest of its line, and what
    follows the line. *)
Lemma line_parts (l : list ascii) (n : nat) :
  exists before_line on_line after_offset rest,
    firstn n l = before_line ++ on_line /\
    skipn n l = after_offset ++ rest /\
    at_line_start before_line /\ at_line_end rest /\
    no_newline on_line /\ no_newline after_offset /\
    rfind_newline_list (firstn n l) 0 (-1)
    = (Z.of_nat (len before_line) - 1)%Z /\
    skipn (len before_line)
      (firstn (Z.to_nat
                 (if (find_newline_list (skipn n l) (Z.of_nat n) =? -1)%Z
                  then Z.of_nat (len l)
                  else find_newline_list (skipn n l) (Z.of_nat n))) l)
    = on_line ++ after_offset.
Proof.
  destruct (rfind_newline_list_split (firstn n l) 0 (-1))
    as (before_line & on_line & Hb & Hno & Hprev).
  destruct (find_newline_list_split (skipn n l) (Z.of_nat n))
    as (after_offset & rest & Ha & Hno' & Hnext).
  exists before_line, on_line, after_offset, rest.
  assert (Hl : l = before_line ++ (on_line ++ after_offset) ++ rest).
  { rewrite <- (firstn_skipn n l) at 1. rewrite Hb, Ha.
    now rewrite <- !app_assoc. }
  split; [exact Hb|]. split; [exact Ha|].
  split; [destruct Hprev as [[-> _] | (p & -> & _)];
          [now left | right; now exists p]|].
  split; [destruct Hnext as [[-> _] | (p & -> & _)];
          [now left | right; now exists p]|].
  split; [exact Hno|]. split; [exact Hno'|].
  split.
  - destruct Hprev as [[-> ->] | (p & -> & ->)]; [reflexivity|].
    rewrite length_app. simpl. lia.
  - destruct Hnext as [[-> ->] | (p & -> & ->)].
    + simpl. rewrite Nat2Z.id, firstn_all.
      rewrite Hl, app_nil_r. apply skipn_exact.
    + assert (Hn : n = len before_line + len on_line).
      { assert (Hlt : n < len l).
        { destruct (Nat.lt_ge_cases n (len l)) as [H | H]; [exact H|].
          rewrite (skipn_all2 l H) in Ha. now destruct after_offset. }
        rewrite <- length_app, <- Hb, length_firstn. lia. }
      replace (Z.of_nat n + Z.of_nat (len after_offset) =? -1)%Z with false
        by (symmetry; apply Z.eqb_neq; lia).
      replace (Z.to_nat (Z.of_nat n + Z.of_nat (len after_offset)))
        with (len before_line + len (on_line ++ after_offset))
        by (rewrite length_app; lia).
      rewrite Hl at 1. apply slice_middle.
Qed.

Lemma get_line_chars (self : BaseParseError.BaseParseError) :
  let l := list_ascii_of_string (BaseParseError.code self) in
  let n := BaseParseError.offset self in
  list_ascii_of_string (BaseParseError.get_line self)
  = skipn (Z.to_nat (rfind_newline_list (firstn n l) 0 (-1) + 1))
      (firstn (Z.to_nat
                 (if (find_newline_list (skipn n l) (Z.of_nat n) =? -1)%Z
                  then Z.of_nat (len l)
                  else find_newline_list (skipn n l) (Z.of_nat n))) l).
Proof.
  unfold BaseParseError.get_line, str_slice, rfind_newline_before,
    find_newline.
  cbv zeta. rewrite list_ascii_of_string_of_list_ascii, String_length_chars.
  reflexivity.
Qed.

(** X15.  [get_line_column_numbers] of an error whose offset lies in the text:
    the text before the offset is [line_num - 1] complete lines followed
    by the first [col_num - 1] characters of the line [get_line] returns.
    Lines and columns count from 1. *)
Theorem get_line_column_numbers_locates_offset :
  forall self : BaseParseError.BaseParseError,
    BaseParseError.offset self <= String.length (BaseParseError.code self) ->
    exists before_line on_line after_offset,
      firstn (BaseParseError.offset self)
        (list_ascii_of_string (BaseParseError.code self))
      = before_line ++ on_line /\
      at_line_start before_line /\
      list_ascii_of_string (BaseParseError.get_line self)
      = on_line ++ after_offset /\
      BaseParseError.get_line_column_numbers self
      = ((1 + Z.of_nat (newlines_in before_line))%Z,
         (1 + Z.of_nat (len on_line))%Z).
Proof.
  intros self Hoffset. rewrite String_length_chars in Hoffset.
  pose proof (get_line_chars self) as Hline. cbv zeta in Hline.
  destruct (line_parts (list_ascii_of_string (BaseParseError.code self))
              (BaseParseError.offset self))
    as (before_line & on_line & after_offset & rest
        & Hb & Ha & Hstart & Hend & Hno & Hno' & Hprev & Hslice).
  exists before_line, on_line, after_offset.
  split; [exact Hb|]. split; [exact Hstart|]. split.
  - rewrite Hline, Hprev.
    replace (Z.to_nat (Z.of_nat (len before_line) - 1 + 1))
      with (len before_line) by lia.
    exact Hslice.
  - unfold BaseParseError.get_line_column_numbers, count_newlines,
      rfind_newline, str_upto.
    cbv zeta. rewrite list_ascii_of_string_of_list_ascii.
    fold (newlines_in (firstn (BaseParseError.offset self)
                         (list_ascii_of_string (BaseParseError.code self)))).
    rewrite Hprev, Hb, (newlines_in_app_no_newline _ Hno).
    assert (Hn : BaseParseError.offset self = len before_line + len on_line).
    { rewrite <- length_app, <- Hb, length_firstn. lia. }
    f_equal. lia.
Qed.

Lemma get_line_column_numbers_locates_offset_witness :
  exists before_line on_line after_offset,
    firstn 3 (list_ascii_of_string (BaseParseError.code sample_error))
    = before_line ++ on_line /\
    at_line_start before_line /\
    list_ascii_of_string (BaseParseError.get_line sample_error)
    = on_line ++ after_offset /\
    BaseParseError.get_line_column_numbers sample_error
    = ((1 + Z.of_nat (newlines_in before_line))%Z,
       (1 + Z.of_nat (len on_line))%Z).
Proof.
  apply (get_line_column_numbers_locates_offset sample_error).
  simpl. lia.
Defined.

(** X16.  [get_line] returns the line of the text the offset lies on: a slice of
    the text without a newline, which starts at the start of the text or
    after a newline, ends at the end of the text or before a newline, and
    holds the offset (or ends at it). *)
Theorem get_line_returns_line_of_offset :
  forall self : BaseParseError.BaseParseError,
    exists before after,
      list_ascii_of_string (BaseParseError.code self)
      = before ++ list_ascii_of_string (BaseParseError.get_line self) ++ after /\
      at_line_start before /\ at_line_end after /\
      no_newline (list_ascii_of_string (BaseParseError.get_line self)) /\
      len before <= BaseParseError.offset self /\
      Nat.min (BaseParseError.offset self)
        (String.length (BaseParseError.code self))
      <= len before + String.length (BaseParseError.get_line self).
Proof.
  intros self.
  pose proof (get_line_chars self) as Hline. cbv zeta in Hline.
  destruct (line_parts (list_ascii_of_string (BaseParseError.code self))
              (BaseParseError.offset self))
    as (before_line & on_line & after_offset & rest
        & Hb & Ha & Hstart & Hend & Hno & Hno' & Hprev & Hslice).
  rewrite Hprev in Hline.
  replace (Z.to_nat (Z.of_nat (len before_line) - 1 + 1))
    with (len before_line) in Hline by lia.
  rewrite Hslice in Hline.
  assert (Hn : Nat.min (BaseParseError.offset self)
                 (len (list_ascii_of_string (BaseParseError.code self)))
               = len before_line + len on_line).
  { rewrite <- length_app, <- Hb, length_firstn. reflexivity. }
  exists before_line, rest. rewrite !String_length_chars, Hline.
  split.
  - rewrite <- (firstn_skipn (BaseParseError.offset self)
                  (list_ascii_of_string (BaseParseError.code self))) at 1.
    rewrite Hb, Ha. now rewrite <- !app_assoc.
  - split; [exact Hstart|]. split; [exact Hend|].
    split; [apply Forall_app; now split|].
    rewrite length_app. lia.
Qed.

(** X17.  The [ParseError] that [humanize_parse_error] builds for a token whose
    offset lies in the text: its line number is one more than the number
    of complete lines before the token, its column is one more than the
    number of characters of the line before the token, and its line is
    that line, without a newline. *)
Theorem humanize_parse_error_locates_token :
  forall code tokens token_offset token,
    nth_error tokens token_offset = Some token ->
    offset token <= String.length code ->
    exists before_line on_line after_offset rest,
      firstn (offset token) (list_ascii_of_string code)
      = before_line ++ on_line /\
      skipn (offset token) (list_ascii_of_string code)
      = after_offset ++ rest /\
      at_line_start before_line /\ at_line_end rest /\
      no_newline (on_line ++ after_offset) /\
      Combinators.humanize_parse_error code tokens token_offset
      = Return (Combinators.ParseError
                  (1 + Z.of_nat (newlines_in before_line))
                  (1 + Z.of_nat (len on_line))
                  (string_of_list_ascii (on_line ++ after_offset)) []).
Proof.
  intros code tokens token_offset token Htok Hoffset.
  rewrite String_length_chars in Hoffset.
  destruct (line_parts (list_ascii_of_string code) (offset token))
    as (before_line & on_line & after_offset & rest
        & Hb & Ha & Hstart & Hend & Hno & Hno' & Hprev & Hslice).
  exists before_line, on_line, after_offset, rest.
  split; [exact Hb|]. split; [exact Ha|].
  split; [exact Hstart|]. split; [exact Hend|].
  split; [apply Forall_app; now split|].
  unfold Combinators.humanize_parse_error. rewrite Htok. cbv zeta.
  unfold count_newlines, rfind_newline, str_upto, str_slice, find_newline.
  rewrite list_ascii_of_string_of_list_ascii, String_length_chars.
  fold (newlines_in (firstn (offset token) (list_ascii_of_string code))).
  rewrite Hprev.
  replace (Z.to_nat (Z.of_nat (len before_line) - 1 + 1))
    with (len before_line) by lia.
  rewrite Hslice, Hb, (newlines_in_app_no_newline _ Hno).
  assert (Hn : offset token = len before_line + len on_line).
  { rewrite <- length_app, <- Hb, length_firstn. lia. }
  do 2 f_equal. lia.
Qed.

Lemma humanize_parse_error_locates_token_witness :
  exists before_line on_line after_offset rest,
    firstn 1 (list_ascii_of_string "3+4") = before_line ++ on_line /\
    skipn 1 (list_ascii_of_string "3+4") = after_offset ++ rest /\
    at_line_start before_line /\ at_line_end rest /\
    no_newline (on_line ++ after_offset) /\
    Combinators.humanize_parse_error "3+4" Sample.tokens_3_plus_4 1
    = Return (Combinators.ParseError
                (1 + Z.of_nat (newlines_in before_line))
                (1 + Z.of_nat (len on_line))
                (string_of_list_ascii (on_line ++ after_offset)) []).
Proof.
  apply (@humanize_parse_error_locates_token "3+4" Sample.tokens_3_plus_4 1
           (mkToken Sample.PLUS 1 1) eq_refl).
  simpl. lia.
Defined.

(** ** [src/parser/grammar.py]: escaping and unescaping *)

Lemma forall_bool_spec (p : bool -> bool) :
  forall_bool p = true -> forall b, p b = true.
Proof.
  unfold forall_bool. intros H b. apply andb_prop in H.
  destruct b; tauto.
Qed.

Lemma forall_ascii_spec (p : ascii -> bool) :
  forall_ascii p = true -> forall x, p x = true.
Proof.
  unfold forall_ascii. intros H [b0 b1 b2 b3 b4 b5 b6 b7].
  apply forall_bool_spec with (b := b0) in H.
  apply forall_bool_spec with (b := b1) in H.
  apply forall_bool_spec with (b := b2) in H.
  apply forall_bool_spec with (b := b3) in H.
  apply forall_bool_spec with (b := b4) in H.
  apply forall_bool_spec with (b := b5) in H.
  apply forall_bool_spec with (b := b6) in H.
  apply forall_bool_spec with (b := b7) in H.
  exact H.
Qed.

Lemma chars_eqb_eq (a b : list ascii) : chars_eqb a b = true <-> a = b.
Proof.
  revert b. induction a as [|x a IH]; intros [|y b]; simpl;
    try (split; [discriminate|discriminate]); [tauto|].
  rewrite andb_true_iff, Ascii.eqb_eq, IH.
  split; [intros [-> ->]; reflexivity|intros H; inversion H; auto].
Qed.

Lemma str_replace_chars (s old new : string) :
  list_ascii_of_string (str_replace s old new)
  = replace_from (list_ascii_of_string old) (list_ascii_of_string new) 0
      (list_ascii_of_string s).
Proof. apply list_ascii_of_string_of_list_ascii. Qed.

Lemma escape_fold_chars (steps : list (string * string)) : forall s,
  list_ascii_of_string
    (fold_left (fun result '(before, after) => str_replace result before after)
       steps s)
  = fold_left
      (fun result (step : string * string) =>
         replace_from (list_ascii_of_string (fst step))
           (list_ascii_of_string (snd step)) 0 result)
      steps (list_ascii_of_string s).
Proof.
  induction steps as [|[before after] steps IH]; intros s; simpl;
    [reflexivity|].
  now rewrite IH, str_replace_chars.
Qed.

Lemma unescape_fold_chars (steps : list (string * string)) : forall s,
  list_ascii_of_string
    (fold_left (fun result '(after, before) => str_replace result before after)
       steps s)
  = fold_left
      (fun result (step : string * string) =>
         replace_from (list_ascii_of_string (snd step))
           (list_ascii_of_string (fst step)) 0 result)
      steps (list_ascii_of_string s).
Proof.
  induction steps as [|[after before] steps IH]; intros s; simpl;
    [reflexivity|].
  now rewrite IH, str_replace_chars.
Qed.

(** Replacing a single character works character by character. *)
Lemma replace_single_character (c : ascii) (new l : list ascii) :
  replace_from [c] new 0 l
  = flat_map (fun x => if Ascii.eqb c x then new else [x]) l.
Proof.
  induction l as [|x l IH]; simpl; [reflexivity|].
  rewrite andb_true_r. destruct (Ascii.eqb c x); simpl; now rewrite IH.
Qed.

Lemma flat_map_flat_map {A B C} (g : B -> list C) (h : A -> list B)
    (l : list A) :
  flat_map g (flat_map h l) = flat_map (fun x => flat_map g (h x)) l.
Proof.
  induction l as [|x l IH]; simpl; [reflexivity|].
  now rewrite flat_map_app, IH.
Qed.

Lemma escape_steps (steps : list (string * string)) :
  forallb (fun step => single_character (fst step)) steps = true ->
  forall (h : ascii -> list ascii) (l : list ascii),
    fold_left
      (fun result (step : string * string) =>
         replace_from (list_ascii_of_string (fst step))
           (list_ascii_of_string (snd step)) 0 result)
      steps (flat_map h l)
    = flat_map
        (fun x =>
           fold_left
             (fun result (step : string * string) =>
                replace_from (list_ascii_of_string (fst step))
                  (list_ascii_of_string (snd step)) 0 result)
             steps (h x)) l.
Proof.
  induction steps as [|[before after] steps IH]; intros Hsingle h l;
    simpl in *; [reflexivity|].
  apply andb_prop in Hsingle. destruct Hsingle as [Hb Hsingle].
  unfold single_character in Hb.
  destruct (list_ascii_of_string before) as [|c [|? ?]]; try discriminate.
  rewrite replace_single_character, flat_map_flat_map.
  rewrite (IH Hsingle). apply flat_map_ext. intros x.
  now rewrite replace_single_character.
Qed.

(** [escape_string] works character by character. *)
Lemma escape_chars_flat_map (l : list ascii) :
  escape_chars l = flat_map (fun x => escape_chars [x]) l.
Proof.
  unfold escape_chars.
  rewrite <- (escape_steps Grammar.ESCAPE_SEQUENCES eq_refl (fun x => [x]) l).
  f_equal. induction l as [|x l IH]; simpl; congruence.
Qed.

(** Replacing a backslash and a character works unit by unit on a text
    of valid units. *)
Lemma replace_escape_pair (e : ascii) (new : list ascii)
    (h : ascii -> list ascii) (l : list ascii) :
  Forall (fun x => valid_unit (h x) = true) l ->
  replace_from [Grammar.backslash; e] new 0 (flat_map h l)
  = flat_map
      (fun x => if chars_eqb (h x) [Grammar.backslash; e] then new else h x) l.
Proof.
  induction 1 as [|x l Hx _ IH]; [reflexivity|].
  cbn [flat_map]. unfold valid_unit in Hx.
  destruct (h x) as [|a [|b [|? ?]]]; try discriminate.
  - apply negb_true_iff in Hx.
    cbn [app replace_from starts_with chars_eqb].
    rewrite (Ascii.eqb_sym Grammar.backslash a), Hx. simpl.
    now rewrite IH.
  - apply andb_prop in Hx. destruct Hx as [Ha Hb].
    apply Ascii.eqb_eq in Ha. subst a. apply negb_true_iff in Hb.
    cbn [app replace_from starts_with chars_eqb List.length Nat.sub].
    rewrite Ascii.eqb_refl, !andb_true_r. cbn [andb].
    rewrite (Ascii.eqb_sym b e).
    destruct (Ascii.eqb e b).
    + now rewrite IH.
    + rewrite (Ascii.eqb_sym Grammar.backslash b), Hb. cbn [andb].
      now rewrite IH.
Qed.

Lemma unescape_steps (steps : list (string * string)) :
  forall (h : ascii -> list ascii) (l : list ascii),
    units_ok steps h = true ->
    Forall (fun c => Ascii.eqb c Grammar.backslash = false) l ->
    fold_left
      (fun result (step : string * string) =>
         replace_from (list_ascii_of_string (snd step))
           (list_ascii_of_string (fst step)) 0 result)
      steps (flat_map h l)
    = flat_map (fun x => fold_left unescape_unit steps (h x)) l.
Proof.
  induction steps as [|[after before] steps IH]; intros h l Hok Hl;
    cbn [fold_left units_ok fst snd] in *; [reflexivity|].
  apply andb_prop in Hok. destruct Hok as [Hok Hrest].
  apply andb_prop in Hok. destruct Hok as [Hpair Hvalid].
  unfold escape_pair in Hpair.
  destruct (list_ascii_of_string before) as [|a [|e [|? ?]]] eqn:Hbefore;
    try discriminate.
  apply Ascii.eqb_eq in Hpair. subst a.
  rewrite replace_escape_pair.
  - rewrite <- (IH _ l Hrest Hl). f_equal. apply flat_map_ext. intros x.
    unfold unescape_unit. cbn [fst snd]. now rewrite Hbefore.
  - rewrite Forall_forall in *. intros x Hx.
    pose proof (forall_ascii_spec _ Hvalid x) as Hv. cbv beta in Hv.
    rewrite (Hl x Hx) in Hv. exact Hv.
Qed.

Lemma unescape_escape_chars (l : list ascii) :
  Forall (fun c => Ascii.eqb c Grammar.backslash = false) l ->
  unescape_chars (escape_chars l) = l.
Proof.
  intros Hl. rewrite escape_chars_flat_map. unfold unescape_chars.
  rewrite unescape_steps; [| vm_compute; reflexivity | exact Hl].
  assert (Hunit : forall_ascii
            (fun x => Ascii.eqb x Grammar.backslash
                      || chars_eqb
                           (fold_left unescape_unit Grammar.ESCAPE_SEQUENCES
                              (escape_chars [x])) [x]) = true)
    by (vm_compute; reflexivity).
  induction Hl as [|x l Hx _ IH]; [reflexivity|].
  cbn [flat_map]. rewrite IH.
  pose proof (forall_ascii_spec _ Hunit x) as Hu. cbv beta in Hu.
  rewrite Hx in Hu. apply chars_eqb_eq in Hu. now rewrite Hu.
Qed.

Lemma chars_append (a b : string) :
  list_ascii_of_string (a ++ b)
  = list_ascii_of_string a ++ list_ascii_of_string b.
Proof. induction a; simpl; congruence. Qed.

Lemma chars_injective (a b : string) :
  list_ascii_of_string a = list_ascii_of_string b -> a = b.
Proof.
  intros H. rewrite <- (string_of_list_ascii_of_string a),
    <- (string_of_list_ascii_of_string b). now rewrite H.
Qed.

(** X18.  [unescape_string] undoes [escape_string] on every text without a
    backslash: the escaped text passes the check of the quotes and the
    replacements give the text back.  (With a backslash in the text the
    replacements of [unescape_string], made in the order of
    [escape_string], can take an escaped backslash and the character after
    it for an escape sequence.) *)
Theorem unescape_string_inverts_escape_string :
  forall s : string,
    no_backslash s ->
    Grammar.unescape_string (Grammar.escape_string s) = Return s.
Proof.
  intros s Hs. unfold Grammar.escape_string. cbv zeta.
  set (body := fold_left _ Grammar.ESCAPE_SEQUENCES s).
  assert (Hbody : list_ascii_of_string body
                  = escape_chars (list_ascii_of_string s))
    by (apply escape_fold_chars).
  assert (Hchars : list_ascii_of_string
                     (Grammar.one Grammar.double_quote ++ body
                      ++ Grammar.one Grammar.double_quote)
                   = Grammar.double_quote
                     :: list_ascii_of_string body ++ [Grammar.double_quote])
    by (rewrite !chars_append; reflexivity).
  unfold Grammar.unescape_string. cbv zeta.
  unfold str_slice. rewrite String_length_chars, Hchars.
  cbn [List.length nth]. rewrite length_app. cbn [List.length].
  replace (last (Grammar.double_quote
                 :: list_ascii_of_string body ++ [Grammar.double_quote]) zero)
    with Grammar.double_quote
    by (rewrite app_comm_cons; now rewrite last_last).
  rewrite Ascii.eqb_refl.
  replace (S (len (list_ascii_of_string body) + 1) <? 2) with false
    by (symmetry; apply Nat.ltb_ge; lia).
  cbn [orb negb]. f_equal. apply chars_injective.
  rewrite unescape_fold_chars, list_ascii_of_string_of_list_ascii.
  replace (S (len (list_ascii_of_string body) + 1) - 1)
    with (S (len (list_ascii_of_string body))) by lia.
  cbn [firstn skipn]. rewrite firstn_exact, Hbody.
  now apply unescape_escape_chars.
Qed.

Lemma unescape_string_inverts_escape_string_witness :
  Grammar.unescape_string
    (Grammar.escape_string
       (String "i" (String "t" (String Grammar.quote
          (String "s" (String newline EmptyString))))))
  = Return (String "i" (String "t" (String Grammar.quote
              (String "s" (String newline EmptyString))))).
Proof.
  apply unescape_string_inverts_escape_string.
  repeat constructor.
Defined.

(** ** The tree [Parser.parse] returns *)

(** X19.  The tree that [Parser.parse] returns: its root carries the root
    symbol (the member that [root_token] names in the enumeration of the
    table's first key) and spans all the tokens from 0; every node below
    the root has a symbol type, which is not in [pruned_non_terminals],
    and a span that ends within the tokens. *)
Theorem parse_returns_typed_tree_over_all_tokens :
  forall (self : Engine.Parser) fuel t,
    Engine.parse self fuel = Return t ->
    token_offset t = 0 /\
    token_count t = len (Engine.tokens self) /\
    (exists first_key other_keys root,
        keys (Engine.non_terminal_rules self) = first_key :: other_keys /\
        enum_getitem (enum_type first_key) (Engine.root_token self)
          = Some root /\
        token_type t = Some root) /\
    Forall (fun d =>
              (exists k, token_type d = Some k /\
                 enum_in k (Engine.pruned_non_terminals self) = false) /\
              token_offset d + token_count d <= len (Engine.tokens self))
      (descendants t).
Proof.
  intros self fuel t. unfold Engine.parse.
  destruct (Engine._check_non_terminal_rules self) as [[]|e|]; simpl;
    try discriminate.
  destruct (keys (Engine.non_terminal_rules self)) as [|first_key ks];
    [discriminate|].
  destruct (enum_getitem (enum_type first_key) (Engine.root_token self))
    as [root|] eqn:Hroot; [|discriminate].
  destruct (dict_get (Engine.non_terminal_rules self) root)
    as [root_expr|] eqn:Hget; [|discriminate].
  destruct (Engine._parse self fuel root_expr 0) as [tree|e|] eqn:Hparse;
    simpl; try discriminate.
  destruct (token_count tree =? len (Engine.tokens self)) eqn:Heq; simpl.
  - apply Nat.eqb_eq in Heq.
    destruct (_parse_parsed_at self fuel _ _ Hparse) as (Hoff & Hwf & _).
    rewrite engine_prune_stages. cbn [untagged set_token_type token_type].
    intros H. inversion H; subst t. clear H.
    split; [exact Hoff|]. split; [exact Heq|].
    split; [exists first_key, ks, root; split;
            [reflexivity|split; [exact Hroot|reflexivity]]|].
    apply Forall_forall. intros d Hd.
    apply (in_map header) in Hd.
    rewrite pruned_descendant_headers in Hd.
    apply filter_In in Hd. destruct Hd as [Hin Hkept].
    apply in_map_iff in Hin. destruct Hin as (d' & Hheader & Hd').
    assert (Hspan : span_within d' tree).
    { apply well_formed_span_within; [exact Hwf|].
      rewrite subtrees_unfold. right. exact Hd'. }
    unfold header in Hheader. inversion Hheader as [[Ho Hc Ht]].
    unfold kept_by_prune, header in Hkept. cbn [snd] in Hkept.
    destruct Hspan as [_ Hspan]. rewrite Hoff, Heq in Hspan.
    split; [|lia].
    destruct (token_type d) as [k|]; [|discriminate].
    exists k. split; [congruence|]. now apply negb_true_iff.
  - destruct (token_count tree <? len (Engine.tokens self)); simpl;
      [|discriminate].
    destruct (nth_error (Engine.tokens self) (token_count tree)); discriminate.
Qed.

Lemma parse_returns_typed_tree_over_all_tokens_witness :
  Engine.parse sample_pruning_engine 6
  = Return (mkTree 0 3 (Some Sample.ROOT)
              [mkTree 0 1 (Some Sample.NUMBER) [];
               mkTree 2 1 (Some Sample.NUMBER) []])
  /\ token_offset (mkTree 0 3 (Some Sample.ROOT)
                     [mkTree 0 1 (Some Sample.NUMBER) [];
                      mkTree 2 1 (Some Sample.NUMBER) []]) = 0
  /\ token_count (mkTree 0 3 (Some Sample.ROOT)
                    [mkTree 0 1 (Some Sample.NUMBER) [];
                     mkTree 2 1 (Some Sample.NUMBER) []])
     = len (Engine.tokens sample_pruning_engine)
  /\ (exists first_key other_keys root,
         keys (Engine.non_terminal_rules sample_pruning_engine)
         = first_key :: other_keys /\
         enum_getitem (enum_type first_key)
           (Engine.root_token sample_pruning_engine) = Some root /\
         token_type (mkTree 0 3 (Some Sample.ROOT)
                       [mkTree 0 1 (Some Sample.NUMBER) [];
                        mkTree 2 1 (Some Sample.NUMBER) []]) = Some root)
  /\ Forall (fun d =>
               (exists k, token_type d = Some k /\
                  enum_in k (Engine.pruned_non_terminals sample_pruning_engine)
                  = false) /\
               token_offset d + token_count d
               <= len (Engine.tokens sample_pruning_engine))
       (descendants (mkTree 0 3 (Some Sample.ROOT)
                       [mkTree 0 1 (Some Sample.NUMBER) [];
                        mkTree 2 1 (Some Sample.NUMBER) []])).
Proof.
  split; [reflexivity|].
  exact (@parse_returns_typed_tree_over_all_tokens sample_pruning_engine 6 _
           eq_refl).
Defined.
